(** * ruget-semver: versions, ranges and version selection

    A shallow embedding of the crates [ruget-semver] (files [lib.rs] and
    [range.rs]) and [ruget-pick-version] (file [lib.rs]).

    Modelling conventions.
    - A Rust [&str] / [String] is a list of Unicode scalar values ([uchar],
      a code point as [N]); its [len()] is the UTF-8 byte length [byte_len].
      Rust's [String] ordering compares UTF-8 bytes, which is the
      lexicographic order on code points.
    - [u64] values are [N]; the parser bounds every version component by
      [MAX_SAFE_INTEGER], and the only arithmetic ([x + 1]) happens on parsed
      components, so no wrap-around can occur on the paths modelled here.
    - [str::to_uppercase] is modelled on ASCII letters; no property proved
      below depends on the case mapping of other code points.
    - A call that can reach [unreachable!()] or [unwrap()] on [None] returns
      an [outcome]: [Returns x] or [Panics].
    - The nom parsers are functions from the remaining input to an
      [IResult]; the combinators below follow nom's definitions. *)

From Stdlib Require Import NArith List String Ascii Bool Lia.
Import ListNotations.

Open Scope N_scope.

(* ------------------------------------------------------------------ *)
(** ** Characters and strings *)

Definition uchar := N.
Definition str := list uchar.

(** Number of bytes of the UTF-8 encoding of one code point. *)
Definition utf8_len (c : uchar) : N :=
  if c <? 128 then 1 else if c <? 2048 then 2 else if c <? 65536 then 3 else 4.

(** [str::len]: the length in bytes. *)
Definition byte_len (s : str) : N := fold_right (fun c n => utf8_len c + n) 0 s.

(** ASCII string literals, as used in the sources. *)
Definition lit (s : string) : str := map N_of_ascii (list_ascii_of_string s).

Definition is_digit (c : uchar) : bool := (48 <=? c) && (c <=? 57).

(** nom's [is_alphanumeric] on a byte. *)
Definition is_alphanumeric (b : N) : bool :=
  is_digit b || ((65 <=? b) && (b <=? 90)) || ((97 <=? b) && (b <=? 122)).

(** [str::to_uppercase], on ASCII letters. *)
Definition to_uppercase (s : str) : str :=
  map (fun c => if (97 <=? c) && (c <=? 122) then c - 32 else c) s.

(* ------------------------------------------------------------------ *)
(** ** Lexicographic comparison (Rust's [Ord] for slices and strings) *)

Section Lex.
Variable A : Type.
Variable cmp : A -> A -> comparison.
Variable eqb : A -> A -> bool.

Fixpoint lex_cmp (xs ys : list A) : comparison :=
    match xs, ys with
    | [], [] => Eq
    | [], _ :: _ => Lt
    | _ :: _, [] => Gt
    | x :: xs', y :: ys' =>
        match cmp x y with
        | Eq => lex_cmp xs' ys'
        | c => c
        end
    end.

  (** [PartialEq] for slices: same length and pairwise equal. *)
Fixpoint lex_eq (xs ys : list A) : bool :=
    match xs, ys with
    | [], [] => true
    | x :: xs', y :: ys' => eqb x y && lex_eq xs' ys'
    | _, _ => false
    end.

End Lex.

Arguments lex_cmp {A} cmp xs ys.
Arguments lex_eq {A} eqb xs ys.

Definition str_cmp : str -> str -> comparison := lex_cmp N.compare.
Definition str_eqb : str -> str -> bool := lex_eq N.eqb.

(* ------------------------------------------------------------------ *)
(** ** [Identifier] and [Version] (lib.rs) *)

Inductive Identifier : Type :=
| Numeric (n : N)
| AlphaNumeric (s : str).

(** [impl PartialEq for Identifier]. *)
Definition ident_eq (a b : Identifier) : bool :=
  match a, b with
  | Numeric x, Numeric y => N.eqb x y
  | AlphaNumeric x, AlphaNumeric y => str_eqb (to_uppercase x) (to_uppercase y)
  | _, _ => false
  end.

(** [impl Ord for Identifier]. *)
Definition ident_cmp (a b : Identifier) : comparison :=
  match a, b with
  | Numeric x, Numeric y => N.compare x y
  | AlphaNumeric x, AlphaNumeric y => str_cmp (to_uppercase x) (to_uppercase y)
  | AlphaNumeric _, Numeric _ => Gt
  | Numeric _, AlphaNumeric _ => Lt
  end.

Record Version : Type := mkVersion {
  major : N;
  minor : N;
  patch : N;
  revision : N;
  build : list Identifier;
  pre_release : list Identifier
}.

(** [Ord for Vec<Identifier>] and [PartialEq for Vec<Identifier>]. *)
Definition ids_cmp : list Identifier -> list Identifier -> comparison := lex_cmp ident_cmp.
Definition ids_eq : list Identifier -> list Identifier -> bool := lex_eq ident_eq.

(** [impl PartialEq for Version]: [build] is ignored. *)
Definition version_eq (a b : Version) : bool :=
  N.eqb a.(major) b.(major) && N.eqb a.(minor) b.(minor)
  && N.eqb a.(patch) b.(patch) && N.eqb a.(revision) b.(revision)
  && ids_eq a.(pre_release) b.(pre_release).

(** [impl Ord for Version]. *)
Definition version_cmp (a b : Version) : comparison :=
  match N.compare a.(major) b.(major) with
  | Eq =>
    match N.compare a.(minor) b.(minor) with
    | Eq =>
      match N.compare a.(patch) b.(patch) with
      | Eq =>
        match N.compare a.(revision) b.(revision) with
        | Eq =>
          match List.length a.(pre_release), List.length b.(pre_release) with
          | O, O => Eq
          | O, _ => Gt
          | _, O => Lt
          | _, _ => ids_cmp a.(pre_release) b.(pre_release)
          end
        | order_result => order_result
        end
      | order_result => order_result
      end
    | order_result => order_result
    end
  | order_result => order_result
  end.

(** The comparison operators derived from [partial_cmp = Some (cmp ..)]. *)
Definition version_le (a b : Version) : bool :=
  match version_cmp a b with Gt => false | _ => true end.
Definition version_lt (a b : Version) : bool :=
  match version_cmp a b with Lt => true | _ => false end.

(* ------------------------------------------------------------------ *)
(** ** Calls that may panic *)

Inductive outcome (A : Type) : Type :=
| Returns (a : A)
| Panics.
Arguments Returns {A} a.
Arguments Panics {A}.

Definition obind {A B : Type} (m : outcome A) (k : A -> outcome B) : outcome B :=
  match m with Returns a => k a | Panics => Panics end.

Notation "'let!' x ':=' m 'in' k" := (obind m (fun x => k))
  (at level 200, x name, m at level 100, k at level 200).

(** [Option::unwrap]. *)
Definition unwrap {A : Type} (o : option A) : outcome A :=
  match o with Some a => Returns a | None => Panics end.

(* ------------------------------------------------------------------ *)
(** ** [Predicate], [Bound] and their ordering (range.rs) *)

Inductive Predicate : Type :=
| Excluding (v : Version)
| Including (v : Version)
| Unbounded.

Definition flip (p : Predicate) : Predicate :=
  match p with
  | Excluding v => Including v
  | Including v => Excluding v
  | Unbounded => Unbounded
  end.

Inductive Bound : Type :=
| Lower (p : Predicate)
| Upper (p : Predicate).

Definition predicate (b : Bound) : Predicate :=
  match b with Lower p => p | Upper p => p end.

(** Derived [PartialEq] for [Predicate] and [Bound]. *)
Definition pred_eq (p q : Predicate) : bool :=
  match p, q with
  | Excluding v1, Excluding v2 => version_eq v1 v2
  | Including v1, Including v2 => version_eq v1 v2
  | Unbounded, Unbounded => true
  | _, _ => false
  end.

Definition bound_eq (a b : Bound) : bool :=
  match a, b with
  | Lower p, Lower q => pred_eq p q
  | Upper p, Upper q => pred_eq p q
  | _, _ => false
  end.

(** [impl Ord for Bound]; the arms are tried in the order of the source. *)
Definition bound_cmp (a b : Bound) : comparison :=
  match a, b with
  | Lower Unbounded, Lower Unbounded | Upper Unbounded, Upper Unbounded => Eq
  | Upper Unbounded, _ | _, Lower Unbounded => Gt
  | Lower Unbounded, _ | _, Upper Unbounded => Lt
  | Upper (Including v1), Upper (Including v2)
  | Upper (Including v1), Lower (Including v2)
  | Upper (Excluding v1), Upper (Excluding v2)
  | Upper (Excluding v1), Lower (Excluding v2)
  | Lower (Including v1), Upper (Including v2)
  | Lower (Including v1), Lower (Including v2)
  | Lower (Excluding v1), Lower (Excluding v2) => version_cmp v1 v2
  | Lower (Excluding v1), Upper (Excluding v2)
  | Lower (Including v1), Upper (Excluding v2) =>
      if version_le v2 v1 then Gt else Lt
  | Upper (Including v1), Upper (Excluding v2)
  | Upper (Including v1), Lower (Excluding v2)
  | Lower (Excluding v1), Upper (Including v2) =>
      if version_lt v2 v1 then Gt else Lt
  | Lower (Excluding v1), Lower (Including v2) =>
      if version_lt v1 v2 then Lt else Gt
  | Lower (Including v1), Lower (Excluding v2)
  | Upper (Excluding v1), Lower (Including v2)
  | Upper (Excluding v1), Upper (Including v2) =>
      if version_le v1 v2 then Lt else Gt
  end.

Definition bound_le (a b : Bound) : bool :=
  match bound_cmp a b with Gt => false | _ => true end.
Definition bound_lt (a b : Bound) : bool :=
  match bound_cmp a b with Lt => true | _ => false end.

(** [std::cmp::max] returns its second argument on [Equal],
    [std::cmp::min] its first. *)
Definition bound_max (a b : Bound) : Bound :=
  match bound_cmp a b with Gt => a | _ => b end.
Definition bound_min (a b : Bound) : Bound :=
  match bound_cmp a b with Gt => b | _ => a end.

(* ------------------------------------------------------------------ *)
(** ** [ComparatorSet] *)

Record ComparatorSet : Type := mkCS {
  upper : Bound;
  lower : Bound
}.

(** Derived [PartialEq]. *)
Definition cs_eq (a b : ComparatorSet) : bool :=
  bound_eq a.(upper) b.(upper) && bound_eq a.(lower) b.(lower).

(** [ComparatorSet::new]. *)
Definition cs_new (lo up : Bound) : option ComparatorSet :=
  let general := if bound_le lo up then Some (mkCS up lo) else None in
  match lo, up with
  | Lower (Excluding v1), Upper (Including v2)
  | Lower (Including v1), Upper (Excluding v2) =>
      if version_eq v1 v2 then None else general
  | Lower (Including v1), Upper (Including v2) =>
      if version_eq v1 v2
      then Some (mkCS (Upper (Including v2)) (Lower (Including v1)))
      else general
  | _, _ => general
  end.

Definition is_empty {A : Type} (l : list A) : bool :=
  match l with [] => true | _ => false end.

(** [ComparatorSet::has_pre]. *)
Definition cs_has_pre (c : ComparatorSet) : outcome bool :=
  let! lower_bound :=
    match c.(lower) with
    | Lower (Including l) => Returns (negb (is_empty l.(pre_release)))
    | Lower (Excluding l) => Returns (negb (is_empty l.(pre_release)))
    | Lower Unbounded => Returns false
    | _ => Panics
    end in
  let! upper_bound :=
    match c.(upper) with
    | Upper (Including u) => Returns (negb (is_empty u.(pre_release)))
    | Upper (Excluding u) => Returns (negb (is_empty u.(pre_release)))
    | Upper Unbounded => Returns false
    | _ => Panics
    end in
  Returns (lower_bound || upper_bound).

(** [ComparatorSet::satisfies]. *)
Definition cs_satisfies (c : ComparatorSet) (version : Version) : outcome bool :=
  let! lower_bound :=
    match c.(lower) with
    | Lower (Including l) => Returns (version_le l version)
    | Lower (Excluding l) => Returns (version_lt l version)
    | Lower Unbounded => Returns true
    | _ => Panics
    end in
  let! upper_bound :=
    match c.(upper) with
    | Upper (Including u) => Returns (version_le version u)
    | Upper (Excluding u) => Returns (version_lt version u)
    | Upper Unbounded => Returns true
    | _ => Panics
    end in
  Returns (lower_bound && upper_bound).

(** [ComparatorSet::intersect]. *)
Definition cs_intersect (s o : ComparatorSet) : option ComparatorSet :=
  cs_new (bound_max s.(lower) o.(lower)) (bound_min s.(upper) o.(upper)).

(** [ComparatorSet::difference]. *)
Definition cs_difference (s o : ComparatorSet)
  : outcome (option (list ComparatorSet)) :=
  match cs_intersect s o with
  | Some overlap =>
      if cs_eq overlap s then Returns None
      else if bound_lt s.(lower) overlap.(lower) && bound_lt overlap.(upper) s.(upper)
      then
        let! a := unwrap (cs_new s.(lower) (Upper (flip (predicate overlap.(lower))))) in
        let! b := unwrap (cs_new (Lower (flip (predicate overlap.(upper)))) s.(upper)) in
        Returns (Some [a; b])
      else if bound_lt s.(lower) overlap.(lower) then
        Returns (option_map (fun f => [f])
                   (cs_new s.(lower) (Upper (flip (predicate overlap.(lower))))))
      else
        Returns (option_map (fun f => [f])
                   (cs_new (Lower (flip (predicate overlap.(upper)))) s.(upper)))
  | None => Returns (Some [s])
  end.

(* ------------------------------------------------------------------ *)
(** ** [Range] *)

Record Range : Type := mkRange { comparators : list ComparatorSet }.

(** [Range::has_pre_release]: [Iterator::any], which stops at the first
    [true]. *)
Fixpoint any_has_pre (cs : list ComparatorSet) : outcome bool :=
  match cs with
  | [] => Returns false
  | c :: cs' => let! b := cs_has_pre c in if b then Returns true else any_has_pre cs'
  end.

Definition range_has_pre_release (r : Range) : outcome bool :=
  any_has_pre r.(comparators).

(** [Range::satisfies]: the loop returns at the first satisfied set. *)
Fixpoint satisfies_loop (cs : list ComparatorSet) (v : Version) : outcome bool :=
  match cs with
  | [] => Returns false
  | c :: cs' =>
      let! b := cs_satisfies c v in if b then Returns true else satisfies_loop cs' v
  end.

Definition range_satisfies (r : Range) (v : Version) : outcome bool :=
  satisfies_loop r.(comparators) v.

(** [Range::intersect]: the two nested loops push, in order, every
    non-empty pairwise intersection. *)
Definition range_intersect (s o : Range) : option Range :=
  let predicates :=
    flat_map (fun lefty =>
      flat_map (fun righty =>
        match cs_intersect lefty righty with Some r => [r] | None => [] end)
        o.(comparators))
      s.(comparators) in
  match predicates with
  | [] => None
  | _ => Some (mkRange predicates)
  end.

(** [flat_map] through calls that may panic. *)
Fixpoint flat_map_out {A B : Type} (f : A -> outcome (list B)) (l : list A)
  : outcome (list B) :=
  match l with
  | [] => Returns []
  | x :: l' => let! ys := f x in let! zs := flat_map_out f l' in Returns (ys ++ zs)
  end.

(** [Range::difference]. *)
Definition range_difference (s o : Range) : outcome (option Range) :=
  let! predicates :=
    flat_map_out (fun lefty =>
      flat_map_out (fun righty =>
        let! d := cs_difference lefty righty in
        Returns (match d with Some r => r | None => [] end))
        o.(comparators))
      s.(comparators) in
  Returns (match predicates with
           | [] => None
           | _ => Some (mkRange predicates)
           end).

(* ------------------------------------------------------------------ *)
(** ** Version selection (ruget-pick-version) *)

(** [slice::sort_unstable] on [Version]s: an insertion sort by
    [version_cmp].  The order of elements comparing [Equal] is unspecified
    in Rust; the properties proved below only use that the sort permutes
    its input. *)
Fixpoint insert_sorted (v : Version) (l : list Version) : list Version :=
  match l with
  | [] => [v]
  | x :: l' => if version_le v x then v :: l else x :: insert_sorted v l'
  end.

Definition sort_unstable (l : list Version) : list Version :=
  fold_right insert_sorted [] l.

(** [Iterator::find] with [Range::satisfies] as the predicate. *)
Fixpoint find_satisfying (req : Range) (vs : list Version) : outcome (option Version) :=
  match vs with
  | [] => Returns None
  | v :: vs' =>
      let! b := range_satisfies req v in
      if b then Returns (Some v) else find_satisfying req vs'
  end.

(** [VersionPicker::pick_version].  [Range::is_floating] is not part of the
    sources; its value is an argument ([req_is_floating]). *)
Definition pick_version (force_floating : bool) (req_is_floating : bool)
    (req : Range) (versions : list Version) : outcome (option Version) :=
  let! include_pre := range_has_pre_release req in
  let versions :=
    filter (fun v => include_pre || is_empty v.(pre_release)) versions in
  let versions := sort_unstable versions in
  let versions := if req_is_floating || force_floating then rev versions else versions in
  find_satisfying req versions.

(* ------------------------------------------------------------------ *)
(** ** Errors (lib.rs) *)

(** [std::num::IntErrorKind], for [str::parse::<u64>]. *)
Inductive IntErrorKind : Type := Empty | InvalidDigit | PosOverflow.

Inductive SemverErrorKind : Type :=
| MaxLengthError
| IncompleteInput
| ParseIntError (k : IntErrorKind)
| MaxIntError (value : N)
| Context (ctx : string)
| Other.

Record SemverError : Type := mkSemverError {
  err_input : str;
  err_offset : N;
  err_kind : SemverErrorKind
}.

Record SemverParseError : Type := mkParseError {
  pe_input : str;
  pe_context : option string;
  pe_kind : option SemverErrorKind
}.

Inductive Result (A E : Type) : Type :=
| Ok (a : A)
| Err (e : E).
Arguments Ok {A E} a.
Arguments Err {A E} e.

(* ------------------------------------------------------------------ *)
(** ** nom *)

(** [nom::Err]. *)
Inductive NomErr : Type :=
| Error (e : SemverParseError)
| Failure (e : SemverParseError)
| Incomplete.

(** [IResult]: the remaining input and the output, an error, or a panic
    raised inside a closure. *)
Inductive IResult (A : Type) : Type :=
| IOk (rest : str) (out : A)
| IErr (e : NomErr)
| IPanic.
Arguments IOk {A} rest out.
Arguments IErr {A} e.
Arguments IPanic {A}.

Definition Parser (A : Type) : Type := str -> IResult A.

(** [ParseError::from_error_kind] of [SemverParseError]. *)
Definition from_error_kind (i : str) : SemverParseError := mkParseError i None None.

Definition ret {A : Type} (a : A) : Parser A := fun i => IOk i a.

(** Sequencing, as in nom's [tuple] and [preceded]. *)
Definition pbind {A B : Type} (p : Parser A) (k : A -> Parser B) : Parser B :=
  fun i => match p i with
           | IOk r a => k a r
           | IErr e => IErr e
           | IPanic => IPanic
           end.

Notation "x <- p ;; k" := (pbind p (fun x => k))
  (at level 61, p at next level, right associativity).

Definition pmap {A B : Type} (p : Parser A) (f : A -> B) : Parser B :=
  pbind p (fun a => ret (f a)).

Definition tuple2 {A B : Type} (p : Parser A) (q : Parser B) : Parser (A * B) :=
  a <- p ;; b <- q ;; ret (a, b).

Definition preceded {A B : Type} (p : Parser A) (q : Parser B) : Parser B :=
  _ <- p ;; q.

Fixpoint strip_prefix (t i : str) : option str :=
  match t, i with
  | [], _ => Some i
  | c :: t', d :: i' => if N.eqb c d then strip_prefix t' i' else None
  | _ :: _, [] => None
  end.

Definition tag (t : str) : Parser str :=
  fun i => match strip_prefix t i with
           | Some r => IOk r t
           | None => IErr (Error (from_error_kind i))
           end.

Fixpoint span (p : uchar -> bool) (i : str) : str * str :=
  match i with
  | [] => ([], [])
  | c :: i' => if p c then let (a, b) := span p i' in (c :: a, b) else ([], i)
  end.

(** [take_while] on complete input. *)
Definition take_while (p : uchar -> bool) : Parser str :=
  fun i => let (a, b) := span p i in IOk b a.

Definition digit1 : Parser str :=
  fun i => let (a, b) := span is_digit i in
           match a with
           | [] => IErr (Error (from_error_kind i))
           | _ => IOk b a
           end.

Definition space0 : Parser str := take_while (fun c => N.eqb c 32 || N.eqb c 9).

Definition opt {A : Type} (p : Parser A) : Parser (option A) :=
  fun i => match p i with
           | IOk r a => IOk r (Some a)
           | IErr (Error _) => IOk i None
           | IErr e => IErr e
           | IPanic => IPanic
           end.

(** [alt]: a recoverable error passes to the next branch; when every
    branch fails the last error is returned ([or] and [append] of
    [SemverParseError] keep the later error). *)
Definition alt {A : Type} (p q : Parser A) : Parser A :=
  fun i => match p i with
           | IErr (Error _) => q i
           | r => r
           end.

Definition cut {A : Type} (p : Parser A) : Parser A :=
  fun i => match p i with
           | IErr (Error e) => IErr (Failure e)
           | r => r
           end.

(** [ContextError::add_context] of [SemverParseError]. *)
Definition add_context (ctx : string) (e : SemverParseError) : SemverParseError :=
  mkParseError e.(pe_input) (Some ctx) e.(pe_kind).

Definition context {A : Type} (ctx : string) (p : Parser A) : Parser A :=
  fun i => match p i with
           | IErr (Error e) => IErr (Error (add_context ctx e))
           | IErr (Failure e) => IErr (Failure (add_context ctx e))
           | r => r
           end.

(** [map_res]: [from_external_error] returns the closure's error. *)
Definition map_res {A B : Type} (p : Parser A) (f : A -> Result B SemverParseError)
  : Parser B :=
  fun i => match p i with
           | IOk r a => match f a with
                        | Ok b => IOk r b
                        | Err e => IErr (Error e)
                        end
           | IErr e => IErr e
           | IPanic => IPanic
           end.

(** [map_opt]; the closure may panic. *)
Definition map_opt {A B : Type} (p : Parser A) (f : A -> outcome (option B))
  : Parser B :=
  fun i => match p i with
           | IOk r a => match f a with
                        | Returns (Some b) => IOk r b
                        | Returns None => IErr (Error (from_error_kind i))
                        | Panics => IPanic
                        end
           | IErr e => IErr e
           | IPanic => IPanic
           end.

Definition recognize {A : Type} (p : Parser A) : Parser str :=
  fun i => match p i with
           | IOk r _ => IOk r (firstn (List.length i - List.length r) i)
           | IErr e => IErr e
           | IPanic => IPanic
           end.

Definition all_consuming {A : Type} (p : Parser A) : Parser A :=
  fun i => match p i with
           | IOk [] a => IOk [] a
           | IOk r _ => IErr (Error (from_error_kind r))
           | IErr e => IErr e
           | IPanic => IPanic
           end.

(** The loop of [separated_list1]; every round consumes the separator, so
    [length i + 1] rounds always suffice. *)
Fixpoint sep_loop {A Sep : Type} (sep : Parser Sep) (f : Parser A) (fuel : nat)
    (i : str) (res : list A) : IResult (list A) :=
  match fuel with
  | O => IOk i res
  | S fuel' =>
      match sep i with
      | IErr (Error _) => IOk i res
      | IErr e => IErr e
      | IPanic => IPanic
      | IOk i1 _ =>
          if Nat.eqb (List.length i1) (List.length i)
          then IErr (Error (from_error_kind i1))
          else match f i1 with
               | IErr (Error _) => IOk i res
               | IErr e => IErr e
               | IPanic => IPanic
               | IOk i2 o => sep_loop sep f fuel' i2 (res ++ [o])
               end
      end
  end.

Definition separated_list1 {A Sep : Type} (sep : Parser Sep) (f : Parser A)
  : Parser (list A) :=
  fun i => match f i with
           | IOk i1 o => sep_loop sep f (S (List.length i1)) i1 [o]
           | IErr e => IErr e
           | IPanic => IPanic
           end.

(* ------------------------------------------------------------------ *)
(** ** Formatting (lib.rs, [Display]) *)

(** Decimal digits of [n], least significant first. *)
Fixpoint digits_rev (fuel : nat) (n : N) : str :=
  match fuel with
  | O => []
  | S f => if n <? 10 then [48 + n] else (48 + n mod 10) :: digits_rev f (n / 10)
  end.

(** [write!(f, "{}", n)] for an unsigned integer. *)
Definition show_N (n : N) : str := rev (digits_rev (S (N.size_nat n)) n).

Definition ident_to_string (i : Identifier) : str :=
  match i with
  | Numeric n => show_N n
  | AlphaNumeric s => s
  end.

(** The identifiers after the first, each preceded by ["."]. *)
Fixpoint ids_tail (ids : list Identifier) : str :=
  match ids with
  | [] => []
  | i :: r => 46 :: ident_to_string i ++ ids_tail r
  end.

(** The [enumerate] loops of [Display for Version]: [first] before the
    first identifier, ["."] before the others. *)
Definition ids_to_string (first : uchar) (ids : list Identifier) : str :=
  match ids with
  | [] => []
  | i :: r => first :: ident_to_string i ++ ids_tail r
  end.

Definition version_to_string (v : Version) : str :=
  show_N v.(major) ++ [46] ++ show_N v.(minor) ++ [46] ++ show_N v.(patch) ++
  (if 0 <? v.(revision) then 46 :: show_N v.(revision) else []) ++
  ids_to_string 45 v.(pre_release) ++
  ids_to_string 43 v.(build).

(* ------------------------------------------------------------------ *)
(** ** Integer parsing ([str::parse::<u64>]) *)

Definition u64_max : N := 18446744073709551615.

Fixpoint u64_digits (acc : N) (ds : str) : Result N IntErrorKind :=
  match ds with
  | [] => Ok acc
  | c :: ds' =>
      if is_digit c then
        let acc' := acc * 10 + (c - 48) in
        if u64_max <? acc' then Err PosOverflow else u64_digits acc' ds'
      else Err InvalidDigit
  end.

Definition u64_from_str (s : str) : Result N IntErrorKind :=
  match s with
  | [] => Err Empty
  | [c] => if N.eqb c 43 || N.eqb c 45 then Err InvalidDigit else u64_digits 0 s
  | c :: rest => if N.eqb c 43 then u64_digits 0 rest else u64_digits 0 s
  end.

(* ------------------------------------------------------------------ *)
(** ** Version parser (lib.rs)

    The parsers [build] and [pre_release] are named [build_parser] and
    [pre_release_parser], as the record fields take their names. *)

Definition MAX_SAFE_INTEGER : N := 900719925474099.
Definition MAX_LENGTH : N := 256.

Definition number : Parser N :=
  fun input =>
    context "number component"
      (map_res (recognize digit1) (fun raw =>
         match u64_from_str raw with
         | Err e => Err (mkParseError input None (Some (ParseIntError e)))
         | Ok value =>
             if MAX_SAFE_INTEGER <? value
             then Err (mkParseError input None (Some (MaxIntError value)))
             else Ok value
         end)) input.

(** [is_alphanumeric(x as u8) || x == '-']. *)
Definition ident_char (x : uchar) : bool := is_alphanumeric (x mod 256) || N.eqb x 45.

Definition identifier : Parser Identifier :=
  context "identifier"
    (pmap (take_while ident_char) (fun s =>
       match u64_from_str s with
       | Ok n => Numeric n
       | Err _ => AlphaNumeric s
       end)).

Definition build_parser : Parser (list Identifier) :=
  context "build version"
    (preceded (tag (lit "+")) (separated_list1 (tag (lit ".")) identifier)).

Definition pre_release_parser : Parser (list Identifier) :=
  context "pre_release version"
    (preceded (tag (lit "-")) (separated_list1 (tag (lit ".")) identifier)).

Inductive Extras : Type :=
| Build (ident : list Identifier)
| Release (ident : list Identifier)
| ReleaseAndBuild (ident : list Identifier * list Identifier).

Definition values (e : Extras) : list Identifier * list Identifier :=
  match e with
  | Release ident => (ident, [])
  | Build ident => ([], ident)
  | ReleaseAndBuild ident => ident
  end.

Definition extras : Parser (list Identifier * list Identifier) :=
  pmap (opt (alt (pmap (tuple2 pre_release_parser build_parser) ReleaseAndBuild)
            (alt (pmap pre_release_parser Release)
                 (pmap build_parser Build))))
       (fun e => match e with
                 | Some e => values e
                 | None => ([], [])
                 end).

Definition version_core : Parser (N * N * N * N) :=
  context "version core"
    (alt (major <- number ;; _ <- tag (lit ".") ;; minor <- cut number ;;
          _ <- tag (lit ".") ;; patch <- cut number ;;
          _ <- tag (lit ".") ;; revision <- cut number ;;
          ret (major, minor, patch, revision))
    (alt (major <- number ;; _ <- tag (lit ".") ;; minor <- cut number ;;
          _ <- tag (lit ".") ;; patch <- cut number ;;
          ret (major, minor, patch, 0))
    (alt (major <- number ;; _ <- tag (lit ".") ;; minor <- cut number ;;
          ret (major, minor, 0, 0))
         (pmap number (fun major => (major, 0, 0, 0)))))).

Definition version : Parser Version :=
  context "version"
    (pmap (tuple2 version_core extras)
       (fun '((major, minor, patch, revision), (pre_release, build)) =>
          mkVersion major minor patch revision build pre_release)).

(** The conversion of a nom error into a [SemverError], shared by
    [Version::parse] and [Range::parse]; the offset is the pointer
    difference of the error's input into the original one, in bytes.
    [input.len() - 1] underflows (a panic) on the empty input. *)
Definition to_semver_error {A : Type} (input : str) (r : IResult A)
  : outcome (Result A SemverError) :=
  match r with
  | IOk _ arg => Returns (Ok arg)
  | IErr (Error e) | IErr (Failure e) =>
      Returns (Err (mkSemverError input (byte_len input - byte_len e.(pe_input))
        (match e.(pe_kind) with
         | Some kind => kind
         | None => match e.(pe_context) with
                   | Some ctx => Context ctx
                   | None => Other
                   end
         end)))
  | IErr Incomplete =>
      if byte_len input =? 0 then Panics
      else Returns (Err (mkSemverError input (byte_len input - 1) IncompleteInput))
  | IPanic => Panics
  end.

Definition version_parse (input : str) : outcome (Result Version SemverError) :=
  if MAX_LENGTH <? byte_len input
  then Returns (Err (mkSemverError input 0 MaxLengthError))
  else to_semver_error input (all_consuming version input).

(* ------------------------------------------------------------------ *)
(** ** Range parser (range.rs) *)

Definition at_least (p : Predicate) : option ComparatorSet := cs_new (Lower p) (Upper Unbounded).

Definition at_most (p : Predicate) : option ComparatorSet := cs_new (Lower Unbounded) (Upper p).

Definition exact (v : Version) : option ComparatorSet :=
  cs_new (Lower (Including v)) (Upper (Including v)).

Definition unwrap_or (o : option N) (d : N) : N :=
  match o with Some x => x | None => d end.

Definition PartialVersion : Type :=
  (option N * option N * option N * option N * list Identifier * list Identifier)%type.

(** [alt((number, map(tag("*"), |_| 0)))]. *)
Definition number_or_star : Parser N :=
  alt number (pmap (tag (lit "*")) (fun _ => 0)).

Definition maybe_dot_number : Parser (option N) :=
  opt (preceded (tag (lit ".")) number_or_star).

Definition partial_version : Parser PartialVersion :=
  pmap (major <- opt number_or_star ;; minor <- maybe_dot_number ;;
        patch <- maybe_dot_number ;; revision <- maybe_dot_number ;;
        ex <- extras ;; ret (major, minor, patch, revision, ex))
    (fun '(major, minor, patch, revision, (pre_release, build)) =>
       (major, minor, patch, revision, pre_release, build)).

Definition plain_version_range : Parser ComparatorSet :=
  context "base version range"
    (map_opt partial_version
       (fun '(major, minor, patch, revision, pre_release, build) =>
          Returns (cs_new
            (Lower (Including (mkVersion (unwrap_or major 0) (unwrap_or minor 0)
                                 (unwrap_or patch 0) (unwrap_or revision 0)
                                 build pre_release)))
            (Upper (Excluding (mkVersion (unwrap_or (option_map (fun x => x + 1) major) 1)
                                 0 0 0 [] [Numeric 0])))))).

Definition open_brace : Parser str :=
  context "opening bracket" (alt (tag (lit "[")) (tag (lit "("))).

Definition close_brace : Parser str :=
  context "closing bracket" (alt (tag (lit "]")) (tag (lit ")"))).

(** The [Version] built from a [PartialVersion] in [brackets_range]. *)
Definition pv_version (p : PartialVersion) : Version :=
  let '(major, minor, patch, revision, pre_release, build) := p in
  mkVersion (unwrap_or major 0) (unwrap_or minor 0) (unwrap_or patch 0)
    (unwrap_or revision 0) build pre_release.

(** [match close { ")" => Excluding, "]" => Including, _ => unreachable!() }]
    and its counterpart for [open]. *)
Definition bracket_pred (excl incl : string) (b : str) (v : Version) : outcome Predicate :=
  if str_eqb b (lit excl) then Returns (Excluding v)
  else if str_eqb b (lit incl) then Returns (Including v)
  else Panics.

Definition brackets_range : Parser ComparatorSet :=
  context "brackets"
    (map_opt
       (open <- open_brace ;; _ <- space0 ;; lower <- opt partial_version ;;
        _ <- space0 ;; comma <- opt (tag (lit ",")) ;; _ <- space0 ;;
        upper <- opt partial_version ;; _ <- space0 ;; close <- close_brace ;;
        ret (open, lower, comma, upper, close))
       (fun '(open, lower, comma, upper, close) =>
          let! lower_bound :=
            match lower with
            | Some l => let! p := bracket_pred "(" "[" open (pv_version l) in
                        Returns (Lower p)
            | None => Returns (Lower Unbounded)
            end in
          let! upper_bound :=
            match upper with
            | Some u => let! p := bracket_pred ")" "]" close (pv_version u) in
                        Returns (Some (Upper p))
            | None =>
                match comma with
                | Some _ => Returns (Some (Upper Unbounded))
                | None =>
                    match lower with
                    | Some l => let! p := bracket_pred ")" "]" close (pv_version l) in
                                Returns (Some (Upper p))
                    | None => Returns None
                    end
                end
            end in
          match upper_bound with
          | Some ub => Returns (cs_new lower_bound ub)
          | None => Returns None
          end)).

Inductive Operation : Type :=
| Exact | GreaterThan | GreaterThanEquals | LessThan | LessThanEquals.

Definition operation : Parser Operation :=
  context "operation"
    (alt (pmap (tag (lit ">=")) (fun _ => GreaterThanEquals))
    (alt (pmap (tag (lit ">")) (fun _ => GreaterThan))
    (alt (pmap (tag (lit "=")) (fun _ => Exact))
    (alt (pmap (tag (lit "<=")) (fun _ => LessThanEquals))
         (pmap (tag (lit "<")) (fun _ => LessThan)))))).

Definition any_operation_followed_by_version : Parser ComparatorSet :=
  context "operation followed by version"
    (map_opt (tuple2 operation (preceded space0 partial_version))
       (fun '(op, (major, minor, patch, revision, pre_release, build)) =>
          match op, minor, patch, revision with
          | GreaterThanEquals, _, _, _ =>
              Returns (at_least (Including (mkVersion (unwrap_or major 0)
                 (unwrap_or minor 0) (unwrap_or patch 0) (unwrap_or revision 0)
                 build pre_release)))
          | GreaterThan, Some minor, Some patch, Some revision =>
              Returns (at_least (Excluding (mkVersion (unwrap_or major 0)
                 minor patch revision build pre_release)))
          | GreaterThan, Some minor, Some patch, None =>
              Returns (at_least (Excluding (mkVersion (unwrap_or major 0)
                 minor patch 0 build pre_release)))
          | GreaterThan, Some minor, None, None =>
              Returns (at_least (Including (mkVersion (unwrap_or major 0)
                 (minor + 1) 0 0 build pre_release)))
          | GreaterThan, None, None, None =>
              Returns (at_least (Including (mkVersion
                 (unwrap_or (option_map (fun x => x + 1) major) 0)
                 0 0 0 build pre_release)))
          | LessThan, Some minor, Some patch, None =>
              Returns (at_most (Excluding (mkVersion (unwrap_or major 0)
                 minor patch 0 build pre_release)))
          | LessThan, Some minor, None, None =>
              Returns (at_most (Excluding (mkVersion (unwrap_or major 0)
                 minor 0 0 build [Numeric 0])))
          | LessThan, minor, patch, revision =>
              Returns (at_most (Excluding (mkVersion (unwrap_or major 0)
                 (unwrap_or minor 0) (unwrap_or patch 0) (unwrap_or revision 0)
                 build pre_release)))
          | LessThanEquals, None, None, None =>
              Returns (at_most (Including (mkVersion (unwrap_or major 0)
                 0 0 0 build [Numeric 0])))
          | LessThanEquals, Some minor, None, None =>
              Returns (at_most (Including (mkVersion (unwrap_or major 0)
                 minor 0 0 build [Numeric 0])))
          | LessThanEquals, Some minor, Some patch, None =>
              Returns (at_most (Including (mkVersion (unwrap_or major 0)
                 minor patch 0 build pre_release)))
          | LessThanEquals, Some minor, Some patch, Some revision =>
              Returns (at_most (Including (mkVersion (unwrap_or major 0)
                 minor patch revision build pre_release)))
          | Exact, None, None, None =>
              Returns (exact (mkVersion (unwrap_or major 0) 0 0 0 build pre_release))
          | Exact, Some minor, None, None =>
              Returns (exact (mkVersion (unwrap_or major 0) minor 0 0 build pre_release))
          | Exact, Some minor, Some patch, None =>
              Returns (exact (mkVersion (unwrap_or major 0) minor patch 0 build pre_release))
          | Exact, Some minor, Some patch, Some revision =>
              Returns (exact (mkVersion (unwrap_or major 0) minor patch revision
                 build pre_release))
          | _, _, _, _ => Panics
          end)).

Definition comparators_parser : Parser ComparatorSet :=
  alt brackets_range (alt any_operation_followed_by_version plain_version_range).

Definition range : Parser (list ComparatorSet) :=
  context "range"
    (separated_list1 (_ <- space0 ;; _ <- tag (lit "||") ;; space0) comparators_parser).

Definition range_parse (input : str) : outcome (Result Range SemverError) :=
  match to_semver_error input (all_consuming range input) with
  | Returns (Ok predicates) => Returns (Ok (mkRange predicates))
  | Returns (Err e) => Returns (Err e)
  | Panics => Panics
  end.

(* ------------------------------------------------------------------ *)
(** ** The position order of the specification

    Modelled from the spec: every bound is mapped to a position
    [(version, epsilon)] — [Lower(Unbounded)] to minus infinity,
    [Upper(Unbounded)] to plus infinity, [Including(v)] to [(v, 0)],
    [Lower(Excluding(v))] to [(v, +epsilon)] and [Upper(Excluding(v))] to
    [(v, -epsilon)] — and positions are compared lexicographically, the
    versions by [Version::cmp]. *)

Inductive Eps : Type := EMinus | EZero | EPlus.

Definition eps_rank (e : Eps) : N :=
  match e with EMinus => 0 | EZero => 1 | EPlus => 2 end.

Inductive Position : Type :=
| NegInf
| At (v : Version) (e : Eps)
| PosInf.

Definition position (b : Bound) : Position :=
  match b with
  | Lower Unbounded => NegInf
  | Upper Unbounded => PosInf
  | Lower (Including v) | Upper (Including v) => At v EZero
  | Lower (Excluding v) => At v EPlus
  | Upper (Excluding v) => At v EMinus
  end.

Definition position_cmp (p q : Position) : comparison :=
  match p, q with
  | NegInf, NegInf | PosInf, PosInf => Eq
  | NegInf, _ | _, PosInf => Lt
  | _, NegInf | PosInf, _ => Gt
  | At v e, At w f =>
      match version_cmp v w with
      | Eq => N.compare (eps_rank e) (eps_rank f)
      | c => c
      end
  end.

Definition ref_bound_cmp (a b : Bound) : comparison :=
  position_cmp (position a) (position b).

(** A version lies in the interval of a set when its position [(v, 0)] is
    between the positions of the lower and the upper bound. *)
Definition ref_inside (c : ComparatorSet) (v : Version) : bool :=
  match position_cmp (position c.(lower)) (At v EZero),
        position_cmp (At v EZero) (position c.(upper)) with
  | Gt, _ | _, Gt => false
  | _, _ => true
  end.

(* ------------------------------------------------------------------ *)
(** ** Well-formed sets and ranges

    The sets built by [Range::parse] come out of [ComparatorSet::new]: a
    [Lower] bound, an [Upper] bound, and [new] returns the set itself. *)

Definition is_lower (b : Bound) : bool := match b with Lower _ => true | Upper _ => false end.
Definition is_upper (b : Bound) : bool := match b with Upper _ => true | Lower _ => false end.

Definition cs_valid (c : ComparatorSet) : Prop :=
  is_lower c.(lower) = true /\ is_upper c.(upper) = true /\
  cs_new c.(lower) c.(upper) = Some c.

Definition range_valid (r : Range) : Prop :=
  r.(comparators) <> [] /\ Forall cs_valid r.(comparators).

(** The test made by [ComparatorSet::satisfies] on one bound. *)
Definition bsat (b : Bound) (v : Version) : bool :=
  match b with
  | Lower (Including l) => version_le l v
  | Lower (Excluding l) => version_lt l v
  | Upper (Including u) => version_le v u
  | Upper (Excluding u) => version_lt v u
  | Lower Unbounded | Upper Unbounded => true
  end.

Definition in_range (r : Range) (v : Version) : Prop :=
  range_satisfies r v = Returns true.

(* ------------------------------------------------------------------ *)
(** ** Invariants of the parsers *)

(** The identifiers [identifier] can return. *)
Definition wf_ident (i : Identifier) : Prop :=
  match i with
  | Numeric n => n <= u64_max
  | AlphaNumeric s => forallb ident_char s = true /\ exists e, u64_from_str s = Err e
  end.

(** The versions [Version::parse] can return. *)
Definition wf_version (v : Version) : Prop :=
  v.(major) <= MAX_SAFE_INTEGER /\ v.(minor) <= MAX_SAFE_INTEGER /\
  v.(patch) <= MAX_SAFE_INTEGER /\ v.(revision) <= MAX_SAFE_INTEGER /\
  Forall wf_ident v.(pre_release) /\ Forall wf_ident v.(build).

Definition is_suffix (t s : str) : Prop := exists k, skipn k s = t.

(** One step of the digit loop of [parse::<u64>]. *)
Definition digit_step (acc : N) (c : uchar) : N := acc * 10 + (c - 48).

(** A parser that only returns outputs satisfying [Q]. *)
Definition Produces {A : Type} (p : Parser A) (Q : A -> Prop) : Prop :=
  forall i r a, p i = IOk r a -> Q a.

(** The error kinds a parser of the version grammar can report:
    [MaxIntError] only above [MAX_SAFE_INTEGER], and never the kinds that
    only [Version::parse] itself produces. *)
Definition kind_ok (e : SemverParseError) : Prop :=
  match e.(pe_kind) with
  | Some (MaxIntError n) => MAX_SAFE_INTEGER < n
  | Some MaxLengthError | Some IncompleteInput => False
  | _ => True
  end.

(** A parser that never panics and never reports [Incomplete], whose
    remaining input and error positions are suffixes of its input, and
    whose errors have such kinds. *)
Definition Tame {A : Type} (p : Parser A) : Prop :=
  forall i, match p i with
            | IOk r _ => is_suffix r i
            | IErr (Error e) | IErr (Failure e) => is_suffix e.(pe_input) i /\ kind_ok e
            | IErr Incomplete | IPanic => False
            end.

(* ------------------------------------------------------------------ *)
(** ** Comparison laws *)

(** A comparison function that is antisymmetric, substitutive for [Eq] and
    transitive for [Lt]: a total preorder. *)
Definition cmp_laws {A : Type} (cmp : A -> A -> comparison) : Prop :=
  (forall x y, cmp y x = CompOpp (cmp x y)) /\
  (forall x y z, cmp x y = Eq -> cmp x z = cmp y z) /\
  (forall x y z, cmp x y = Lt -> cmp y z = Lt -> cmp x z = Lt).

(** [Ordering::then]. *)
Definition cmp_then (c k : comparison) : comparison :=
  match c with Eq => k | _ => c end.

Definition pair_cmp {A B : Type} (ca : A -> A -> comparison) (cb : B -> B -> comparison)
    (x y : A * B) : comparison :=
  cmp_then (ca (fst x) (fst y)) (cb (snd x) (snd y)).

(** The last step of [Version::cmp]: the pre-release lists. *)
Definition pre_cmp (p q : list Identifier) : comparison :=
  match List.length p, List.length q with
  | O, O => Eq
  | O, _ => Gt
  | _, O => Lt
  | _, _ => ids_cmp p q
  end.

Definition version_key (v : Version) : N * (N * (N * (N * list Identifier))) :=
  (v.(major), (v.(minor), (v.(patch), (v.(revision), v.(pre_release))))).

Definition version_key_cmp :=
  pair_cmp N.compare (pair_cmp N.compare (pair_cmp N.compare (pair_cmp N.compare pre_cmp))).

(** [Option<Ordering>::is_le] and friends on a [comparison]. *)
Definition cmp_le (c : comparison) : bool := match c with Gt => false | _ => true end.
Definition cmp_lt (c : comparison) : bool := match c with Lt => true | _ => false end.

(** A set with its bounds on the right sides, and the test of
    [ComparatorSet::satisfies] on it. *)
Definition cs_wk (c : ComparatorSet) : bool := is_lower c.(lower) && is_upper c.(upper).
Definition cs_sat (c : ComparatorSet) (v : Version) : bool := bsat c.(lower) v && bsat c.(upper) v.

(** Derived [PartialEq] for [Range]. *)
Definition range_eq (a b : Range) : bool := lex_eq cs_eq a.(comparators) b.(comparators).

(** The position of a version. *)
Definition vpos (v : Version) : Position := At v EZero.
Arguments vpos : simpl never.

(* ------------------------------------------------------------------ *)
(** ** Hashing (lib.rs, [impl Hash])

    A [Hasher] sees the sequence of writes made by [hash]; the model is
    that sequence. [u64::hash] writes the integer, [str::hash] the string
    (with its terminator) and [<[T]>::hash] the length prefix, then each
    element. *)

Inductive HashWrite : Type :=
| WriteU64 (n : N)
| WriteLen (n : nat)
| WriteStr (s : str).

(** [impl Hash for Identifier]. *)
Definition ident_hash (i : Identifier) : list HashWrite :=
  match i with
  | Numeric x => [WriteU64 x]
  | AlphaNumeric x => [WriteStr (to_uppercase x)]
  end.

(** [Vec<Identifier>::hash]. *)
Definition ids_hash (ids : list Identifier) : list HashWrite :=
  WriteLen (List.length ids) :: flat_map ident_hash ids.

(** [impl Hash for Version]: [build] is not hashed. *)
Definition version_hash (v : Version) : list HashWrite :=
  [WriteU64 v.(major); WriteU64 v.(minor); WriteU64 v.(patch); WriteU64 v.(revision)] ++
  ids_hash v.(pre_release).

(* ------------------------------------------------------------------ *)
(** ** Containment and overlap tests (range.rs) *)

(** [ComparatorSet::allows_all]. *)
Definition cs_allows_all (s o : ComparatorSet) : bool :=
  bound_le s.(lower) o.(lower) && bound_le o.(upper) s.(upper).

(** [ComparatorSet::allows_any]. *)
Definition cs_allows_any (s o : ComparatorSet) : bool :=
  if bound_lt o.(upper) s.(lower) then false
  else if bound_lt s.(upper) o.(lower) then false
  else true.

(** [Range::allows_all]: true as soon as one set of [self] allows all of
    one set of [other]. *)
Definition range_allows_all (s o : Range) : bool :=
  existsb (fun this => existsb (fun that => cs_allows_all this that) o.(comparators))
    s.(comparators).

(** [Range::allows_any]. *)
Definition range_allows_any (s o : Range) : bool :=
  existsb (fun this => existsb (fun that => cs_allows_any this that) o.(comparators))
    s.(comparators).

(** [Range::any]. *)
Definition range_any : outcome Range :=
  let! c := unwrap (cs_new (Lower Unbounded) (Upper Unbounded)) in
  Returns (mkRange [c]).

(* ------------------------------------------------------------------ *)
(** ** Formatting ranges (range.rs, [Display]) *)

(** [impl Display for ComparatorSet]. *)
Definition cs_to_string (c : ComparatorSet) : outcome str :=
  match c.(lower), c.(upper) with
  | Lower Unbounded, Upper Unbounded => Returns (lit "*")
  | Lower Unbounded, Upper (Including v) =>
      Returns (lit "(," ++ version_to_string v ++ lit "]")
  | Lower Unbounded, Upper (Excluding v) =>
      Returns (lit "(," ++ version_to_string v ++ lit ")")
  | Lower (Including v), Upper Unbounded =>
      Returns (lit "[" ++ version_to_string v ++ lit ",)")
  | Lower (Excluding v), Upper Unbounded =>
      Returns (lit "(" ++ version_to_string v ++ lit ",)")
  | Lower (Including v), Upper (Including v2) =>
      if version_eq v v2 then Returns (lit "[" ++ version_to_string v ++ lit "]")
      else Returns (lit "[" ++ version_to_string v ++ lit "," ++
                    version_to_string v2 ++ lit "]")
  | Lower (Including v), Upper (Excluding v2) =>
      Returns (lit "[" ++ version_to_string v ++ lit "," ++ version_to_string v2 ++ lit ")")
  | Lower (Excluding v), Upper (Including v2) =>
      Returns (lit "(" ++ version_to_string v ++ lit "," ++ version_to_string v2 ++ lit "]")
  | Lower (Excluding v), Upper (Excluding v2) =>
      Returns (lit "(" ++ version_to_string v ++ lit "," ++ version_to_string v2 ++ lit ")")
  | _, _ => Panics
  end.

(** The [enumerate] loop of [impl Display for Range]: ["||"] before every
    set but the first. *)
Fixpoint cs_join (first : bool) (cs : list ComparatorSet) : outcome str :=
  match cs with
  | [] => Returns []
  | c :: cs' =>
      let! s := cs_to_string c in
      let! t := cs_join false cs' in
      Returns ((if first then [] else lit "||") ++ s ++ t)
  end.

Definition range_to_string (r : Range) : outcome str := cs_join true r.(comparators).

(* ------------------------------------------------------------------ *)
(** ** Error locations (lib.rs, [SemverError::location]) *)

(** The UTF-8 encoding of a code point: [str::as_bytes]. *)
Definition utf8_encode (c : uchar) : list N :=
  if c <? 128 then [c]
  else if c <? 2048 then [192 + c / 64; 128 + c mod 64]
  else if c <? 65536 then [224 + c / 4096; 128 + (c / 64) mod 64; 128 + c mod 64]
  else [240 + c / 262144; 128 + (c / 4096) mod 64; 128 + (c / 64) mod 64;
        128 + c mod 64].

Definition as_bytes (s : str) : list N := flat_map utf8_encode s.

(** [str::is_char_boundary]: a byte index at the start, at the end, or on
    a byte that is not a continuation byte ([b as i8 >= -0x40]). *)
Definition is_char_boundary (s : str) (index : N) : bool :=
  if index =? 0 then true
  else match nth_error (as_bytes s) (N.to_nat index) with
       | None => index =? N.of_nat (List.length (as_bytes s))
       | Some b => (b <? 128) || (192 <=? b)
       end.

(** [bytecount::count]. *)
Definition bytecount (l : list N) (b : N) : N := N.of_nat (count_occ N.eq_dec l b).

(** [Iterator::position]. *)
Fixpoint position_of (p : N -> bool) (l : list N) : option N :=
  match l with
  | [] => None
  | x :: l' => if p x then Some 0 else option_map N.succ (position_of p l')
  end.

(** [SemverError::location].  [&self.input.as_bytes()[..self.offset]]
    panics past the end; [&self.input[line_begin..]] and
    [&self.input[self.offset..]] panic off a character boundary.  The
    [line] found by [lines().next()] or [unwrap_or] and [trim_end()] starts
    where [&self.input[line_begin..]] starts, so the column is the pointer
    difference [offset - line_begin]. *)
Definition location (e : SemverError) : outcome (N * N) :=
  let bytes := as_bytes e.(err_input) in
  if N.of_nat (List.length bytes) <? e.(err_offset) then Panics
  else
    let prefix := firstn (N.to_nat e.(err_offset)) bytes in
    let line_number := bytecount prefix 10 in
    let line_begin :=
      match position_of (fun b => b =? 10) (rev prefix) with
      | Some pos => e.(err_offset) - pos
      | None => 0
      end in
    if negb (is_char_boundary e.(err_input) line_begin) then Panics
    else if negb (is_char_boundary e.(err_input) e.(err_offset)) then Panics
    else Returns (line_number, e.(err_offset) - line_begin).

(* ------------------------------------------------------------------ *)
(** ** Characters of the operators, bounded sets *)

(** The first characters of the operators of [operation]: ['<'], ['='], ['>']. *)
Definition op_char (c : uchar) : bool := (c =? 60) || (c =? 61) || (c =? 62).

Definition no_op (s : str) : bool := forallb (fun c => negb (op_char c)) s.

(** A set whose two bounds both carry a version. *)
Definition cs_bounded (c : ComparatorSet) : Prop :=
  predicate c.(lower) <> Unbounded /\ predicate c.(upper) <> Unbounded.

(** The identifiers of the version of a bound are those of the grammar. *)
Definition pred_ids_ok (p : Predicate) : Prop :=
  match p with
  | Including v | Excluding v => Forall wf_ident v.(pre_release) /\ Forall wf_ident v.(build)
  | Unbounded => True
  end.

Definition cs_ids_ok (c : ComparatorSet) : Prop :=
  pred_ids_ok (predicate c.(lower)) /\ pred_ids_ok (predicate c.(upper)).

(** A parser that never reports a recoverable error. *)
Definition NoError {A : Type} (p : Parser A) : Prop := forall i e, p i <> IErr (Error e).

Definition pv_ids_ok (p : PartialVersion) : Prop :=
  let '(_, _, _, _, pre_release, build) := p in
  Forall wf_ident pre_release /\ Forall wf_ident build.

(* ------------------------------------------------------------------ *)
(** ** Plain version inputs *)






(* ================================================================== *)
(** * Properties *)

(* ------------------------------------------------------------------ *)
(** ** Lexicographic comparison *)

Section LexFacts.
Variable A : Type.
Variable cmp : A -> A -> comparison.
Variable eqb : A -> A -> bool.
Hypothesis cmp_sym : forall x y, cmp y x = CompOpp (cmp x y).
Hypothesis cmp_eq_subst : forall x y z, cmp x y = Eq -> cmp x z = cmp y z.
Hypothesis cmp_lt_trans : forall x y z, cmp x y = Lt -> cmp y z = Lt -> cmp x z = Lt.

Lemma cmp_eq_subst_r : forall x y z, cmp y z = Eq -> cmp x y = cmp x z.
  Proof.
    intros x y z H.
    assert (Hzy : cmp z y = Eq) by (rewrite cmp_sym, H; reflexivity).
    rewrite (cmp_sym y x), (cmp_sym z x), (cmp_eq_subst _ _ x Hzy).
    destruct (cmp y x); reflexivity.
  Qed.

Lemma lex_sym : forall xs ys, lex_cmp cmp ys xs = CompOpp (lex_cmp cmp xs ys).
  Proof.
    induction xs as [|x xs IH]; destruct ys as [|y ys]; simpl; auto.
    rewrite (cmp_sym x y). destruct (cmp x y); simpl; auto.
  Qed.

Lemma lex_eq_subst : forall xs ys zs,
    lex_cmp cmp xs ys = Eq -> lex_cmp cmp xs zs = lex_cmp cmp ys zs.
  Proof.
    induction xs as [|x xs IH]; destruct ys as [|y ys]; destruct zs as [|z zs];
      simpl; try congruence.
    case_eq (cmp x y); intros Hxy H; try congruence.
    rewrite (cmp_eq_subst _ _ z Hxy).
    destruct (cmp y z); auto.
  Qed.

Lemma lex_lt_trans : forall xs ys zs,
    lex_cmp cmp xs ys = Lt -> lex_cmp cmp ys zs = Lt -> lex_cmp cmp xs zs = Lt.
  Proof.
    induction xs as [|x xs IH]; destruct ys as [|y ys]; destruct zs as [|z zs];
      simpl; try congruence.
    case_eq (cmp x y); intros Hxy; case_eq (cmp y z); intros Hyz; intros H1 H2;
      try congruence.
    - rewrite (cmp_eq_subst _ _ z Hxy), Hyz. eauto.
    - rewrite (cmp_eq_subst _ _ z Hxy), Hyz. reflexivity.
    - rewrite <- (cmp_eq_subst_r x _ _ Hyz), Hxy. reflexivity.
    - rewrite (cmp_lt_trans _ _ _ Hxy Hyz). reflexivity.
  Qed.

Lemma lex_laws : cmp_laws (lex_cmp cmp).
  Proof.
    split; [exact lex_sym | split; [exact lex_eq_subst | exact lex_lt_trans]].
  Qed.

Hypothesis cmp_eq : forall x y, cmp x y = Eq <-> eqb x y = true.

Lemma lex_eq_iff : forall xs ys, lex_cmp cmp xs ys = Eq <-> lex_eq eqb xs ys = true.
  Proof.
    induction xs as [|x xs IH]; destruct ys as [|y ys]; simpl;
      try (split; congruence).
    rewrite andb_true_iff, <- IH, <- cmp_eq.
    destruct (cmp x y); split; intuition congruence.
  Qed.
End LexFacts.

Lemma laws_refl {A : Type} (cmp : A -> A -> comparison) :
  cmp_laws cmp -> forall x, cmp x x = Eq.
Proof.
  intros [Hs _] x. specialize (Hs x x). destruct (cmp x x); simpl in Hs; congruence.
Qed.

Section PairFacts.
  Variables A B : Type.
Variable ca : A -> A -> comparison.
Variable cb : B -> B -> comparison.
Hypothesis Ha : cmp_laws ca.
Hypothesis Hb : cmp_laws cb.

Lemma pair_laws : cmp_laws (pair_cmp ca cb).
  Proof.
    destruct Ha as (Sa & Ea & Ta), Hb as (Sb & Eb & Tb).
    unfold pair_cmp, cmp_then. split; [|split].
    - intros [x1 x2] [y1 y2]; simpl.
      rewrite (Sa x1 y1), (Sb x2 y2). destruct (ca x1 y1); reflexivity.
    - intros [x1 x2] [y1 y2] [z1 z2]; simpl.
      case_eq (ca x1 y1); intros H1 H; try discriminate.
      rewrite (Ea _ _ z1 H1), (Eb _ _ z2 H). reflexivity.
    - intros [x1 x2] [y1 y2] [z1 z2]; simpl.
      case_eq (ca x1 y1); intros H1; case_eq (ca y1 z1); intros H2; intros H H';
        try discriminate.
      + rewrite (Ea _ _ z1 H1), H2. eauto.
      + rewrite (Ea _ _ z1 H1), H2. reflexivity.
      + rewrite <- (cmp_eq_subst_r _ _ Sa Ea x1 _ _ H2), H1. reflexivity.
      + rewrite (Ta _ _ _ H1 H2). reflexivity.
  Qed.
End PairFacts.

(* ------------------------------------------------------------------ *)
(** ** [Version::cmp] is a total preorder *)

Lemma N_laws : cmp_laws N.compare.
Proof.
  split; [|split].
  - intros x y. apply N.compare_antisym.
  - intros x y z H. apply N.compare_eq_iff in H. subst. reflexivity.
  - intros x y z H1 H2. rewrite N.compare_lt_iff in *. lia.
Qed.

Lemma str_laws : cmp_laws str_cmp.
Proof. apply lex_laws; apply N_laws. Qed.

Lemma N_eq_iff : forall x y, N.compare x y = Eq <-> N.eqb x y = true.
Proof. intros. rewrite N.compare_eq_iff, N.eqb_eq. tauto. Qed.

Lemma str_eq_iff : forall x y, str_cmp x y = Eq <-> str_eqb x y = true.
Proof.
  intros. apply (lex_eq_iff _ N.compare N.eqb); apply N_laws || apply N_eq_iff.
Qed.

Lemma ident_laws : cmp_laws ident_cmp.
Proof.
  destruct str_laws as (Ss & Es & Ts).
  destruct N_laws as (Sn & En & Tn).
  split; [|split].
  - intros [x|x] [y|y]; simpl; auto.
  - intros [x|x] [y|y] [z|z]; simpl; intros H; try discriminate; eauto.
  - intros [x|x] [y|y] [z|z]; simpl; intros H1 H2; try discriminate; eauto.
Qed.

Lemma ident_eq_iff : forall x y, ident_cmp x y = Eq <-> ident_eq x y = true.
Proof.
  intros [x|x] [y|y]; simpl; try (split; congruence).
  - apply N_eq_iff.
  - apply str_eq_iff.
Qed.

Lemma ids_laws : cmp_laws ids_cmp.
Proof. apply lex_laws; apply ident_laws. Qed.

Lemma ids_eq_iff : forall x y, ids_cmp x y = Eq <-> ids_eq x y = true.
Proof.
  intros. apply (lex_eq_iff _ ident_cmp ident_eq);
    apply ident_laws || apply ident_eq_iff.
Qed.

Lemma pre_laws : cmp_laws pre_cmp.
Proof.
  destruct ids_laws as (S & E & T).
  unfold pre_cmp. split; [|split].
  - intros [|x xs] [|y ys]; cbn -[ids_cmp]; auto.
  - intros [|x xs] [|y ys] [|z zs]; cbn -[ids_cmp]; intros H; try discriminate; auto.
  - intros [|x xs] [|y ys] [|z zs]; cbn -[ids_cmp]; intros H1 H2; try discriminate; eauto.
Qed.

Lemma version_cmp_key : forall a b,
  version_cmp a b = version_key_cmp (version_key a) (version_key b).
Proof.
  intros a b. unfold version_cmp, version_key_cmp, pair_cmp, cmp_then, version_key; simpl.
  destruct (N.compare (major a) (major b)); auto.
  destruct (N.compare (minor a) (minor b)); auto.
  destruct (N.compare (patch a) (patch b)); auto.
  destruct (N.compare (revision a) (revision b)); auto.
Qed.

Lemma version_key_laws : cmp_laws version_key_cmp.
Proof.
  unfold version_key_cmp.
  repeat apply pair_laws; apply N_laws || apply pre_laws.
Qed.

Lemma version_laws : cmp_laws version_cmp.
Proof.
  destruct version_key_laws as (S & E & T).
  split; [|split]; intros *; rewrite !version_cmp_key; eauto.
Qed.

Lemma vc_sym : forall x y, version_cmp y x = CompOpp (version_cmp x y).
Proof. apply version_laws. Qed.

Lemma vc_eq_l : forall x y z, version_cmp x y = Eq -> version_cmp x z = version_cmp y z.
Proof. apply version_laws. Qed.

Lemma vc_eq_r : forall x y z, version_cmp y z = Eq -> version_cmp x y = version_cmp x z.
Proof. intros. apply (cmp_eq_subst_r _ version_cmp); auto; apply version_laws. Qed.

Lemma vc_lt_trans : forall x y z,
  version_cmp x y = Lt -> version_cmp y z = Lt -> version_cmp x z = Lt.
Proof. apply version_laws. Qed.

Lemma vc_refl : forall x, version_cmp x x = Eq.
Proof. apply laws_refl, version_laws. Qed.

Lemma pre_eq_iff : forall p q, pre_cmp p q = Eq <-> ids_eq p q = true.
Proof.
  intros [|x xs] [|y ys]; unfold pre_cmp; cbn -[ids_cmp ids_eq];
    [split; reflexivity | | | apply ids_eq_iff]; unfold ids_eq; simpl; split; congruence.
Qed.

Lemma version_eq_iff : forall a b, version_cmp a b = Eq <-> version_eq a b = true.
Proof.
  intros a b. rewrite version_cmp_key.
  unfold version_key_cmp, pair_cmp, cmp_then, version_key, version_eq; simpl.
  rewrite !andb_true_iff, <- !N_eq_iff, <- pre_eq_iff.
  destruct (N.compare (major a) (major b)); try (split; [discriminate | tauto]).
  destruct (N.compare (minor a) (minor b)); try (split; [discriminate | tauto]).
  destruct (N.compare (patch a) (patch b)); try (split; [discriminate | tauto]).
  destruct (N.compare (revision a) (revision b)); try (split; [discriminate | tauto]).
  tauto.
Qed.

(** A decision procedure for goals about a few elements of a total
    preorder [cmp]: every [cmp x y] is split into its three values, and the
    impossible combinations are refuted by antisymmetry ([sym]),
    substitution of [Eq] ([eql]) and transitivity of [Lt] ([trans]). *)
Ltac cmp_norm cmp refl sym :=
  repeat match goal with
  | |- context [cmp ?x ?x] => rewrite (refl x)
  | H : context [cmp ?x ?x] |- _ => rewrite (refl x) in H
  | H : cmp ?x ?y = ?c, H' : cmp ?x ?y = ?d |- _ =>
      match H with H' => fail 1 | _ => idtac end;
      rewrite H in H'; first [discriminate H' | clear H']
  | H : cmp ?x ?y = ?c |- context [cmp ?x ?y] => rewrite H
  | H : cmp ?x ?y = ?c, H' : context [cmp ?x ?y] |- _ =>
      match type of H' with cmp x y = _ => fail 1 | _ => idtac end;
      rewrite H in H'
  | H : cmp ?x ?y = ?c |- context [cmp ?y ?x] =>
      rewrite (sym x y), H
  | H : cmp ?x ?y = ?c, H' : context [cmp ?y ?x] |- _ =>
      match type of H' with cmp y x = _ => fail 1 | _ => idtac end;
      rewrite (sym x y), H in H'
  end.

Ltac cmp_split cmp refl sym :=
  cmp_norm cmp refl sym; simpl in *;
  repeat (match goal with
          | |- context [cmp ?x ?y] =>
              let E := fresh "Hc" in destruct (cmp x y) eqn:E
          | H : context [cmp ?x ?y] |- _ =>
              match type of H with cmp x y = _ => fail 1 | _ => idtac end;
              let E := fresh "Hc" in destruct (cmp x y) eqn:E
          end; cmp_norm cmp refl sym; simpl in *).

Ltac cmp_syms cmp sym :=
  repeat match goal with
  | H : cmp ?x ?y = ?c |- _ =>
      lazymatch goal with
      | _ : cmp y x = _ |- _ => fail
      | _ => let E := fresh "Hc" in
             assert (E : cmp y x = CompOpp c) by (rewrite (sym x y), H; reflexivity);
             simpl in E
      end
  end.

Ltac cmp_contra cmp eql trans :=
  match goal with
  | H1 : cmp ?x ?y = Eq, H2 : cmp ?x ?z = ?c1, H3 : cmp ?y ?z = ?c2 |- _ =>
      rewrite (eql x y z H1) in H2; rewrite H2 in H3; discriminate H3
  | H1 : cmp ?x ?y = Lt, H2 : cmp ?y ?z = Lt, H3 : cmp ?x ?z = ?c |- _ =>
      rewrite (trans x y z H1 H2) in H3; discriminate H3
  end.

Ltac cmp_solve cmp refl sym eql trans :=
  cmp_split cmp refl sym;
  try discriminate; try reflexivity; try congruence;
  cmp_syms cmp sym; try (exfalso; cmp_contra cmp eql trans); try congruence.

Ltac vsolve :=
  unfold version_le, version_lt in *;
  cmp_solve version_cmp vc_refl vc_sym vc_eq_l vc_lt_trans.

(* ------------------------------------------------------------------ *)
(** ** The ordering of bounds *)

(** C1: [Bound::cmp] departs from the comparison of the positions
    [(version, epsilon)] of the specification on three pairs of bounds with
    the same version [v], and there it is not even a consistent order:
    (1) [Upper(Including(v))] against [Upper(Excluding(v))] gives [Less]
        both ways, where the positions [(v, 0) > (v, -epsilon)] give
        [Greater];
    (2) [Lower(Excluding(v))] against [Upper(Including(v))] gives [Less],
        the reverse call [Less] as well, where [(v, +epsilon) > (v, 0)];
    (3) [Upper(Excluding(v))] against [Lower(Excluding(v))] gives [Equal],
        the reverse call [Greater], where [(v, -epsilon) < (v, +epsilon)].
    On every other pair of bounds it agrees with the position order. *)
Theorem bound_cmp_slips :
  (forall v,
     (bound_cmp (Upper (Including v)) (Upper (Excluding v)) = Lt /\
      bound_cmp (Upper (Excluding v)) (Upper (Including v)) = Lt /\
      ref_bound_cmp (Upper (Including v)) (Upper (Excluding v)) = Gt) /\
     (bound_cmp (Lower (Excluding v)) (Upper (Including v)) = Lt /\
      bound_cmp (Upper (Including v)) (Lower (Excluding v)) = Lt /\
      ref_bound_cmp (Lower (Excluding v)) (Upper (Including v)) = Gt) /\
     (bound_cmp (Upper (Excluding v)) (Lower (Excluding v)) = Eq /\
      bound_cmp (Lower (Excluding v)) (Upper (Excluding v)) = Gt /\
      ref_bound_cmp (Upper (Excluding v)) (Lower (Excluding v)) = Lt)) /\
  (forall a b,
     bound_cmp a b = ref_bound_cmp a b \/
     exists v w, version_cmp v w = Eq /\
       ((a, b) = (Upper (Including v), Upper (Excluding w)) \/
        (a, b) = (Lower (Excluding v), Upper (Including w)) \/
        (a, b) = (Upper (Excluding v), Lower (Excluding w)))).
Proof.
  split.
  - intros v. unfold ref_bound_cmp, position_cmp. simpl.
    unfold version_lt, version_le. rewrite vc_refl. cbn. auto 10.
  - intros [[v|v|]|[v|v|]] [[w|w|]|[w|w|]]; unfold ref_bound_cmp; simpl;
      try (left; reflexivity);
      try solve [left; vsolve];
      (destruct (version_cmp v w) eqn:E;
       [right; exists v, w; auto 6 | left; vsolve | left; vsolve]).
Qed.

(* ------------------------------------------------------------------ *)
(** ** The ordering of versions *)

Lemma to_uppercase_idem : forall s, to_uppercase (to_uppercase s) = to_uppercase s.
Proof.
  intros s. unfold to_uppercase. rewrite map_map. apply map_ext. intros c.
  destruct ((97 <=? c) && (c <=? 122)) eqn:E.
  - apply andb_true_iff in E as [E1 E2]. apply N.leb_le in E1, E2.
    replace ((97 <=? c - 32) && (c - 32 <=? 122)) with false; [reflexivity|].
    symmetry. apply andb_false_iff. left. apply N.leb_gt. lia.
  - rewrite E. reflexivity.
Qed.

Lemma ids_prefix_lt : forall p q, q <> [] -> ids_cmp p (p ++ q) = Lt.
Proof.
  intros p q Hq. induction p as [|x p IH]; simpl.
  - destruct q; [congruence | reflexivity].
  - unfold ids_cmp in *. simpl. rewrite (laws_refl _ ident_laws). exact IH.
Qed.

(** C6: [Version::cmp] is a total order up to [==] (which ignores the build
    metadata): reflexive, antisymmetric, transitive and total.  It compares
    [major], [minor], [patch] and [revision] in that order; with these four
    equal, an empty pre-release list is greater than a non-empty one, two
    non-empty lists compare element-wise by [Identifier::cmp] (numeric
    identifiers below alphanumeric ones, alphanumeric ones without regard to
    ASCII case) and a strict prefix is lesser. *)
Theorem version_cmp_total_order :
  (forall a, version_cmp a a = Eq) /\
  (forall a b, version_le a b = true -> version_le b a = true -> version_eq a b = true) /\
  (forall a b c, version_le a b = true -> version_le b c = true -> version_le a c = true) /\
  (forall a b, version_le a b = true \/ version_le b a = true) /\
  (forall a b, version_cmp b a = CompOpp (version_cmp a b)) /\
  (forall a b,
     version_cmp a b =
     cmp_then (N.compare a.(major) b.(major))
       (cmp_then (N.compare a.(minor) b.(minor))
          (cmp_then (N.compare a.(patch) b.(patch))
             (cmp_then (N.compare a.(revision) b.(revision))
                (match a.(pre_release), b.(pre_release) with
                 | [], [] => Eq
                 | [], _ :: _ => Gt
                 | _ :: _, [] => Lt
                 | p, q => ids_cmp p q
                 end))))) /\
  (forall p q, p <> [] -> q <> [] -> ids_cmp p (p ++ q) = Lt) /\
  (forall x xs y ys,
     ids_cmp (x :: xs) (y :: ys) = cmp_then (ident_cmp x y) (ids_cmp xs ys)) /\
  (forall n s, ident_cmp (Numeric n) (AlphaNumeric s) = Lt /\
               ident_cmp (AlphaNumeric s) (Numeric n) = Gt) /\
  (forall s, ident_cmp (AlphaNumeric s) (AlphaNumeric (to_uppercase s)) = Eq).
Proof.
  split; [exact vc_refl|].
  split; [intros a b H1 H2; apply version_eq_iff; vsolve|].
  split; [intros a b c H1 H2; vsolve|].
  split; [intros a b; unfold version_le; rewrite (vc_sym a b);
         destruct (version_cmp a b); simpl; auto|].
  split; [exact vc_sym|].
  split.
  { intros a b. rewrite version_cmp_key.
    unfold version_key_cmp, pair_cmp, version_key, pre_cmp; simpl.
    destruct (pre_release a), (pre_release b); reflexivity. }
  split; [intros p q _ Hq; apply ids_prefix_lt; exact Hq|].
  split; [intros x xs y ys; unfold ids_cmp, cmp_then; simpl;
         destruct (ident_cmp x y); reflexivity|].
  split; [intros; split; reflexivity|].
  intros s. simpl. rewrite to_uppercase_idem.
  apply (laws_refl _ str_laws).
Qed.

(* ------------------------------------------------------------------ *)
(** ** The position order is a total preorder *)

Lemma eps_compare_sym : forall e f,
  N.compare (eps_rank f) (eps_rank e) = CompOpp (N.compare (eps_rank e) (eps_rank f)).
Proof. intros [| |] [| |]; reflexivity. Qed.

Lemma pos_sym : forall p q, position_cmp q p = CompOpp (position_cmp p q).
Proof.
  intros [|v e|] [|w f|]; simpl; auto.
  rewrite (vc_sym v w), eps_compare_sym. destruct (version_cmp v w); reflexivity.
Qed.

Lemma pos_eq_l : forall p q r,
  position_cmp p q = Eq -> position_cmp p r = position_cmp q r.
Proof.
  intros [|u e|] [|v f|] [|w g|]; simpl; try congruence.
  destruct e, f, g; simpl; vsolve.
Qed.

Lemma pos_lt_trans : forall p q r,
  position_cmp p q = Lt -> position_cmp q r = Lt -> position_cmp p r = Lt.
Proof.
  intros [|u e|] [|v f|] [|w g|]; simpl; try congruence.
  destruct e, f, g; simpl; vsolve.
Qed.

Lemma pos_refl : forall p, position_cmp p p = Eq.
Proof. intros [|v e|]; simpl; auto. rewrite vc_refl. destruct e; reflexivity. Qed.

Ltac psolve :=
  unfold ref_bound_cmp, cmp_le, cmp_lt in *;
  cmp_solve position_cmp pos_refl pos_sym pos_eq_l pos_lt_trans.

(* ------------------------------------------------------------------ *)
(** ** Bounds and positions *)

Lemma version_eq_cmp : forall a b,
  version_eq a b = match version_cmp a b with Eq => true | _ => false end.
Proof.
  intros a b. destruct (version_eq a b) eqn:E.
  - apply version_eq_iff in E. rewrite E. reflexivity.
  - destruct (version_cmp a b) eqn:C; auto.
    apply version_eq_iff in C. congruence.
Qed.

Ltac bound_cases b v :=
  destruct b as [[v|v|]|[v|v|]]; try discriminate.

Lemma bsat_lower : forall l v, is_lower l = true ->
  bsat l v = cmp_le (position_cmp (position l) (vpos v)).
Proof. intros l v H; bound_cases l w; unfold vpos; simpl; vsolve. Qed.

Lemma bsat_upper : forall u v, is_upper u = true ->
  bsat u v = cmp_le (position_cmp (vpos v) (position u)).
Proof. intros u v H; bound_cases u w; unfold vpos; simpl; vsolve. Qed.

Lemma lower_cmp : forall a b, is_lower a = true -> is_lower b = true ->
  bound_cmp a b = position_cmp (position a) (position b).
Proof. intros a b Ha Hb; bound_cases a v; bound_cases b w; simpl; vsolve. Qed.

Lemma upper_cmp_gt : forall a b, is_upper a = true -> is_upper b = true ->
  bound_cmp a b = Gt -> position_cmp (position a) (position b) = Gt.
Proof. intros a b Ha Hb; bound_cases a v; bound_cases b w; simpl; vsolve. Qed.

Lemma upper_cmp_lt : forall a b, is_upper a = true -> is_upper b = true ->
  position_cmp (position a) (position b) = Lt -> bound_cmp a b = Lt.
Proof. intros a b Ha Hb; bound_cases a v; bound_cases b w; simpl; vsolve. Qed.

Lemma cs_new_pos : forall lo up, is_lower lo = true -> is_upper up = true ->
  cs_new lo up =
  if cmp_le (position_cmp (position lo) (position up)) then Some (mkCS up lo) else None.
Proof.
  intros lo up Hl Hu; bound_cases lo v; bound_cases up w;
    unfold cs_new, bound_le; simpl; rewrite ?version_eq_cmp; vsolve.
Qed.

Lemma bound_eq_lower : forall a b, is_lower a = true -> is_lower b = true ->
  bound_eq a b = true <-> position_cmp (position a) (position b) = Eq.
Proof.
  intros a b Ha Hb; bound_cases a v; bound_cases b w; simpl;
    rewrite ?version_eq_cmp; split; vsolve.
Qed.

Lemma bound_eq_upper : forall a b, is_upper a = true -> is_upper b = true ->
  bound_eq a b = true <-> position_cmp (position a) (position b) = Eq.
Proof.
  intros a b Ha Hb; bound_cases a v; bound_cases b w; simpl;
    rewrite ?version_eq_cmp; split; vsolve.
Qed.

Lemma flip_lower_sat : forall l v, is_lower l = true -> predicate l <> Unbounded ->
  bsat (Upper (flip (predicate l))) v = negb (bsat l v).
Proof. intros l v Hl Hp; bound_cases l w; simpl in *; try congruence; vsolve. Qed.

Lemma flip_upper_sat : forall u v, is_upper u = true -> predicate u <> Unbounded ->
  bsat (Lower (flip (predicate u))) v = negb (bsat u v).
Proof. intros u v Hu Hp; bound_cases u w; simpl in *; try congruence; vsolve. Qed.

Lemma flip_lower_le : forall la lo, is_lower la = true -> is_lower lo = true ->
  predicate lo <> Unbounded ->
  position_cmp (position la) (position lo) = Lt ->
  cmp_le (position_cmp (position la) (position (Upper (flip (predicate lo))))) = true.
Proof.
  intros la lo Ha Ho Hp; bound_cases la v; bound_cases lo w; simpl in *;
    try congruence; vsolve.
Qed.

Lemma flip_upper_le : forall uo ua, is_upper uo = true -> is_upper ua = true ->
  predicate uo <> Unbounded ->
  position_cmp (position uo) (position ua) = Lt ->
  cmp_le (position_cmp (position (Lower (flip (predicate uo)))) (position ua)) = true.
Proof.
  intros uo ua Ho Ha Hp; bound_cases uo v; bound_cases ua w; simpl in *;
    try congruence; vsolve.
Qed.
Arguments position_cmp : simpl never.

(* ------------------------------------------------------------------ *)
(** ** Sets: satisfaction and intersection *)

Lemma cs_satisfies_wk : forall c v, cs_wk c = true ->
  cs_satisfies c v = Returns (cs_sat c v).
Proof.
  intros [u l] v H. unfold cs_wk, cs_sat in *; simpl in *.
  apply andb_true_iff in H as [Hl Hu].
  unfold cs_satisfies; simpl.
  bound_cases l x; bound_cases u y; reflexivity.
Qed.

Lemma cs_new_shape : forall lo up c, cs_new lo up = Some c -> c = mkCS up lo.
Proof.
  intros lo up c. unfold cs_new.
  destruct (bound_le lo up) eqn:E;
    destruct lo as [[v|v|]|[v|v|]]; destruct up as [[w|w|]|[w|w|]];
    try destruct (version_eq v w); intros H; inversion H; reflexivity.
Qed.

Lemma cs_new_wk : forall lo up c, cs_new lo up = Some c ->
  is_lower lo = true -> is_upper up = true -> cs_wk c = true.
Proof.
  intros lo up c H Hl Hu. apply cs_new_shape in H. subst. unfold cs_wk; simpl.
  rewrite Hl, Hu. reflexivity.
Qed.

Lemma cs_new_some : forall lo up v, is_lower lo = true -> is_upper up = true ->
  bsat lo v = true -> bsat up v = true -> cs_new lo up = Some (mkCS up lo).
Proof.
  intros lo up v Hl Hu H1 H2. rewrite cs_new_pos by assumption.
  rewrite bsat_lower in H1 by assumption. rewrite bsat_upper in H2 by assumption.
  psolve.
Qed.

Lemma cs_new_sat : forall lo up c v, cs_new lo up = Some c ->
  cs_sat c v = bsat lo v && bsat up v.
Proof.
  intros lo up c v H. apply cs_new_shape in H. subst. unfold cs_sat; simpl.
  reflexivity.
Qed.

Lemma bound_max_lower : forall a b, is_lower a = true -> is_lower b = true ->
  is_lower (bound_max a b) = true.
Proof. intros a b Ha Hb. unfold bound_max. destruct (bound_cmp a b); auto. Qed.

Lemma bound_min_upper : forall a b, is_upper a = true -> is_upper b = true ->
  is_upper (bound_min a b) = true.
Proof. intros a b Ha Hb. unfold bound_min. destruct (bound_cmp a b); auto. Qed.

Lemma bound_max_sat : forall a b v, is_lower a = true -> is_lower b = true ->
  bsat (bound_max a b) v = bsat a v && bsat b v.
Proof.
  intros a b v Ha Hb. unfold bound_max. rewrite lower_cmp by assumption.
  destruct (position_cmp (position a) (position b)) eqn:E;
    rewrite !bsat_lower by assumption; psolve.
Qed.

Lemma bound_max_pos : forall a b, is_lower a = true -> is_lower b = true ->
  cmp_le (position_cmp (position a) (position (bound_max a b))) = true.
Proof.
  intros a b Ha Hb. unfold bound_max. rewrite lower_cmp by assumption.
  destruct (position_cmp (position a) (position b)) eqn:E; psolve.
Qed.

Lemma bound_min_sat_both : forall a b v,
  bsat a v = true -> bsat b v = true -> bsat (bound_min a b) v = true.
Proof. intros a b v Ha Hb. unfold bound_min. destruct (bound_cmp a b); auto. Qed.

Lemma bound_min_pos : forall a b, is_upper a = true -> is_upper b = true ->
  cmp_le (position_cmp (position (bound_min a b)) (position a)) = true.
Proof.
  intros a b Ha Hb. unfold bound_min.
  destruct (bound_cmp a b) eqn:E; try (psolve; fail).
  apply upper_cmp_gt in E; auto. psolve.
Qed.

Lemma bound_min_sat_left : forall a b v, is_upper a = true -> is_upper b = true ->
  bsat (bound_min a b) v = true -> bsat a v = true.
Proof.
  intros a b v Ha Hb H. pose proof (bound_min_pos a b Ha Hb) as P.
  rewrite bsat_upper in * by (auto using bound_min_upper). psolve.
Qed.

Lemma cs_intersect_wk : forall a b o, cs_wk a = true -> cs_wk b = true ->
  cs_intersect a b = Some o -> cs_wk o = true.
Proof.
  intros a b o Ha Hb H. unfold cs_wk in *.
  apply andb_true_iff in Ha as [Ha1 Ha2]. apply andb_true_iff in Hb as [Hb1 Hb2].
  eapply cs_new_wk; [exact H | apply bound_max_lower | apply bound_min_upper]; auto.
Qed.

Lemma cs_intersect_both : forall a b v, cs_wk a = true -> cs_wk b = true ->
  cs_sat a v = true -> cs_sat b v = true ->
  exists o, cs_intersect a b = Some o /\ cs_sat o v = true.
Proof.
  intros a b v Ha Hb H1 H2. unfold cs_wk, cs_sat, cs_intersect in *.
  apply andb_true_iff in Ha as [Ha1 Ha2]. apply andb_true_iff in Hb as [Hb1 Hb2].
  apply andb_true_iff in H1 as [H1l H1u]. apply andb_true_iff in H2 as [H2l H2u].
  assert (Hl : bsat (bound_max (lower a) (lower b)) v = true)
    by (rewrite bound_max_sat, H1l, H2l; auto).
  assert (Hu : bsat (bound_min (upper a) (upper b)) v = true)
    by (apply bound_min_sat_both; auto).
  eexists; split.
  - eapply cs_new_some; eauto using bound_max_lower, bound_min_upper.
  - simpl. rewrite Hl, Hu. reflexivity.
Qed.

Lemma cs_intersect_left : forall a b o v, cs_wk a = true -> cs_wk b = true ->
  cs_intersect a b = Some o -> cs_sat o v = true -> cs_sat a v = true.
Proof.
  intros a b o v Ha Hb H Ho. unfold cs_wk, cs_intersect in *.
  apply andb_true_iff in Ha as [Ha1 Ha2]. apply andb_true_iff in Hb as [Hb1 Hb2].
  rewrite (cs_new_sat _ _ _ _ H) in Ho. apply andb_true_iff in Ho as [Hl Hu].
  rewrite bound_max_sat in Hl by auto. apply andb_true_iff in Hl as [Hl _].
  apply bound_min_sat_left in Hu; auto.
  unfold cs_sat. rewrite Hl, Hu. reflexivity.
Qed.

(* ------------------------------------------------------------------ *)
(** ** Sets: difference *)

Lemma lower_mono : forall a b v, is_lower a = true -> is_lower b = true ->
  cmp_le (position_cmp (position a) (position b)) = true ->
  bsat b v = true -> bsat a v = true.
Proof. intros a b v Ha Hb P H. rewrite bsat_lower in * by assumption. psolve. Qed.

Lemma upper_mono : forall a b v, is_upper a = true -> is_upper b = true ->
  cmp_le (position_cmp (position a) (position b)) = true ->
  bsat a v = true -> bsat b v = true.
Proof. intros a b v Ha Hb P H. rewrite bsat_upper in * by assumption. psolve. Qed.

Lemma lower_upper_cover : forall l u v, is_lower l = true -> is_upper u = true ->
  cmp_le (position_cmp (position l) (position u)) = true ->
  bsat l v || bsat u v = true.
Proof. intros l u v Hl Hu P. rewrite bsat_lower, bsat_upper by assumption. psolve. Qed.

Lemma lower_lt_bounded : forall p b, is_lower b = true ->
  position_cmp p (position b) = Lt -> predicate b <> Unbounded.
Proof.
  intros p b Hb H. bound_cases b w; simpl; try discriminate.
  unfold position_cmp in H; destruct p; discriminate.
Qed.

Lemma upper_lt_bounded : forall p b, is_upper b = true ->
  position_cmp (position b) p = Lt -> predicate b <> Unbounded.
Proof.
  intros p b Hb H. bound_cases b w; simpl; try discriminate.
  unfold position_cmp in H; destruct p; discriminate.
Qed.

Lemma upper_cmp_eq : forall a b, is_upper a = true -> is_upper b = true ->
  bound_cmp a b = Eq <-> position_cmp (position a) (position b) = Eq.
Proof.
  intros a b Ha Hb; bound_cases a v; bound_cases b w; unfold position_cmp; simpl;
    split; vsolve.
Qed.

Ltac bool_close :=
  try reflexivity; exfalso; intuition (discriminate || auto).

Lemma cs_difference_spec : forall a b, cs_wk a = true -> cs_wk b = true ->
  exists d, cs_difference a b = Returns d /\
    Forall (fun c => cs_wk c = true) (match d with Some l => l | None => [] end) /\
    forall v, cs_sat a v =
      existsb (fun c => cs_sat c v) (match d with Some l => l | None => [] end) ||
      match cs_intersect a b with Some o => cs_sat o v | None => false end.
Proof.
  intros [ua la] [ub lb] Ha Hb. unfold cs_wk in *; simpl in *.
  apply andb_true_iff in Ha as [Ha1 Ha2]. apply andb_true_iff in Hb as [Hb1 Hb2].
  unfold cs_difference.
  destruct (cs_intersect (mkCS ua la) (mkCS ub lb)) as [o|] eqn:Ho.
  2:{ eexists; split; [reflexivity|]. split.
      - constructor; [unfold cs_wk; simpl; rewrite Ha1, Ha2; reflexivity | constructor].
      - intros v. simpl. rewrite !orb_false_r. reflexivity. }
  unfold cs_intersect in Ho; simpl in Ho.
  pose proof (bound_max_lower la lb Ha1 Hb1) as Hlo.
  pose proof (bound_min_upper ua ub Ha2 Hb2) as Huo.
  pose proof (bound_max_pos la lb Ha1 Hb1) as Pl.
  pose proof (bound_min_pos ua ub Ha2 Hb2) as Pu.
  set (lo := bound_max la lb) in *. set (uo := bound_min ua ub) in *.
  rewrite cs_new_pos in Ho by assumption.
  destruct (cmp_le (position_cmp (position lo) (position uo))) eqn:Pm; [|discriminate].
  injection Ho as <-.
  assert (S1 : forall v, bsat lo v = true -> bsat la v = true)
    by (intros v; apply lower_mono; assumption).
  assert (S2 : forall v, bsat uo v = true -> bsat ua v = true)
    by (intros v; apply upper_mono; assumption).
  assert (S3 : forall v, bsat lo v || bsat uo v = true)
    by (intros v; apply lower_upper_cover; assumption).
  unfold cs_eq, cs_sat; cbn [lower upper].
  destruct (bound_eq uo ua && bound_eq lo la) eqn:E.
  - apply andb_true_iff in E as [E1 E2].
    apply bound_eq_upper in E1; auto. apply bound_eq_lower in E2; auto.
    assert (T1 : forall v, bsat la v = true -> bsat lo v = true)
      by (intros v; apply lower_mono; auto; psolve).
    assert (T2 : forall v, bsat ua v = true -> bsat uo v = true)
      by (intros v; apply upper_mono; auto; psolve).
    exists None; split; [reflexivity|]. split; [constructor|].
    intros v. simpl. specialize (S1 v); specialize (S2 v); specialize (S3 v);
      specialize (T1 v); specialize (T2 v).
    destruct (bsat la v), (bsat lo v), (bsat uo v), (bsat ua v); simpl in *; bool_close.
  - rewrite !cs_new_pos by (simpl; auto).
    unfold bound_lt. rewrite (lower_cmp la lo) by assumption.
    destruct (position_cmp (position la) (position lo)) eqn:L1;
      destruct (bound_cmp uo ua) eqn:L2; try (exfalso; psolve; fail);
      try (apply upper_cmp_gt in L2; auto; exfalso; psolve; fail).
    + (* both bounds kept: [overlap == self] *)
      exfalso. apply upper_cmp_eq in L2; auto.
      pose proof ((proj2 (bound_eq_upper _ _ Huo Ha2)) L2) as F1.
      pose proof ((proj2 (bound_eq_lower _ _ Hlo Ha1)) ltac:(psolve)) as F2.
      rewrite F1, F2 in E. discriminate.
    + (* same lower bound: the part above the overlap *)
      assert (L2' : position_cmp (position uo) (position ua) = Lt).
      { destruct (position_cmp (position uo) (position ua)) eqn:X;
          [apply upper_cmp_eq in X; auto; congruence | reflexivity | exfalso; psolve]. }
      pose proof (upper_lt_bounded _ _ Huo L2') as Np.
      rewrite (flip_upper_le uo ua Huo Ha2 Np L2'). cbn -[position_cmp].
      eexists; split; [reflexivity|]. split; [repeat constructor; cbn [lower upper is_lower is_upper];
        rewrite ?Ha1, ?Ha2; reflexivity|].
      assert (T1 : forall v, bsat la v = true -> bsat lo v = true)
        by (intros v; apply lower_mono; auto; psolve).
      intros v. cbn [existsb lower upper]. rewrite flip_upper_sat by auto.
      specialize (S1 v); specialize (S2 v); specialize (S3 v); specialize (T1 v).
      destruct (bsat la v), (bsat lo v), (bsat uo v), (bsat ua v); simpl in *; bool_close.
    + (* same upper bound: the part below the overlap *)
      apply upper_cmp_eq in L2; auto.
      pose proof (lower_lt_bounded _ _ Hlo L1) as Np.
      rewrite (flip_lower_le la lo Ha1 Hlo Np L1). cbn -[position_cmp].
      eexists; split; [reflexivity|]. split; [repeat constructor; cbn [lower upper is_lower is_upper];
        rewrite ?Ha1, ?Ha2; reflexivity|].
      assert (T2 : forall v, bsat ua v = true -> bsat uo v = true)
        by (intros v; apply upper_mono; auto; psolve).
      intros v. cbn [existsb lower upper]. rewrite flip_lower_sat by auto.
      specialize (S1 v); specialize (S2 v); specialize (S3 v); specialize (T2 v).
      destruct (bsat la v), (bsat lo v), (bsat uo v), (bsat ua v); simpl in *; bool_close.
    + (* the overlap is strictly inside: two parts *)
      assert (L2' : position_cmp (position uo) (position ua) = Lt).
      { destruct (position_cmp (position uo) (position ua)) eqn:X;
          [apply upper_cmp_eq in X; auto; congruence | reflexivity | exfalso; psolve]. }
      pose proof (lower_lt_bounded _ _ Hlo L1) as Np1.
      pose proof (upper_lt_bounded _ _ Huo L2') as Np2.
      rewrite (flip_lower_le la lo Ha1 Hlo Np1 L1), (flip_upper_le uo ua Huo Ha2 Np2 L2').
      cbn -[position_cmp].
      eexists; split; [reflexivity|]. split; [repeat constructor; cbn [lower upper is_lower is_upper];
        rewrite ?Ha1, ?Ha2; reflexivity|].
      intros v. cbn [existsb lower upper]. rewrite flip_lower_sat, flip_upper_sat by auto.
      specialize (S1 v); specialize (S2 v); specialize (S3 v).
      destruct (bsat la v), (bsat lo v), (bsat uo v), (bsat ua v); simpl in *; bool_close.
Qed.

(* ------------------------------------------------------------------ *)
(** ** Ranges: satisfaction, intersection and difference *)

Lemma cs_valid_wk : forall c, cs_valid c -> cs_wk c = true.
Proof. intros c [H1 [H2 _]]. unfold cs_wk. rewrite H1, H2. reflexivity. Qed.

Lemma range_valid_wk : forall r, range_valid r ->
  Forall (fun c => cs_wk c = true) r.(comparators).
Proof. intros r [_ H]. eapply Forall_impl; [|exact H]. apply cs_valid_wk. Qed.

Lemma satisfies_loop_wk : forall cs v, Forall (fun c => cs_wk c = true) cs ->
  satisfies_loop cs v = Returns (existsb (fun c => cs_sat c v) cs).
Proof.
  induction cs as [|c cs IH]; intros v H; [reflexivity|].
  inversion H; subst. simpl. rewrite cs_satisfies_wk by assumption. simpl.
  destruct (cs_sat c v); [reflexivity|]. apply IH; assumption.
Qed.

Lemma in_range_iff : forall r v, Forall (fun c => cs_wk c = true) r.(comparators) ->
  in_range r v <-> exists c, In c r.(comparators) /\ cs_sat c v = true.
Proof.
  intros r v H. unfold in_range, range_satisfies. rewrite satisfies_loop_wk by assumption.
  rewrite <- existsb_exists. split; [intros E; injection E; auto | intros E; rewrite E; reflexivity].
Qed.

Lemma range_intersect_some : forall A B R, range_intersect A B = Some R ->
  forall o, In o R.(comparators) <->
    exists a b, In a A.(comparators) /\ In b B.(comparators) /\ cs_intersect a b = Some o.
Proof.
  intros A B R H o. unfold range_intersect in H.
  match type of H with context [match ?l with [] => _ | _ => _ end] =>
    destruct l as [|x xs] eqn:E; [discriminate|] end.
  injection H as <-. simpl comparators. rewrite <- E.
  rewrite in_flat_map. split.
  - intros [a [Ha Hb]]. rewrite in_flat_map in Hb. destruct Hb as [b [Hb Ho]].
    exists a, b. repeat split; auto.
    destruct (cs_intersect a b); simpl in Ho; [destruct Ho as [->|[]]; reflexivity | destruct Ho].
  - intros [a [b [Ha [Hb Ho]]]]. exists a. split; auto.
    rewrite in_flat_map. exists b. rewrite Ho. simpl. auto.
Qed.

Lemma range_intersect_none : forall A B, range_intersect A B = None ->
  forall a b, In a A.(comparators) -> In b B.(comparators) -> cs_intersect a b = None.
Proof.
  intros A B H a b Ha Hb. unfold range_intersect in H.
  match type of H with context [match ?l with [] => _ | _ => _ end] =>
    destruct l as [|x xs] eqn:E; [|discriminate] end.
  destruct (cs_intersect a b) as [o|] eqn:Ho; [|reflexivity].
  assert (In o []) as []. rewrite <- E, in_flat_map. exists a. split; auto.
  rewrite in_flat_map. exists b. rewrite Ho. simpl. auto.
Qed.

Lemma cs_intersect_valid : forall a b o, cs_wk a = true -> cs_wk b = true ->
  cs_intersect a b = Some o -> cs_valid o.
Proof.
  intros a b o Ha Hb H. pose proof (cs_intersect_wk a b o Ha Hb H) as Hw.
  unfold cs_intersect in H. pose proof (cs_new_shape _ _ _ H) as ->.
  unfold cs_wk in Hw. simpl in Hw. apply andb_true_iff in Hw as [H1 H2].
  repeat split; assumption.
Qed.

Lemma range_intersect_wk : forall A B R, range_valid A -> range_valid B ->
  range_intersect A B = Some R -> Forall (fun c => cs_wk c = true) R.(comparators).
Proof.
  intros A B R HA HB H. apply Forall_forall. intros o Ho.
  apply (range_intersect_some _ _ _ H) in Ho. destruct Ho as [a [b [Ha [Hb Ho]]]].
  apply range_valid_wk in HA, HB. rewrite Forall_forall in HA, HB.
  apply (cs_intersect_wk a b o); auto.
Qed.

Lemma flat_map_out_returns : forall {A B : Type} (f : A -> outcome (list B)) g l,
  (forall x, In x l -> f x = Returns (g x)) -> flat_map_out f l = Returns (flat_map g l).
Proof.
  intros A B f g l. induction l as [|x l IH]; intros H; [reflexivity|].
  simpl. rewrite H by (left; reflexivity). simpl.
  rewrite IH by (intros y Hy; apply H; right; exact Hy). reflexivity.
Qed.

(* ------------------------------------------------------------------ *)
(** ** C2: intersection *)

(** C2: [Range::intersect] can keep a version that only one of its
    arguments satisfies. With [A = "[1.0.0,2.0.0]"] and
    [B = "[1.0.0,2.0.0)"], [Bound::cmp] puts [Upper(Including(2.0.0))]
    below [Upper(Excluding(2.0.0))], so [min] keeps A's upper bound:
    [A.intersect(B)] is satisfied by 2.0.0, which [B] does not satisfy,
    while [B.intersect(A)] is not, so the two intersections also differ in
    the versions they accept. *)
Theorem range_intersect_slip :
  match range_parse (lit "[1.0.0,2.0.0]"), range_parse (lit "[1.0.0,2.0.0)") with
  | Returns (Ok A), Returns (Ok B) =>
      let v := mkVersion 2 0 0 0 [] [] in
      range_satisfies A v = Returns true /\
      range_satisfies B v = Returns false /\
      match range_intersect A B, range_intersect B A with
      | Some AB, Some BA =>
          range_satisfies AB v = Returns true /\ range_satisfies BA v = Returns false
      | _, _ => False
      end
  | _, _ => False
  end.
Proof. vm_compute. auto. Qed.

(** For valid ranges [A] and [B] (the ones [Range::parse] builds),
 (the ones [Range::parse] builds),
    (1) a version satisfying both lies in a non-empty [A.intersect(B)],
    (2) a version satisfying [A.intersect(B)] satisfies [A],
    (3) the intersection is again a valid range;
    and at the level of one set, (4) [intersect] is [new] applied to the
    [max] of the lower bounds and the [min] of the upper bounds, and
    (5) [new] yields a set exactly when the lower bound is at or below the
    upper bound in the position order. *)
Theorem range_intersect_spec :
  (forall A B v, range_valid A -> range_valid B -> in_range A v -> in_range B v ->
     exists R, range_intersect A B = Some R /\ in_range R v) /\
  (forall A B R v, range_valid A -> range_valid B -> range_intersect A B = Some R ->
     in_range R v -> in_range A v) /\
  (forall A B R, range_valid A -> range_valid B -> range_intersect A B = Some R ->
     range_valid R) /\
  (forall a b, cs_intersect a b =
     cs_new (bound_max a.(lower) b.(lower)) (bound_min a.(upper) b.(upper))) /\
  (forall lo up, is_lower lo = true -> is_upper up = true ->
     (cs_new lo up <> None <-> cmp_le (ref_bound_cmp lo up) = true)).
Proof.
  split; [|split; [|split; [|split]]].
  - intros A B v HA HB H1 H2.
    pose proof (range_valid_wk A HA) as WA. pose proof (range_valid_wk B HB) as WB.
    apply in_range_iff in H1, H2; auto.
    destruct H1 as [a [Ha Sa]]. destruct H2 as [b [Hb Sb]].
    rewrite Forall_forall in WA, WB.
    destruct (cs_intersect_both a b v (WA a Ha) (WB b Hb) Sa Sb) as [o [Ho So]].
    destruct (range_intersect A B) as [R|] eqn:HR.
    + exists R. split; [reflexivity|].
      apply in_range_iff; [exact (range_intersect_wk A B R HA HB HR)|].
      exists o. split; auto. apply (range_intersect_some _ _ _ HR). eauto 6.
    + rewrite (range_intersect_none A B HR a b Ha Hb) in Ho. discriminate.
  - intros A B R v HA HB HR H.
    pose proof (range_valid_wk A HA) as WA. pose proof (range_valid_wk B HB) as WB.
    apply in_range_iff in H; [|exact (range_intersect_wk A B R HA HB HR)].
    destruct H as [o [Ho So]].
    apply (range_intersect_some _ _ _ HR) in Ho. destruct Ho as [a [b [Ha [Hb Ho]]]].
    rewrite Forall_forall in WA, WB.
    apply (proj2 (in_range_iff A v (range_valid_wk A HA))). exists a. split; auto.
    apply (cs_intersect_left a b o v); auto.
  - intros A B R HA HB HR. split.
    + unfold range_intersect in HR.
      match type of HR with context [match ?l with [] => _ | _ => _ end] =>
        destruct l as [|x xs]; [discriminate|] end.
      injection HR as <-. simpl. discriminate.
    + apply Forall_forall. intros o Ho.
      apply (range_intersect_some _ _ _ HR) in Ho. destruct Ho as [a [b [Ha [Hb Ho]]]].
      pose proof (range_valid_wk A HA) as WA. pose proof (range_valid_wk B HB) as WB.
      rewrite Forall_forall in WA, WB.
      apply (cs_intersect_valid a b); auto.
  - reflexivity.
  - intros lo up Hl Hu. rewrite cs_new_pos by assumption. unfold ref_bound_cmp.
    destruct (cmp_le (position_cmp (position lo) (position up))); split;
      congruence.
Qed.

Lemma bound_eq_refl : forall b, bound_eq b b = true.
Proof.
  assert (R : forall v, version_eq v v = true) by (intros v; apply version_eq_iff, vc_refl).
  intros [[v|v|]|[v|v|]]; simpl; auto.
Qed.

Lemma range_intersect_iff : forall A B v, range_valid A -> range_valid B ->
  (exists R, range_intersect A B = Some R /\ in_range R v) <->
  exists a b o, In a A.(comparators) /\ In b B.(comparators) /\
    cs_intersect a b = Some o /\ cs_sat o v = true.
Proof.
  intros A B v HA HB. split.
  - intros [R [HR H]].
    apply (in_range_iff R v (range_intersect_wk A B R HA HB HR)) in H.
    destruct H as [o [Ho So]].
    apply (range_intersect_some _ _ _ HR) in Ho. destruct Ho as [a [b [Ha [Hb Ho]]]].
    exists a, b, o. auto.
  - intros [a [b [o [Ha [Hb [Ho So]]]]]].
    destruct (range_intersect A B) as [R|] eqn:HR.
    + exists R. split; [reflexivity|].
      apply (in_range_iff R v (range_intersect_wk A B R HA HB HR)).
      exists o. split; auto. apply (range_intersect_some _ _ _ HR). eauto 6.
    + rewrite (range_intersect_none A B HR a b Ha Hb) in Ho. discriminate.
Qed.

Lemma opt_range_iff : forall L v, Forall (fun c => cs_wk c = true) L ->
  (exists D, match L with [] => None | _ => Some (mkRange L) end = Some D /\ in_range D v)
  <-> exists c, In c L /\ cs_sat c v = true.
Proof.
  intros L v H. destruct L as [|c L].
  - split; [intros [D [E _]]; discriminate | intros [c [[] _]]].
  - split.
    + intros [D [E HD]]. injection E as <-. apply in_range_iff in HD; auto.
    + intros Hc. exists (mkRange (c :: L)). split; [reflexivity|].
      apply in_range_iff; auto.
Qed.

(* ------------------------------------------------------------------ *)
(** ** C3: difference *)

(** C3 (counterexample): for [A = "=1.0.0 || =2.0.0"], [A.difference(A)]
    is not empty: the set [=1.0.0] minus the set [=2.0.0] is kept. *)
Lemma range_difference_self_nonempty :
  match range_parse (lit "=1.0.0 || =2.0.0") with
  | Returns (Ok A) =>
      match range_difference A A with
      | Returns (Some D) => range_satisfies D (mkVersion 1 0 0 0 [] []) = Returns true
      | _ => False
      end
  | _ => False
  end.
Proof. vm_compute. reflexivity. Qed.

(** C3: the difference of a one-set range with itself is empty; and for
    valid ranges [A] and [B], [A.difference(B)] does not panic, and a
    version satisfies [A] exactly when it satisfies [A.difference(B)] or
    [A.intersect(B)]. *)
Theorem range_difference_spec :
  (forall c, cs_valid c -> range_difference (mkRange [c]) (mkRange [c]) = Returns None) /\
  (forall A B, range_valid A -> range_valid B ->
     exists d, range_difference A B = Returns d /\
       forall v, in_range A v <->
         (exists D, d = Some D /\ in_range D v) \/
         (exists R, range_intersect A B = Some R /\ in_range R v)).
Proof.
  split.
  - intros [u l] [Hl [Hu Hc]]. simpl in Hl, Hu, Hc.
    unfold range_difference, cs_difference, cs_intersect. simpl comparators.
    cbn [flat_map_out lower upper].
    unfold bound_max, bound_min.
    destruct (bound_cmp l l), (bound_cmp u u); rewrite Hc; unfold cs_eq;
      cbn [lower upper]; rewrite !bound_eq_refl; reflexivity.
  - intros A B HA HB.
    pose proof (range_valid_wk A HA) as WA. pose proof (range_valid_wk B HB) as WB.
    rewrite Forall_forall in WA, WB.
    pose (dl := fun a b => match cs_difference a b with
                           | Returns d => match d with Some l => l | None => [] end
                           | Panics => [] end).
    assert (Spec : forall a b, In a A.(comparators) -> In b B.(comparators) ->
      Forall (fun c => cs_wk c = true) (dl a b) /\
      forall v, cs_sat a v = existsb (fun c => cs_sat c v) (dl a b) ||
        match cs_intersect a b with Some o => cs_sat o v | None => false end).
    { intros a b Ha Hb. destruct (cs_difference_spec a b (WA a Ha) (WB b Hb))
        as [d [Hd [Hw Hs]]].
      unfold dl. rewrite Hd. auto. }
    unfold range_difference.
    rewrite (flat_map_out_returns _ (fun a => flat_map (dl a) B.(comparators))).
    2:{ intros a Ha. apply flat_map_out_returns. intros b Hb.
        destruct (cs_difference_spec a b (WA a Ha) (WB b Hb)) as [d [Hd _]].
        unfold dl. rewrite Hd. reflexivity. }
    eexists; split; [reflexivity|]. intros v.
    set (L := flat_map (fun a => flat_map (dl a) B.(comparators)) A.(comparators)).
    assert (LIn : forall c, In c L <->
      exists a b, In a A.(comparators) /\ In b B.(comparators) /\ In c (dl a b)).
    { intros c. unfold L. rewrite in_flat_map. split.
      - intros [a [Ha Hc]]. rewrite in_flat_map in Hc. destruct Hc as [b [Hb Hc]]. eauto.
      - intros [a [b [Ha [Hb Hc]]]]. exists a. split; auto.
        rewrite in_flat_map. eauto. }
    assert (LW : Forall (fun c => cs_wk c = true) L).
    { apply Forall_forall. intros c Hc. apply LIn in Hc.
      destruct Hc as [a [b [Ha [Hb Hc]]]].
      destruct (Spec a b Ha Hb) as [Hw _]. rewrite Forall_forall in Hw. auto. }
    rewrite opt_range_iff by exact LW. rewrite range_intersect_iff by assumption.
    rewrite in_range_iff by (apply Forall_forall; exact WA).
    split.
    + intros [a [Ha Sa]].
      destruct HB as [HBne _].
      destruct (B.(comparators)) as [|b0 bs] eqn:EB; [congruence|].
      assert (Hb0 : In b0 (b0 :: bs)) by (left; reflexivity).
      destruct (Spec a b0 Ha Hb0) as [_ Hs]. rewrite Hs in Sa.
      apply orb_true_iff in Sa as [Sa|Sa].
      * left. apply existsb_exists in Sa. destruct Sa as [c [Hc Sc]].
        exists c. split; auto. apply LIn. eauto.
      * right. destruct (cs_intersect a b0) as [o|] eqn:Ho; [|discriminate].
        exists a, b0, o. auto.
    + intros [[c [Hc Sc]]|[a [b [o [Ha [Hb [Ho So]]]]]]].
      * apply LIn in Hc. destruct Hc as [a [b [Ha [Hb Hc]]]].
        exists a. split; auto.
        destruct (Spec a b Ha Hb) as [_ Hs]. rewrite Hs.
        apply orb_true_iff. left. apply existsb_exists. eauto.
      * exists a. split; auto. apply (cs_intersect_left a b o v); auto.
Qed.

(* ------------------------------------------------------------------ *)
(** ** C10: satisfaction is the position order alone *)

(** C10: on every set with a lower and an upper bound,
    [ComparatorSet::satisfies] is the test that the position [(v, 0)] lies
    between the positions of the bounds, whatever the pre-release of [v];
    [Range::satisfies] is the same test on some set; and
    [Range::parse("[1.0.0,2.0.0]")] is satisfied by [1.5.0-beta]. *)
Theorem satisfies_by_position :
  (forall c v, cs_wk c = true -> cs_satisfies c v = Returns (ref_inside c v)) /\
  (forall r v, Forall (fun c => cs_wk c = true) r.(comparators) ->
     range_satisfies r v = Returns (existsb (fun c => ref_inside c v) r.(comparators))) /\
  match range_parse (lit "[1.0.0,2.0.0]"), version_parse (lit "1.5.0-beta") with
  | Returns (Ok r), Returns (Ok v) =>
      v.(pre_release) <> [] /\ range_satisfies r v = Returns true
  | _, _ => False
  end.
Proof.
  assert (E : forall c v, cs_wk c = true -> cs_sat c v = ref_inside c v).
  { intros [u l] v H. unfold cs_wk, cs_sat, ref_inside in *. cbn [lower upper] in *.
    apply andb_true_iff in H as [Hl Hu].
    rewrite bsat_lower, bsat_upper by assumption. unfold vpos.
    destruct (position_cmp (position l) (At v EZero)),
             (position_cmp (At v EZero) (position u)); reflexivity. }
  split; [|split].
  - intros c v H. rewrite cs_satisfies_wk by assumption. rewrite E by assumption.
    reflexivity.
  - intros r v H. unfold range_satisfies. rewrite satisfies_loop_wk by assumption.
    f_equal. destruct r as [cs]. cbn [comparators] in *.
    induction H as [|c cs Hc _ IH]; [reflexivity|]. simpl. rewrite E, IH by assumption.
    reflexivity.
  - vm_compute. split; [discriminate | reflexivity].
Qed.

(* ------------------------------------------------------------------ *)
(** ** C5: the caret form *)

(** C5 (counterexample): [Range::parse("^1.2.3")] is an error of kind
    [Other] at offset 0. *)
Lemma caret_range_rejected :
  range_parse (lit "^1.2.3") = Returns (Err (mkSemverError (lit "^1.2.3") 0 Other)).
Proof. vm_compute. reflexivity. Qed.

(** C5: [Range::parse] has no caret operator: every input that starts with
    [^] is rejected with an error of kind [Other] at offset 0. *)
Theorem caret_never_parses : forall s,
  range_parse (94 :: s) = Returns (Err (mkSemverError (94 :: s) 0 Other)).
Proof.
  intros s. unfold range_parse. cbn. rewrite N.sub_diag. reflexivity.
Qed.

(* ------------------------------------------------------------------ *)
(** ** C8: version selection *)

Lemma insert_sorted_in : forall x v l, In x (insert_sorted v l) <-> v = x \/ In x l.
Proof.
  intros x v l. induction l as [|y l IH]; simpl.
  - tauto.
  - destruct (version_le v y); simpl; rewrite ?IH; tauto.
Qed.

Lemma sort_unstable_in : forall x l, In x (sort_unstable l) <-> In x l.
Proof.
  intros x l. induction l as [|y l IH]; simpl; [tauto|].
  rewrite insert_sorted_in, IH. split; intros [H|H]; auto.
Qed.

Lemma find_satisfying_in : forall r l v,
  find_satisfying r l = Returns (Some v) -> In v l.
Proof.
  intros r l v. induction l as [|x l IH]; simpl; [discriminate|].
  destruct (range_satisfies r x) as [[|]|]; simpl; try discriminate.
  - intros H. injection H as ->. auto.
  - intros H. auto.
Qed.

Lemma find_satisfying_none : forall r l,
  (forall v, In v l -> range_satisfies r v = Returns false) ->
  find_satisfying r l = Returns None.
Proof.
  intros r l. induction l as [|x l IH]; intros H; simpl; [reflexivity|].
  rewrite H by (left; reflexivity). simpl. apply IH. intros v Hv. apply H. right; exact Hv.
Qed.

Lemma cs_has_pre_wk : forall c, cs_wk c = true -> exists b, cs_has_pre c = Returns b.
Proof.
  intros [u l] H. unfold cs_wk in H. cbn [lower upper] in H.
  apply andb_true_iff in H as [Hl Hu].
  unfold cs_has_pre. cbn [lower upper].
  bound_cases l x; bound_cases u y; eexists; reflexivity.
Qed.

Lemma range_has_pre_release_wk : forall r,
  Forall (fun c => cs_wk c = true) r.(comparators) ->
  exists b, range_has_pre_release r = Returns b.
Proof.
  intros [cs] H. unfold range_has_pre_release. cbn [comparators] in *.
  induction H as [|c cs Hc _ IH]; simpl; [eauto|].
  destruct (cs_has_pre_wk c Hc) as [b Hb]. rewrite Hb. simpl.
  destruct b; eauto.
Qed.

(** C8: (1) when [range.has_pre_release()] is [false], [pick_version]
    never returns a version with a pre-release; (2) on a range whose sets
    have a lower and an upper bound, [has_pre_release] does not panic, and
    when no candidate both passes the pre-release filter and satisfies the
    range, [pick_version] returns [None]. *)
Theorem pick_version_policy :
  (forall force_floating req_is_floating r vs v,
     range_has_pre_release r = Returns false ->
     pick_version force_floating req_is_floating r vs = Returns (Some v) ->
     v.(pre_release) = []) /\
  (forall force_floating req_is_floating r vs,
     Forall (fun c => cs_wk c = true) r.(comparators) ->
     exists include_pre, range_has_pre_release r = Returns include_pre /\
       ((forall v, In v vs -> include_pre || is_empty v.(pre_release) = true ->
           range_satisfies r v = Returns false) ->
        pick_version force_floating req_is_floating r vs = Returns None)).
Proof.
  split.
  - intros ff fl r vs v Hp H. unfold pick_version in H. rewrite Hp in H. simpl in H.
    apply find_satisfying_in in H.
    destruct (fl || ff); [apply in_rev in H|];
      apply sort_unstable_in, filter_In in H; destruct H as [_ H];
      destruct (pre_release v); simpl in H; congruence.
  - intros ff fl r vs Hw.
    destruct (range_has_pre_release_wk r Hw) as [b Hb].
    exists b. split; [exact Hb|]. intros Hn.
    unfold pick_version. rewrite Hb. simpl. apply find_satisfying_none.
    intros v Hv.
    destruct (fl || ff); [apply in_rev in Hv|];
      apply sort_unstable_in, filter_In in Hv; destruct Hv as [Hv Hq]; auto.
Qed.

(* ------------------------------------------------------------------ *)
(** ** Decimal numbers: [to_string] and [parse::<u64>] *)

Lemma pos_size_nat_bound : forall p, N.pos p < 2 ^ N.of_nat (Pos.size_nat p).
Proof.
  induction p as [p IH|p IH|]; cbn [Pos.size_nat]; [| |reflexivity];
    rewrite Nat2N.inj_succ, N.pow_succ_r'; lia.
Qed.

Lemma size_nat_bound : forall n, n < 2 ^ N.of_nat (S (N.size_nat n)).
Proof.
  intros [|p]; [reflexivity|]. rewrite Nat2N.inj_succ, N.pow_succ_r'.
  pose proof (pos_size_nat_bound p). simpl N.size_nat. lia.
Qed.

Lemma digits_rev_digits : forall fuel n, forallb is_digit (digits_rev fuel n) = true.
Proof.
  induction fuel as [|f IH]; intros n; cbn [digits_rev]; [reflexivity|].
  destruct (n <? 10) eqn:E; cbn [forallb]; unfold is_digit.
  - apply N.ltb_lt in E. rewrite andb_true_r.
    apply andb_true_iff; split; apply N.leb_le; lia.
  - rewrite IH, andb_true_r. pose proof (N.mod_lt n 10 ltac:(lia)) as H.
    revert H. generalize (n mod 10). intros m Hm.
    apply andb_true_iff; split; apply N.leb_le; lia.
Qed.

Lemma digits_rev_value : forall fuel n, n < 2 ^ N.of_nat fuel ->
  fold_right (fun c acc => digit_step acc c) 0 (digits_rev fuel n) = n.
Proof.
  induction fuel as [|f IH]; intros n H; cbn [digits_rev fold_right].
  - simpl in H. lia.
  - unfold digit_step. destruct (n <? 10) eqn:E; cbn [fold_right].
    + apply N.ltb_lt in E. lia.
    + apply N.ltb_ge in E. rewrite Nat2N.inj_succ, N.pow_succ_r' in H.
      rewrite IH.
      * pose proof (N.div_mod n 10 ltac:(lia)) as H1.
        pose proof (N.mod_lt n 10 ltac:(lia)) as H2.
        revert H1 H2. generalize (n / 10) (n mod 10). intros q m H1 H2. lia.
      * apply N.Div0.div_lt_upper_bound; lia.
Qed.

Lemma show_N_digits : forall n, forallb is_digit (show_N n) = true.
Proof.
  intros n. unfold show_N. pose proof (digits_rev_digits (S (N.size_nat n)) n) as H.
  rewrite forallb_forall in *. intros x Hx. apply H. apply in_rev. exact Hx.
Qed.

Lemma show_N_value : forall n, fold_left digit_step (show_N n) 0 = n.
Proof.
  intros n. unfold show_N. rewrite <- fold_left_rev_right, rev_involutive.
  apply digits_rev_value, size_nat_bound.
Qed.

Lemma show_N_cons : forall n, exists c s, show_N n = c :: s /\ is_digit c = true.
Proof.
  intros n. pose proof (show_N_digits n) as H. unfold show_N in *.
  destruct (rev (digits_rev (S (N.size_nat n)) n)) as [|c s] eqn:E.
  - apply (f_equal (@rev uchar)) in E. rewrite rev_involutive in E.
    simpl in E. destruct (n <? 10); discriminate.
  - exists c, s. simpl in H. apply andb_true_iff in H as [H _]. auto.
Qed.

Lemma fold_digit_step_mono : forall ds acc, acc <= fold_left digit_step ds acc.
Proof.
  induction ds as [|c ds IH]; intros acc; simpl; [lia|].
  specialize (IH (digit_step acc c)). unfold digit_step in *. lia.
Qed.

Lemma u64_digits_ok : forall ds acc, forallb is_digit ds = true ->
  fold_left digit_step ds acc <= u64_max ->
  u64_digits acc ds = Ok (fold_left digit_step ds acc).
Proof.
  induction ds as [|c ds IH]; intros acc Hd Hm; simpl in *; [reflexivity|].
  apply andb_true_iff in Hd as [Hc Hd]. rewrite Hc.
  pose proof (fold_digit_step_mono ds (digit_step acc c)) as M.
  unfold digit_step in *.
  replace (u64_max <? acc * 10 + (c - 48)) with false by (symmetry; apply N.ltb_ge; lia).
  apply IH; assumption.
Qed.

Lemma u64_from_str_show : forall n, n <= u64_max -> u64_from_str (show_N n) = Ok n.
Proof.
  intros n Hn. pose proof (show_N_value n) as V. pose proof (show_N_digits n) as D.
  destruct (show_N_cons n) as [c [s [E Hc]]]. rewrite E in *.
  assert (N.eqb c 43 = false /\ N.eqb c 45 = false) as [H43 H45].
  { unfold is_digit in Hc. apply andb_true_iff in Hc as [H1 H2].
    apply N.leb_le in H1. apply N.leb_le in H2. split; apply N.eqb_neq; lia. }
  assert (u64_digits 0 (c :: s) = Ok n) as U by (rewrite <- V; apply u64_digits_ok; congruence).
  destruct s; simpl; rewrite ?H43, ?H45; simpl; exact U.
Qed.

(* ------------------------------------------------------------------ *)
(** ** The version parsers are tame *)

Lemma suffix_refl : forall i, is_suffix i i.
Proof. intros i. exists 0%nat. reflexivity. Qed.

Lemma suffix_trans : forall a b c, is_suffix a b -> is_suffix b c -> is_suffix a c.
Proof.
  intros a b c [k1 H1] [k2 H2]. exists (k1 + k2)%nat.
  rewrite <- skipn_skipn, H2. exact H1.
Qed.

Lemma suffix_cons : forall r c i, is_suffix r i -> is_suffix r (c :: i).
Proof. intros r c i [k H]. exists (S k). exact H. Qed.

Lemma from_error_kind_ok : forall i, kind_ok (from_error_kind i).
Proof. intros i. exact I. Qed.

Lemma add_context_ok : forall ctx e, kind_ok e -> kind_ok (add_context ctx e).
Proof. intros ctx e H. exact H. Qed.

Lemma Tame_ret : forall {A} (a : A), Tame (ret a).
Proof. intros A a i. apply suffix_refl. Qed.

Lemma Tame_pbind : forall {A B} (p : Parser A) (k : A -> Parser B),
  Tame p -> (forall a, Tame (k a)) -> Tame (pbind p k).
Proof.
  intros A B p k Hp Hk i. unfold pbind. pose proof (Hp i) as T.
  destruct (p i) as [r a|[e|e|]|]; auto.
  pose proof (Hk a r) as U. destruct (k a r) as [r' b|[e|e|]|]; auto;
    try (destruct U; split; eauto using suffix_trans).
  eauto using suffix_trans.
Qed.

Lemma Tame_pmap : forall {A B} (p : Parser A) (f : A -> B), Tame p -> Tame (pmap p f).
Proof. intros. apply Tame_pbind; auto. intros a. apply Tame_ret. Qed.

Lemma Tame_tuple2 : forall {A B} (p : Parser A) (q : Parser B),
  Tame p -> Tame q -> Tame (tuple2 p q).
Proof.
  intros. unfold tuple2. apply Tame_pbind; auto. intros a.
  apply Tame_pbind; auto. intros b. apply Tame_ret.
Qed.

Lemma Tame_preceded : forall {A B} (p : Parser A) (q : Parser B),
  Tame p -> Tame q -> Tame (preceded p q).
Proof. intros. unfold preceded. apply Tame_pbind; auto. Qed.

Lemma strip_prefix_suffix : forall t i r, strip_prefix t i = Some r -> is_suffix r i.
Proof.
  induction t as [|c t IH]; intros [|d i] r H; simpl in H; try discriminate.
  - injection H as <-. apply suffix_refl.
  - injection H as <-. apply suffix_refl.
  - destruct (N.eqb c d); [|discriminate]. apply suffix_cons. eauto.
Qed.

Lemma Tame_tag : forall t, Tame (tag t).
Proof.
  intros t i. unfold tag. destruct (strip_prefix t i) eqn:E.
  - eapply strip_prefix_suffix; eauto.
  - split; [apply suffix_refl | exact I].
Qed.

Lemma span_app : forall p i a b, span p i = (a, b) -> a ++ b = i.
Proof.
  intros p. induction i as [|c i IH]; intros a b H; simpl in H.
  - injection H as <- <-. reflexivity.
  - destruct (p c).
    + destruct (span p i) as [a' b'] eqn:E. injection H as <- <-. simpl.
      rewrite (IH a' b'); reflexivity.
    + injection H as <- <-. reflexivity.
Qed.

Lemma app_suffix : forall a b : str, is_suffix b (a ++ b).
Proof. induction a as [|c a IH]; intros b; simpl; auto using suffix_refl, suffix_cons. Qed.

Lemma span_suffix : forall p i a b, span p i = (a, b) -> is_suffix b i.
Proof. intros p i a b H. rewrite <- (span_app p i a b H). apply app_suffix. Qed.

Lemma Tame_take_while : forall p, Tame (take_while p).
Proof.
  intros p i. unfold take_while. destruct (span p i) as [a b] eqn:E.
  eapply span_suffix; eauto.
Qed.

Lemma Tame_digit1 : forall i, match digit1 i with
  | IOk r _ => is_suffix r i
  | IErr (Error e) => e = from_error_kind i
  | _ => False end.
Proof.
  intros i. unfold digit1. destruct (span is_digit i) as [a b] eqn:E.
  destruct a; [reflexivity|]. eapply span_suffix; eauto.
Qed.

Lemma Tame_opt : forall {A} (p : Parser A), Tame p -> Tame (opt p).
Proof.
  intros A p H i. unfold opt. pose proof (H i) as T.
  destruct (p i) as [r a|[e|e|]|]; auto using suffix_refl.
Qed.

Lemma Tame_alt : forall {A} (p q : Parser A), Tame p -> Tame q -> Tame (alt p q).
Proof.
  intros A p q Hp Hq i. unfold alt. pose proof (Hp i) as T.
  destruct (p i) as [r a|[e|e|]|]; try exact (Hq i); auto.
Qed.

Lemma Tame_cut : forall {A} (p : Parser A), Tame p -> Tame (cut p).
Proof.
  intros A p H i. unfold cut. pose proof (H i) as T.
  destruct (p i) as [r a|[e|e|]|]; auto.
Qed.

Lemma Tame_context : forall {A} ctx (p : Parser A), Tame p -> Tame (context ctx p).
Proof.
  intros A ctx p H i. unfold context. pose proof (H i) as T.
  destruct (p i) as [r a|[e|e|]|]; auto.
Qed.

Lemma Tame_all_consuming : forall {A} (p : Parser A), Tame p -> Tame (all_consuming p).
Proof.
  intros A p H i. unfold all_consuming. pose proof (H i) as T.
  destruct (p i) as [[|c r] a|[e|e|]|]; auto.
  split; [exact T | exact I].
Qed.

Lemma Tame_number : Tame number.
Proof.
  intros i. unfold number, context, map_res, recognize.
  pose proof (Tame_digit1 i) as T.
  destruct (digit1 i) as [r a|[e|e|]|]; try contradiction.
  - destruct (u64_from_str _) as [v|k].
    + destruct (MAX_SAFE_INTEGER <? v) eqn:E; simpl.
      * split; [apply suffix_refl|]. unfold kind_ok; simpl. apply N.ltb_lt. exact E.
      * exact T.
    + split; [apply suffix_refl | exact I].
  - subst e. split; [apply suffix_refl | exact I].
Qed.

Lemma Tame_sep_loop : forall {A Sep} (sep : Parser Sep) (f : Parser A),
  Tame sep -> Tame f -> forall fuel i res,
  match sep_loop sep f fuel i res with
  | IOk r _ => is_suffix r i
  | IErr (Error e) | IErr (Failure e) => is_suffix e.(pe_input) i /\ kind_ok e
  | IErr Incomplete | IPanic => False
  end.
Proof.
  intros A Sep sep f Hs Hf. induction fuel as [|n IH]; intros i res; simpl.
  - apply suffix_refl.
  - pose proof (Hs i) as T. destruct (sep i) as [i1 s|[e|e|]|]; auto using suffix_refl.
    destruct (Nat.eqb (List.length i1) (List.length i)).
    + split; [exact T | exact I].
    + pose proof (Hf i1) as U. destruct (f i1) as [i2 o|[e|e|]|]; auto using suffix_refl.
      * pose proof (IH i2 (res ++ [o])) as V.
        destruct (sep_loop sep f n i2 (res ++ [o])) as [r x|[e|e|]|]; auto;
          try (destruct V; split; eauto using suffix_trans).
        eauto using suffix_trans.
      * destruct U; split; eauto using suffix_trans.
Qed.

Lemma Tame_separated_list1 : forall {A Sep} (sep : Parser Sep) (f : Parser A),
  Tame sep -> Tame f -> Tame (separated_list1 sep f).
Proof.
  intros A Sep sep f Hs Hf i. unfold separated_list1. pose proof (Hf i) as T.
  destruct (f i) as [i1 o|[e|e|]|]; auto.
  pose proof (Tame_sep_loop sep f Hs Hf (S (List.length i1)) i1 [o]) as V.
  destruct (sep_loop _ _ _ _ _) as [r x|[e|e|]|]; auto;
    try (destruct V; split; eauto using suffix_trans).
  eauto using suffix_trans.
Qed.

Lemma Tame_identifier : Tame identifier.
Proof. apply Tame_context, Tame_pmap, Tame_take_while. Qed.

Lemma Tame_build_parser : Tame build_parser.
Proof.
  apply Tame_context, Tame_preceded; [apply Tame_tag|].
  apply Tame_separated_list1; [apply Tame_tag | apply Tame_identifier].
Qed.

Lemma Tame_pre_release_parser : Tame pre_release_parser.
Proof.
  apply Tame_context, Tame_preceded; [apply Tame_tag|].
  apply Tame_separated_list1; [apply Tame_tag | apply Tame_identifier].
Qed.

Lemma Tame_extras : Tame extras.
Proof.
  unfold extras. apply Tame_pmap, Tame_opt.
  repeat apply Tame_alt; repeat apply Tame_pmap;
    auto using Tame_tuple2, Tame_pre_release_parser, Tame_build_parser.
Qed.

Lemma Tame_version_core : Tame version_core.
Proof.
  unfold version_core. apply Tame_context.
  repeat apply Tame_alt;
    repeat (apply Tame_pbind; [first [apply Tame_number | apply Tame_tag |
                                      apply Tame_cut, Tame_number] | intros ?]);
    apply Tame_ret.
Qed.

Lemma Tame_version : Tame version.
Proof.
  apply Tame_context, Tame_pmap, Tame_tuple2; [apply Tame_version_core | apply Tame_extras].
Qed.

(* ------------------------------------------------------------------ *)
(** ** [number] on a formatted integer *)

Lemma byte_len_app : forall a b, byte_len (a ++ b) = byte_len a + byte_len b.
Proof. induction a as [|c a IH]; intros b; simpl; [reflexivity|]. rewrite IH. lia. Qed.

Lemma span_digits : forall ds r, forallb is_digit ds = true ->
  (forall c r', r = c :: r' -> is_digit c = false) ->
  span is_digit (ds ++ r) = (ds, r).
Proof.
  induction ds as [|d ds IH]; intros r Hd Hr; cbn [app forallb] in *.
  - destruct r as [|c r']; [reflexivity|]. cbn [span]. rewrite (Hr c r' eq_refl).
    reflexivity.
  - apply andb_true_iff in Hd as [H1 H2]. cbn [span]. rewrite H1, IH by assumption.
    reflexivity.
Qed.

Lemma firstn_app_length : forall (a b : str), firstn (List.length (a ++ b) - List.length b) (a ++ b) = a.
Proof.
  intros a b. rewrite length_app.
  replace (List.length a + List.length b - List.length b)%nat with (List.length a) by lia.
  induction a as [|c a IH]; simpl; [reflexivity|]. rewrite IH. reflexivity.
Qed.

Lemma recognize_digit1_show : forall n r,
  (forall c r', r = c :: r' -> is_digit c = false) ->
  recognize digit1 (show_N n ++ r) = IOk r (show_N n).
Proof.
  intros n r Hr. unfold recognize, digit1.
  rewrite span_digits by (apply show_N_digits || exact Hr).
  destruct (show_N_cons n) as [c [s [E _]]]. rewrite E. rewrite <- E.
  rewrite firstn_app_length. reflexivity.
Qed.

Lemma number_show_ok : forall n r, n <= MAX_SAFE_INTEGER ->
  (forall c r', r = c :: r' -> is_digit c = false) ->
  number (show_N n ++ r) = IOk r n.
Proof.
  intros n r Hn Hr. unfold number, context, map_res.
  rewrite recognize_digit1_show by exact Hr.
  rewrite u64_from_str_show by (unfold MAX_SAFE_INTEGER, u64_max in *; lia).
  replace (MAX_SAFE_INTEGER <? n) with false by (symmetry; apply N.ltb_ge; lia).
  reflexivity.
Qed.

Lemma number_show_big : forall n r, MAX_SAFE_INTEGER < n -> n <= u64_max ->
  (forall c r', r = c :: r' -> is_digit c = false) ->
  number (show_N n ++ r) =
  IErr (Error (mkParseError (show_N n ++ r) (Some "number component"%string) (Some (MaxIntError n)))).
Proof.
  intros n r Hn Hm Hr. unfold number, context, map_res.
  rewrite recognize_digit1_show by exact Hr.
  rewrite u64_from_str_show by exact Hm.
  replace (MAX_SAFE_INTEGER <? n) with true by (symmetry; apply N.ltb_lt; lia).
  reflexivity.
Qed.

Lemma dot_not_digit : forall (r : str) c r', 46 :: r = c :: r' -> is_digit c = false.
Proof. intros r c r' H. injection H as <- _. reflexivity. Qed.
Lemma byte_len_cons : forall c s, byte_len (c :: s) = utf8_len c + byte_len s.
Proof. reflexivity. Qed.


Lemma version_parse_max_int : forall ns n r,
  (List.length ns <= 3)%nat -> Forall (fun m => m <= MAX_SAFE_INTEGER) ns ->
  MAX_SAFE_INTEGER < n -> n <= u64_max ->
  (forall c r', r = c :: r' -> is_digit c = false) ->
  let s := flat_map (fun m => show_N m ++ [46]) ns ++ show_N n ++ r in
  byte_len s <= MAX_LENGTH ->
  version_parse s =
  Returns (Err (mkSemverError s (byte_len (flat_map (fun m => show_N m ++ [46]) ns))
                 (MaxIntError n))).
Proof.
  intros ns n r Hn Hs H1 H2 Hr s Hl. unfold version_parse.
  replace (MAX_LENGTH <? byte_len s) with false by (symmetry; apply N.ltb_ge; lia).
  subst s.
  destruct ns as [|a [|b [|c [|d ns]]]]; cbn [List.length] in Hn; try lia;
    repeat match goal with H : Forall _ (_ :: _) |- _ => inversion H; subst; clear H end;
    cbn [flat_map]; rewrite <- ?app_assoc; cbn [app];
    unfold all_consuming, version, version_core, context, alt, pmap, tuple2, pbind, cut;
    repeat (rewrite number_show_ok by (first [assumption | apply dot_not_digit]);
            cbn -[byte_len show_N number]);
    rewrite number_show_big by assumption; cbn -[byte_len show_N];
    f_equal; f_equal; f_equal; repeat (rewrite ?byte_len_app, ?byte_len_cons);
    change (utf8_len 46) with 1; change (byte_len []) with 0; lia.
Qed.


Lemma byte_len_firstn_skipn : forall k s,
  byte_len s - byte_len (skipn k s) = byte_len (firstn k s).
Proof.
  intros k s. rewrite <- (firstn_skipn k s) at 1. rewrite byte_len_app. lia.
Qed.

(** C9: the length ceiling of [Version::parse] counts bytes
    ([input.len()]), not characters as its message ("256 characters")
    says. Every input longer than 256 bytes is rejected with
    [MaxLengthError] at offset 0; "1.0.0-" followed by 126 times 'Ł'
    (U+0141, two bytes in UTF-8) has 132 characters but 258 bytes and is
    rejected so, while the same input with 125 times 'Ł' (256 bytes)
    parses. The numeric ceiling also departs from the stated one: a core
    component above [u64::MAX] is reported as [ParseIntError], not
    [MaxIntError], and a numeric pre-release identifier above
    [MAX_SAFE_INTEGER] is accepted. *)
Theorem version_parse_counts_bytes :
  (forall s, MAX_LENGTH < byte_len s ->
     version_parse s = Returns (Err (mkSemverError s 0 MaxLengthError))) /\
  (let s := lit "1.0.0-" ++ repeat 321 126 in
   List.length s = 132%nat /\ byte_len s = 258 /\
   version_parse s = Returns (Err (mkSemverError s 0 MaxLengthError))) /\
  (let s := lit "1.0.0-" ++ repeat 321 125 in
   List.length s = 131%nat /\ byte_len s = 256 /\
   exists v, version_parse s = Returns (Ok v)) /\
  (exists e, version_parse (lit "1.2.99999999999999999999") = Returns (Err e) /\
             err_kind e = ParseIntError PosOverflow) /\
  (exists v, version_parse (lit "1.0.0-999999999999999") = Returns (Ok v)).
Proof.
  split; [|split; [|split; [|split]]].
  - intros s H. unfold version_parse. apply N.ltb_lt in H. rewrite H. reflexivity.
  - vm_compute. auto.
  - vm_compute. split; [reflexivity | split; [reflexivity | eexists; reflexivity]].
  - eexists. split; [vm_compute; reflexivity | reflexivity].
  - eexists. vm_compute. reflexivity.
Qed.

(** [Version::parse] never panics. An input longer than 256 bytes is
    rejected with [MaxLengthError] at offset 0. Every error carries the
    original input and a byte offset that is the byte length of a prefix
    of it; [MaxLengthError] is reported only above 256 bytes and
    [MaxIntError n] only for [n > MAX_SAFE_INTEGER]. A core component
    (major, minor, patch or revision) in (MAX_SAFE_INTEGER, u64::MAX],
    preceded by components at or below the ceiling, is reported as
    [MaxIntError] at the offset where it starts. *)
Theorem version_parse_limits :
  (forall s, MAX_LENGTH < byte_len s ->
     version_parse s = Returns (Err (mkSemverError s 0 MaxLengthError))) /\
  (forall s, exists r, version_parse s = Returns r) /\
  (forall s e, version_parse s = Returns (Err e) ->
     e.(err_input) = s /\
     (exists k, e.(err_offset) = byte_len (firstn k s)) /\
     (e.(err_kind) = MaxLengthError -> MAX_LENGTH < byte_len s) /\
     (forall n, e.(err_kind) = MaxIntError n -> MAX_SAFE_INTEGER < n)) /\
  (forall ns n r,
     (List.length ns <= 3)%nat -> Forall (fun m => m <= MAX_SAFE_INTEGER) ns ->
     MAX_SAFE_INTEGER < n -> n <= u64_max ->
     (forall c r', r = c :: r' -> is_digit c = false) ->
     let s := flat_map (fun m => show_N m ++ [46]) ns ++ show_N n ++ r in
     byte_len s <= MAX_LENGTH ->
     version_parse s =
     Returns (Err (mkSemverError s (byte_len (flat_map (fun m => show_N m ++ [46]) ns))
                    (MaxIntError n)))).
Proof.
  split; [|split; [|split]].
  - intros s H. unfold version_parse. apply N.ltb_lt in H. rewrite H. reflexivity.
  - intros s. unfold version_parse. destruct (MAX_LENGTH <? byte_len s); [eauto|].
    pose proof (Tame_all_consuming _ Tame_version s) as T.
    destruct (all_consuming version s) as [r v| [e|e|] |]; cbn [to_semver_error]; eauto;
      contradiction.
  - intros s e. unfold version_parse. case_eq (MAX_LENGTH <? byte_len s); intros Hl.
    + intros H. injection H as <-. cbn. apply N.ltb_lt in Hl.
      repeat split; auto; [exists 0%nat; reflexivity | discriminate].
    + pose proof (Tame_all_consuming _ Tame_version s) as T.
      destruct (all_consuming version s) as [r v| [pe|pe|] |]; cbn [to_semver_error];
        try discriminate; try contradiction;
      intros H; injection H as <-; destruct T as [[k Hk] Hok]; cbn;
      (split; [reflexivity | split; [exists k; rewrite <- Hk; apply byte_len_firstn_skipn|]]);
      unfold kind_ok in Hok;
      destruct (pe_kind pe) as [[]|]; try contradiction;
      try (destruct (pe_context pe)); split; intros; try discriminate;
      try (injection H as <-; assumption).
  - exact version_parse_max_int.
Qed.























(* ------------------------------------------------------------------ *)
(** ** The outputs of the version parser *)

Lemma Produces_ret : forall {A} (Q : A -> Prop) a, Q a -> Produces (ret a) Q.
Proof. intros A Q a H i r b E. injection E as _ <-. exact H. Qed.

Lemma Produces_pbind : forall {A B} (p : Parser A) (k : A -> Parser B) Q R,
  Produces p Q -> (forall a, Q a -> Produces (k a) R) -> Produces (pbind p k) R.
Proof.
  intros A B p k Q R Hp Hk i r b. unfold pbind.
  destruct (p i) as [r1 a| |] eqn:E; try discriminate.
  apply (Hk a (Hp _ _ _ E)).
Qed.

Lemma Produces_pmap : forall {A B} (p : Parser A) (f : A -> B) Q R,
  Produces p Q -> (forall a, Q a -> R (f a)) -> Produces (pmap p f) R.
Proof.
  intros A B p f Q R Hp Hf. unfold pmap. eapply Produces_pbind; [exact Hp|].
  intros a Ha. apply Produces_ret. auto.
Qed.

Lemma Produces_context : forall {A} ctx (p : Parser A) Q,
  Produces p Q -> Produces (context ctx p) Q.
Proof.
  intros A ctx p Q Hp i r a. unfold context.
  destruct (p i) as [r1 b|[e|e|]|] eqn:E; try discriminate.
  intros H. injection H as <- <-. exact (Hp _ _ _ E).
Qed.

Lemma Produces_cut : forall {A} (p : Parser A) Q, Produces p Q -> Produces (cut p) Q.
Proof.
  intros A p Q Hp i r a. unfold cut.
  destruct (p i) as [r1 b|[e|e|]|] eqn:E; try discriminate.
  intros H. injection H as <- <-. exact (Hp _ _ _ E).
Qed.

Lemma Produces_alt : forall {A} (p q : Parser A) Q,
  Produces p Q -> Produces q Q -> Produces (alt p q) Q.
Proof.
  intros A p q Q Hp Hq i r a. unfold alt.
  destruct (p i) as [r1 b|[e|e|]|] eqn:E; try discriminate.
  - intros H. injection H as <- <-. exact (Hp _ _ _ E).
  - apply Hq.
Qed.

Lemma Produces_opt : forall {A} (p : Parser A) Q,
  Produces p Q -> Produces (opt p) (fun o => match o with Some a => Q a | None => True end).
Proof.
  intros A p Q Hp i r a. unfold opt.
  destruct (p i) as [r1 b|[e|e|]|] eqn:E; try discriminate;
    intros H; injection H as <- <-; [exact (Hp _ _ _ E) | exact I].
Qed.

Lemma Produces_all_consuming : forall {A} (p : Parser A) Q,
  Produces p Q -> Produces (all_consuming p) Q.
Proof.
  intros A p Q Hp i r a. unfold all_consuming.
  destruct (p i) as [[|c r1] b| |] eqn:E; try discriminate.
  intros H. injection H as <- <-. exact (Hp _ _ _ E).
Qed.

Lemma Produces_sep_loop : forall {A Sep} (sep : Parser Sep) (f : Parser A) Q,
  Produces f Q -> forall fuel i res r out, Forall Q res ->
  sep_loop sep f fuel i res = IOk r out -> Forall Q out.
Proof.
  intros A Sep sep f Q Hf. induction fuel as [|fuel IH]; intros i res r out Hres H;
    cbn [sep_loop] in H.
  - injection H as _ <-. exact Hres.
  - destruct (sep i) as [i1 s|[e|e|]|]; try discriminate.
    + destruct (Nat.eqb _ _); [discriminate|].
      destruct (f i1) as [i2 o|[e|e|]|] eqn:E; try discriminate.
      * eapply IH; [|exact H]. apply Forall_app. split; [exact Hres|].
        constructor; [exact (Hf _ _ _ E)|constructor].
      * injection H as _ <-. exact Hres.
    + injection H as _ <-. exact Hres.
Qed.

Lemma Produces_separated_list1 : forall {A Sep} (sep : Parser Sep) (f : Parser A) Q,
  Produces f Q -> Produces (separated_list1 sep f) (Forall Q).
Proof.
  intros A Sep sep f Q Hf i r out. unfold separated_list1.
  destruct (f i) as [i1 o| |] eqn:E; try discriminate.
  apply Produces_sep_loop with (1 := Hf). constructor; [exact (Hf _ _ _ E)|constructor].
Qed.

Lemma u64_digits_le : forall ds acc n, acc <= u64_max -> u64_digits acc ds = Ok n -> n <= u64_max.
Proof.
  induction ds as [|c ds IH]; intros acc n Ha H; cbn [u64_digits] in H.
  - injection H as <-. exact Ha.
  - destruct (is_digit c); [|discriminate].
    destruct (u64_max <? acc * 10 + (c - 48)) eqn:E; [discriminate|].
    apply N.ltb_ge in E. exact (IH _ _ E H).
Qed.

Lemma u64_from_str_le : forall s n, u64_from_str s = Ok n -> n <= u64_max.
Proof.
  intros s n H. unfold u64_from_str in H.
  assert (H0 : 0 <= u64_max) by (unfold u64_max; lia).
  destruct s as [|c [|d s]]; [discriminate| |].
  - destruct (N.eqb c 43 || N.eqb c 45); [discriminate|]. exact (u64_digits_le _ _ _ H0 H).
  - destruct (N.eqb c 43); exact (u64_digits_le _ _ _ H0 H).
Qed.

Lemma number_le : Produces number (fun n => n <= MAX_SAFE_INTEGER).
Proof.
  intros i r n. unfold number, context, map_res.
  destruct (recognize digit1 i) as [r1 raw|[e|e|]|]; try discriminate.
  destruct (u64_from_str raw) as [v|]; [|discriminate].
  destruct (MAX_SAFE_INTEGER <? v) eqn:E; [discriminate|].
  intros H. injection H as _ <-. apply N.ltb_ge in E. exact E.
Qed.

Lemma span_forallb : forall p i a b, span p i = (a, b) -> forallb p a = true.
Proof.
  intros p. induction i as [|c i IH]; intros a b H; cbn [span] in H.
  - injection H as <- _. reflexivity.
  - destruct (p c) eqn:Pc.
    + destruct (span p i) as [a' b'] eqn:E. injection H as <- _.
      cbn [forallb]. rewrite Pc, (IH _ _ eq_refl). reflexivity.
    + injection H as <- _. reflexivity.
Qed.

Lemma identifier_wf : Produces identifier wf_ident.
Proof.
  apply Produces_context. eapply Produces_pmap with (Q := fun s => forallb ident_char s = true).
  - intros i r a. unfold take_while. destruct (span ident_char i) as [a' b] eqn:E.
    intros H. injection H as _ <-. exact (span_forallb _ _ _ _ E).
  - intros s Hs. destruct (u64_from_str s) eqn:E; cbn [wf_ident].
    + exact (u64_from_str_le _ _ E).
    + eauto.
Qed.

Lemma pre_release_wf : Produces pre_release_parser (Forall wf_ident).
Proof.
  apply Produces_context. unfold preceded. eapply Produces_pbind with (Q := fun _ => True).
  - intros i r a _. exact I.
  - intros _ _. apply Produces_separated_list1, identifier_wf.
Qed.

Lemma build_wf : Produces build_parser (Forall wf_ident).
Proof.
  apply Produces_context. unfold preceded. eapply Produces_pbind with (Q := fun _ => True).
  - intros i r a _. exact I.
  - intros _ _. apply Produces_separated_list1, identifier_wf.
Qed.

Lemma extras_wf : Produces extras (fun '(p, b) => Forall wf_ident p /\ Forall wf_ident b).
Proof.
  unfold extras. eapply Produces_pmap.
  - apply Produces_opt with (Q := fun e => Forall wf_ident (fst (values e)) /\
                                           Forall wf_ident (snd (values e))).
    repeat apply Produces_alt.
    + unfold tuple2. eapply Produces_pmap.
      * eapply Produces_pbind; [exact pre_release_wf|]. intros a Ha.
        eapply Produces_pbind; [exact build_wf|]. intros b Hb.
        apply Produces_ret with (Q := fun '(a, b) => Forall wf_ident a /\ Forall wf_ident b).
        split; assumption.
      * intros [a b] [Ha Hb]. split; assumption.
    + eapply Produces_pmap; [exact pre_release_wf|]. intros a Ha. split; auto.
    + eapply Produces_pmap; [exact build_wf|]. intros a Ha. split; auto.
  - intros [e|] He; [|split; constructor].
    destruct (values e) as [p b]. exact He.
Qed.

Lemma version_core_le : Produces version_core (fun '(a, b, c, d) =>
  a <= MAX_SAFE_INTEGER /\ b <= MAX_SAFE_INTEGER /\ c <= MAX_SAFE_INTEGER /\
  d <= MAX_SAFE_INTEGER).
Proof.
  assert (H0 : 0 <= MAX_SAFE_INTEGER) by (unfold MAX_SAFE_INTEGER; lia).
  apply Produces_context.
  repeat apply Produces_alt;
    repeat (eapply Produces_pbind;
            [first [exact number_le | apply Produces_cut, number_le |
                    apply (Produces_ret (fun _ : str => True)); exact I |
                    intros ? ? ? _; exact I]|]; intros ? ?);
    try (apply Produces_ret; repeat split; assumption).
Qed.

Lemma version_wf : Produces version wf_version.
Proof.
  apply Produces_context. eapply Produces_pmap.
  - unfold tuple2. eapply Produces_pbind; [exact version_core_le|]. intros a Ha.
    eapply Produces_pbind; [exact extras_wf|]. intros b Hb.
    apply Produces_ret with (Q := fun '(a, b) =>
      (let '(a, b, c, d) := a in
       a <= MAX_SAFE_INTEGER /\ b <= MAX_SAFE_INTEGER /\ c <= MAX_SAFE_INTEGER /\
       d <= MAX_SAFE_INTEGER) /\
      (let '(p, b) := b in Forall wf_ident p /\ Forall wf_ident b)).
    split; assumption.
  - intros [[[[a b] c] d] [p bu]] [[Ha [Hb [Hc Hd]]] [Hp Hbu]].
    unfold wf_version; cbn. repeat split; assumption.
Qed.

Lemma version_parse_wf : forall s v, version_parse s = Returns (Ok v) -> wf_version v.
Proof.
  intros s v. unfold version_parse. destruct (MAX_LENGTH <? byte_len s); [discriminate|].
  destruct (all_consuming version s) as [r w|[e|e|]|] eqn:E; cbn [to_semver_error];
    try discriminate; try (destruct (byte_len s =? 0); discriminate).
  intros H. injection H as <-. exact (Produces_all_consuming _ _ version_wf _ _ _ E).
Qed.

(* ------------------------------------------------------------------ *)
(** ** Parsing a printed version *)

Lemma span_all : forall p ds r, forallb p ds = true ->
  (forall c r', r = c :: r' -> p c = false) ->
  span p (ds ++ r) = (ds, r).
Proof.
  intros p. induction ds as [|d ds IH]; intros r Hd Hr; cbn [app forallb] in *.
  - destruct r as [|c r']; [reflexivity|]. cbn [span]. rewrite (Hr c r' eq_refl).
    reflexivity.
  - apply andb_true_iff in Hd as [H1 H2]. cbn [span]. rewrite H1, IH by assumption.
    reflexivity.
Qed.

Lemma digit_ident_char : forall c, is_digit c = true -> ident_char c = true.
Proof.
  intros c H. unfold ident_char, is_alphanumeric.
  pose proof H as H'. unfold is_digit in H'. apply andb_true_iff in H' as [_ H2].
  apply N.leb_le in H2. rewrite N.mod_small by lia. rewrite H. reflexivity.
Qed.

Lemma show_N_ident_chars : forall n, forallb ident_char (show_N n) = true.
Proof.
  intros n. pose proof (show_N_digits n) as D. rewrite forallb_forall in *.
  intros x Hx. apply digit_ident_char, D, Hx.
Qed.

Lemma identifier_show : forall i r, wf_ident i ->
  (forall c r', r = c :: r' -> ident_char c = false) ->
  identifier (ident_to_string i ++ r) = IOk r i.
Proof.
  intros i r Hi Hr. unfold identifier, context, pmap, pbind, ret, take_while.
  destruct i as [n|s]; cbn [ident_to_string wf_ident] in *.
  - rewrite span_all by (apply show_N_ident_chars || exact Hr).
    rewrite u64_from_str_show by exact Hi. reflexivity.
  - destruct Hi as [Hs [e He]]. rewrite span_all by assumption.
    rewrite He. reflexivity.
Qed.

Lemma ids_tail_head : forall ids r c r', ids_tail ids ++ r = c :: r' ->
  (ids <> [] /\ c = 46) \/ (ids = [] /\ r = c :: r').
Proof.
  intros [|i ids] r c r' H; cbn in H; [right; auto|].
  injection H as <- _. left. split; [discriminate | reflexivity].
Qed.

Lemma sep_loop_show : forall ids fuel acc r, Forall wf_ident ids ->
  (forall c r', r = c :: r' -> ident_char c = false /\ c <> 46) ->
  (List.length (ids_tail ids ++ r) < fuel)%nat ->
  sep_loop (tag (lit ".")) identifier fuel (ids_tail ids ++ r) acc = IOk r (acc ++ ids).
Proof.
  replace (lit ".") with [46] by reflexivity.
  induction ids as [|i ids IH]; intros fuel acc r Hw Hr Hf;
    (destruct fuel as [|fuel]; [lia|]); cbn [sep_loop ids_tail app].
  - rewrite app_nil_r. unfold tag. destruct r as [|c r']; [reflexivity|].
    cbn [strip_prefix]. destruct (Hr c r' eq_refl) as [_ H46].
    rewrite (proj2 (N.eqb_neq 46 c)) by congruence. reflexivity.
  - inversion Hw as [|? ? Hi Hids]; subst.
    unfold tag at 1. cbn [strip_prefix]. rewrite N.eqb_refl.
    cbn [strip_prefix app List.length].
    rewrite (proj2 (PeanoNat.Nat.eqb_neq _ _)) by lia.
    rewrite <- app_assoc, identifier_show.
    + rewrite IH; [rewrite <- app_assoc; reflexivity | assumption | assumption |].
      rewrite length_app in Hf |- *. cbn [ids_tail List.length] in Hf.
      rewrite length_app in Hf. lia.
    + exact Hi.
    + intros c r' E. destruct (ids_tail_head _ _ _ _ E) as [[_ ->]|[_ E']].
      * reflexivity.
      * exact (proj1 (Hr _ _ E')).
Qed.

Lemma separated_list1_show : forall i ids r, Forall wf_ident (i :: ids) ->
  (forall c r', r = c :: r' -> ident_char c = false /\ c <> 46) ->
  separated_list1 (tag (lit ".")) identifier (ident_to_string i ++ ids_tail ids ++ r) =
  IOk r (i :: ids).
Proof.
  intros i ids r Hw Hr. inversion Hw as [|? ? Hi Hids]; subst.
  unfold separated_list1. rewrite identifier_show by
    (exact Hi || (intros c r' E; destruct (ids_tail_head _ _ _ _ E) as [[_ ->]|[_ E']];
                  [reflexivity | exact (proj1 (Hr _ _ E'))])).
  apply sep_loop_show; [exact Hids | exact Hr | lia].
Qed.

Lemma lit_dash : lit "-" = [45].
Proof. reflexivity. Qed.

Lemma lit_plus : lit "+" = [43].
Proof. reflexivity. Qed.

Lemma pre_release_show : forall i ids r, Forall wf_ident (i :: ids) ->
  (forall c r', r = c :: r' -> ident_char c = false /\ c <> 46) ->
  pre_release_parser (ids_to_string 45 (i :: ids) ++ r) = IOk r (i :: ids).
Proof.
  intros i ids r Hw Hr. unfold pre_release_parser, context, preceded, pbind.
  rewrite lit_dash. unfold tag at 1. cbn [ids_to_string app strip_prefix].
  rewrite N.eqb_refl. cbn [strip_prefix]. rewrite <- app_assoc.
  rewrite separated_list1_show by assumption. reflexivity.
Qed.

Lemma build_show : forall i ids r, Forall wf_ident (i :: ids) ->
  (forall c r', r = c :: r' -> ident_char c = false /\ c <> 46) ->
  build_parser (ids_to_string 43 (i :: ids) ++ r) = IOk r (i :: ids).
Proof.
  intros i ids r Hw Hr. unfold build_parser, context, preceded, pbind.
  rewrite lit_plus. unfold tag at 1. cbn [ids_to_string app strip_prefix].
  rewrite N.eqb_refl. cbn [strip_prefix]. rewrite <- app_assoc.
  rewrite separated_list1_show by assumption. reflexivity.
Qed.

Lemma extras_show : forall pre bu, Forall wf_ident pre -> Forall wf_ident bu ->
  extras (ids_to_string 45 pre ++ ids_to_string 43 bu) = IOk [] (pre, bu).
Proof.
  intros pre bu Hp Hb.
  assert (Hplus : forall c r', ids_to_string 43 bu = c :: r' -> ident_char c = false /\ c <> 46).
  { intros c r' E. destruct bu; cbn in E; [discriminate|]. injection E as <- _.
    split; [reflexivity | discriminate]. }
  assert (Hnil : forall c r', @nil uchar = c :: r' -> ident_char c = false /\ c <> 46)
    by discriminate.
  destruct pre as [|i pre]; destruct bu as [|j bu].
  - reflexivity.
  - change (ids_to_string 45 [] ++ ids_to_string 43 (j :: bu))
      with (ids_to_string 43 (j :: bu)).
    rewrite <- (app_nil_r (ids_to_string 43 (j :: bu))).
    unfold extras, tuple2, pmap, pbind, opt, alt, ret.
    rewrite build_show by assumption. reflexivity.
  - rewrite app_nil_r. rewrite <- (app_nil_r (ids_to_string 45 (i :: pre))).
    unfold extras, tuple2, pmap, pbind, opt, alt, ret.
    rewrite pre_release_show by assumption. reflexivity.
  - unfold extras, tuple2, pmap, pbind, opt, alt, ret.
    rewrite pre_release_show by assumption.
    rewrite <- (app_nil_r (ids_to_string 43 (j :: bu))).
    rewrite build_show by assumption. reflexivity.
Qed.

Lemma version_core_show : forall M m p rv r,
  M <= MAX_SAFE_INTEGER -> m <= MAX_SAFE_INTEGER -> p <= MAX_SAFE_INTEGER ->
  rv <= MAX_SAFE_INTEGER ->
  (forall c r', r = c :: r' -> is_digit c = false /\ c <> 46) ->
  version_core (show_N M ++ [46] ++ show_N m ++ [46] ++ show_N p ++
                (if 0 <? rv then 46 :: show_N rv else []) ++ r) = IOk r (M, m, p, rv).
Proof.
  intros M m p rv r HM Hm Hp Hrv Hr.
  assert (Hd : forall c r', r = c :: r' -> is_digit c = false)
    by (intros c r' E; exact (proj1 (Hr c r' E))).
  unfold version_core, context, alt, pmap, cut, pbind, ret.
  replace (lit ".") with [46] by reflexivity.
  cbn [app].
  destruct (0 <? rv) eqn:Erv.
  - repeat (rewrite number_show_ok by (assumption || apply dot_not_digit);
            cbn -[number show_N]).
    reflexivity.
  - replace rv with 0 by (apply N.ltb_ge in Erv; lia).
    repeat (rewrite number_show_ok by (assumption || apply dot_not_digit);
            cbn -[number show_N]).
    destruct r as [|c r']; [reflexivity|].
    destruct (Hr c r' eq_refl) as [_ H46]. unfold tag. cbn [strip_prefix].
    rewrite (proj2 (N.eqb_neq 46 c)) by congruence. reflexivity.
Qed.

Lemma extras_head : forall pre bu c r',
  ids_to_string 45 pre ++ ids_to_string 43 bu = c :: r' -> is_digit c = false /\ c <> 46.
Proof.
  intros [|i pre] [|j bu] c r' E; cbn in E; try discriminate; injection E as <- _;
    split; (reflexivity || discriminate).
Qed.

Lemma version_parse_show : forall v, wf_version v ->
  byte_len (version_to_string v) <= MAX_LENGTH ->
  version_parse (version_to_string v) = Returns (Ok v).
Proof.
  intros [M m p rv bu pre] [HM [Hm [Hp [Hrv [Hpre Hbu]]]]] Hl. cbn [major minor patch revision
    pre_release build] in *.
  unfold version_parse. replace (MAX_LENGTH <? _) with false by (symmetry; apply N.ltb_ge; exact Hl).
  unfold all_consuming, version, context, tuple2, pmap, pbind, ret, version_to_string.
  cbn [major minor patch revision pre_release build].
  rewrite version_core_show by (assumption || apply extras_head).
  rewrite extras_show by assumption. reflexivity.
Qed.

(** C7 (counterexample): "1-" followed by 254 letters is 256 bytes and
    parses, but it prints as "1.0.0-" followed by those letters, 260 bytes,
    which [Version::parse] rejects with [MaxLengthError]. *)
Lemma version_round_trip_too_long :
  match version_parse (lit "1-" ++ repeat 97 254) with
  | Returns (Ok v) =>
      version_parse (version_to_string v) =
      Returns (Err (mkSemverError (version_to_string v) 0 MaxLengthError))
  | _ => False
  end.
Proof. vm_compute. reflexivity. Qed.

(** C7: for every version [v] returned by [Version::parse] whose printed
    form is at most 256 bytes, parsing the printed form succeeds and
    returns exactly [v]. *)
Theorem version_round_trip : forall s v,
  version_parse s = Returns (Ok v) ->
  byte_len (version_to_string v) <= MAX_LENGTH ->
  version_parse (version_to_string v) = Returns (Ok v).
Proof.
  intros s v Hs Hl. apply version_parse_show; [|exact Hl].
  exact (version_parse_wf s v Hs).
Qed.

Lemma version_round_trip_witness :
  version_parse (lit "1.2.3-alpha.01+build") =
    Returns (Ok (mkVersion 1 2 3 0 [AlphaNumeric (lit "build")]
                           [AlphaNumeric (lit "alpha"); Numeric 1])) /\
  version_parse (version_to_string (mkVersion 1 2 3 0 [AlphaNumeric (lit "build")]
                                              [AlphaNumeric (lit "alpha"); Numeric 1])) =
    Returns (Ok (mkVersion 1 2 3 0 [AlphaNumeric (lit "build")]
                           [AlphaNumeric (lit "alpha"); Numeric 1])).
Proof.
  split; [vm_compute; reflexivity|].
  apply (version_round_trip (lit "1.2.3-alpha.01+build")); [vm_compute; reflexivity|].
  vm_compute. discriminate.
Defined.

(* ------------------------------------------------------------------ *)
(** ** Further properties of the code *)

Lemma str_eqb_eq : forall x y, str_eqb x y = true -> x = y.
Proof.
  induction x as [|a x IH]; intros [|b y] H; cbn in H; try discriminate; auto.
  apply andb_true_iff in H as [H1 H2]. apply N.eqb_eq in H1. subst. f_equal. auto.
Qed.

Lemma ident_hash_eq : forall a b, ident_eq a b = true -> ident_hash a = ident_hash b.
Proof.
  intros [x|x] [y|y] H; cbn in H; try discriminate.
  - apply N.eqb_eq in H. subst. reflexivity.
  - cbn. f_equal. f_equal. apply str_eqb_eq. exact H.
Qed.

Lemma ids_hash_eq : forall a b, ids_eq a b = true -> ids_hash a = ids_hash b.
Proof.
  unfold ids_eq, ids_hash. induction a as [|x a IH]; intros [|y b] H; cbn in H;
    try discriminate; [reflexivity|].
  apply andb_true_iff in H as [H1 H2]. specialize (IH b H2). injection IH as E1 E2.
  cbn [List.length flat_map]. rewrite E1, E2, (ident_hash_eq x y H1). reflexivity.
Qed.

(** [impl Hash for Version] agrees with [impl PartialEq for Version]: equal
    versions (same major, minor, patch, revision and pre-release up to ASCII
    case, any build) make the same writes to the hasher. *)
Theorem version_hash_consistent : forall a b,
  version_eq a b = true -> version_hash a = version_hash b.
Proof.
  intros a b H. unfold version_eq in H. repeat rewrite andb_true_iff in H.
  destruct H as [[[[H1 H2] H3] H4] H5]. apply N.eqb_eq in H1, H2, H3, H4.
  unfold version_hash. rewrite H1, H2, H3, H4, (ids_hash_eq _ _ H5). reflexivity.
Qed.

(** *** Version selection: which satisfying version is picked *)

From Stdlib Require Import Sorting.Sorted.

Definition vle (a b : Version) : Prop := version_le a b = true.

Lemma vle_trans : forall a b c, vle a b -> vle b c -> vle a c.
Proof. unfold vle; intros; vsolve. Qed.

Lemma vle_total : forall a b, vle a b \/ vle b a.
Proof. unfold vle; intros a b. destruct (version_le a b) eqn:E; auto. right. vsolve. Qed.

Lemma insert_sorted_sorted : forall v l,
  StronglySorted vle l -> StronglySorted vle (insert_sorted v l).
Proof.
  intros v l. induction l as [|x l IH]; intros H; simpl.
  - repeat constructor.
  - inversion H as [|? ? Hl Hx]; subst.
    destruct (version_le v x) eqn:E.
    + constructor; [exact H|]. constructor; [exact E|].
      eapply Forall_impl; [|exact Hx]. intros w Hw. eapply vle_trans; eauto.
    + constructor; [auto|]. apply Forall_forall. intros w Hw.
      apply insert_sorted_in in Hw as [<-|Hw].
      * unfold vle. vsolve.
      * rewrite Forall_forall in Hx. auto.
Qed.

Lemma sort_unstable_sorted : forall l, StronglySorted vle (sort_unstable l).
Proof.
  induction l as [|x l IH]; simpl; [constructor|]. apply insert_sorted_sorted, IH.
Qed.

Lemma sorted_split : forall a v b,
  StronglySorted vle (a ++ v :: b) ->
  (forall w, In w a -> vle w v) /\ (forall w, In w b -> vle v w).
Proof.
  induction a as [|x a IH]; intros v b H; simpl in H; inversion H as [|? ? Hs Hf]; subst.
  - split; [intros w []|]. rewrite Forall_forall in Hf. exact Hf.
  - destruct (IH v b Hs) as [H1 H2]. split; [|exact H2].
    intros w [<-|Hw]; [|auto]. rewrite Forall_forall in Hf. apply Hf, in_or_app. right; left; reflexivity.
Qed.

Lemma find_satisfying_split : forall r l v,
  find_satisfying r l = Returns (Some v) ->
  exists a b, l = a ++ v :: b /\ range_satisfies r v = Returns true /\
    forall w, In w a -> range_satisfies r w = Returns false.
Proof.
  intros r l v. induction l as [|x l IH]; simpl; [discriminate|].
  destruct (range_satisfies r x) as [[|]|] eqn:E; simpl; try discriminate.
  - intros H. injection H as <-. exists [], l. repeat split; auto. intros w [].
  - intros H. destruct (IH H) as (a & b & -> & Hv & Ha).
    exists (x :: a), b. repeat split; auto. intros w [<-|Hw]; auto.
Qed.

(** [VersionPicker::pick_version] returns a member of [versions] that
    satisfies the range, and among the candidates that satisfy the range and
    pass the pre-release filter it is the least one ([version_le]); when the
    range is floating or [force_floating] is set it is the greatest one. *)
Theorem pick_version_extremal : forall force_floating req_is_floating r vs v,
  pick_version force_floating req_is_floating r vs = Returns (Some v) ->
  In v vs /\ range_satisfies r v = Returns true /\
  forall w, In w vs -> range_satisfies r w = Returns true ->
    range_has_pre_release r = Returns true \/ w.(pre_release) = [] ->
    if req_is_floating || force_floating then version_le w v = true
    else version_le v w = true.
Proof.
  intros ff fl r vs v H. unfold pick_version in H.
  destruct (range_has_pre_release r) as [ip|] eqn:Hp; simpl in H; [|discriminate].
  set (f := fun v0 : Version => ip || is_empty (pre_release v0)) in H.
  pose proof (sort_unstable_sorted (filter f vs)) as Hs.
  assert (Hin : forall w, In w vs -> range_satisfies r w = Returns true ->
    range_has_pre_release r = Returns true \/ pre_release w = [] ->
    In w (sort_unstable (filter f vs))).
  { intros w Hw _ Hq. apply sort_unstable_in, filter_In. split; [exact Hw|].
    unfold f. destruct Hq as [Hq|Hq].
    - rewrite Hp in Hq. injection Hq as ->. reflexivity.
    - rewrite Hq. apply orb_true_r. }
  destruct (fl || ff).
  - apply find_satisfying_split in H as (a & b & E & Hv & Ha).
    assert (Hv' : In v (sort_unstable (filter f vs))).
    { apply in_rev. rewrite E. apply in_or_app. right; left; reflexivity. }
    apply sort_unstable_in, filter_In in Hv' as [Hv' _].
    split; [exact Hv'|]. split; [exact Hv|].
    intros w Hw Hr Hq. rewrite <- Hp in Hq. specialize (Hin w Hw Hr Hq).
    assert (E' : sort_unstable (filter f vs) = rev b ++ v :: rev a).
    { rewrite <- (rev_involutive (sort_unstable _)), E, rev_app_distr. simpl.
      rewrite <- app_assoc. reflexivity. }
    rewrite E' in Hs, Hin. destruct (sorted_split _ _ _ Hs) as [H1 H2].
    apply in_app_or in Hin as [Hw'|[<-|Hw']].
    + apply H1, Hw'.
    + unfold version_le. rewrite vc_refl. reflexivity.
    + apply in_rev in Hw'. specialize (Ha w Hw'). congruence.
  - apply find_satisfying_split in H as (a & b & E & Hv & Ha).
    assert (Hv' : In v (sort_unstable (filter f vs))).
    { rewrite E. apply in_or_app. right; left; reflexivity. }
    apply sort_unstable_in, filter_In in Hv' as [Hv' _].
    split; [exact Hv'|]. split; [exact Hv|].
    intros w Hw Hr Hq. rewrite <- Hp in Hq. specialize (Hin w Hw Hr Hq).
    rewrite E in Hs, Hin. destruct (sorted_split _ _ _ Hs) as [H1 H2].
    apply in_app_or in Hin as [Hw'|[<-|Hw']].
    + specialize (Ha w Hw'). congruence.
    + unfold version_le. rewrite vc_refl. reflexivity.
    + apply H2, Hw'.
Qed.

(** *** Containment and overlap tests *)

Lemma upper_lower_lt : forall a b, is_upper a = true -> is_lower b = true ->
  bound_cmp a b = Lt -> position_cmp (position a) (position b) = Lt.
Proof.
  intros a b Ha Hb; bound_cases a v; bound_cases b w; simpl; unfold position_cmp; vsolve.
Qed.

Lemma upper_le_pos : forall a b, is_upper a = true -> is_upper b = true ->
  bound_le a b = true ->
  cmp_le (position_cmp (position a) (position b)) = true \/
  exists x y, a = Upper (Including x) /\ b = Upper (Excluding y) /\ version_eq x y = true.
Proof.
  intros a b Ha Hb; bound_cases a v; bound_cases b w; unfold bound_le; simpl;
    unfold position_cmp; rewrite ?version_eq_cmp; try (left; vsolve; fail).
  intros H. destruct (version_cmp v w) eqn:E;
    [right; exists v, w; rewrite version_eq_cmp, E; auto|left; reflexivity|left; vsolve].
Qed.

Lemma cs_allows_any_sound : forall s o v, cs_wk s = true -> cs_wk o = true ->
  cs_allows_any s o = false -> cs_sat s v && cs_sat o v = false.
Proof.
  intros [us ls] [uo lo] v Hs Ho H. unfold cs_wk, cs_sat, cs_allows_any, bound_lt in *.
  cbn [lower upper] in *. apply andb_true_iff in Hs as [Hls Hus].
  apply andb_true_iff in Ho as [Hlo Huo].
  rewrite bsat_lower, bsat_upper, bsat_lower, bsat_upper by assumption.
  destruct (bound_cmp uo ls) eqn:E1.
  - destruct (bound_cmp us lo) eqn:E2; try discriminate.
    apply upper_lower_lt in E2; auto. psolve.
  - apply upper_lower_lt in E1; auto. psolve.
  - destruct (bound_cmp us lo) eqn:E2; try discriminate.
    apply upper_lower_lt in E2; auto. psolve.
Qed.

(** [Range::allows_any] answers [false] only on ranges that share no
    version (for ranges whose sets have a lower and an upper bound, as the
    parser builds them); the converse fails: [<1.0.0] and [>1.0.0] share no
    version, yet [allows_any] answers [true], because [Bound::cmp] puts
    [Upper(Excluding(v))] and [Lower(Excluding(v))] at the same place. *)
Theorem range_allows_any_sound :
  (forall A B v,
     Forall (fun c => cs_wk c = true) A.(comparators) ->
     Forall (fun c => cs_wk c = true) B.(comparators) ->
     range_allows_any A B = false ->
     ~ (range_satisfies A v = Returns true /\ range_satisfies B v = Returns true)) /\
  (exists A B,
     range_parse (lit "<1.0.0") = Returns (Ok A) /\
     range_parse (lit ">1.0.0") = Returns (Ok B) /\
     range_allows_any A B = true /\
     forall v, ~ (range_satisfies A v = Returns true /\ range_satisfies B v = Returns true)).
Proof.
  split.
  - intros A B v HA HB H [Ha Hb].
    apply (in_range_iff A v HA) in Ha as (c & Hc & Hcv).
    apply (in_range_iff B v HB) in Hb as (d & Hd & Hdv).
    unfold range_allows_any in H.
    assert (E : cs_allows_any c d = false).
    { destruct (cs_allows_any c d) eqn:E; [|reflexivity]. exfalso.
      assert (existsb (fun this => existsb (fun that => cs_allows_any this that)
                (comparators B)) (comparators A) = true) as F; [|congruence].
      apply existsb_exists. exists c. split; [exact Hc|].
      apply existsb_exists. exists d. auto. }
    rewrite Forall_forall in HA, HB.
    pose proof (cs_allows_any_sound c d v (HA c Hc) (HB d Hd) E) as F.
    rewrite Hcv, Hdv in F. discriminate.
  - eexists; eexists. split; [vm_compute; reflexivity|].
    split; [vm_compute; reflexivity|]. split; [vm_compute; reflexivity|].
    intros v [Ha Hb]. unfold range_satisfies in *. cbn in Ha, Hb.
    unfold cs_satisfies in Ha, Hb. cbn in Ha, Hb.
    destruct (version_lt v (mkVersion 1 0 0 0 [] [])) eqn:E1;
      destruct (version_lt (mkVersion 1 0 0 0 [] []) v) eqn:E2;
      cbn in Ha, Hb; try discriminate. vsolve.
Qed.

Lemma cs_allows_all_sound : forall s o, cs_wk s = true -> cs_wk o = true ->
  cs_allows_all s o = true ->
  (forall v, cs_sat o v = true -> cs_sat s v = true) \/
  exists x y, o.(upper) = Upper (Including x) /\ s.(upper) = Upper (Excluding y) /\
    version_eq x y = true.
Proof.
  intros [us ls] [uo lo] Hs Ho H. unfold cs_wk, cs_sat, cs_allows_all in *.
  cbn [lower upper] in *. apply andb_true_iff in Hs as [Hls Hus].
  apply andb_true_iff in Ho as [Hlo Huo]. apply andb_true_iff in H as [H1 H2].
  destruct (upper_le_pos uo us Huo Hus H2) as [P|P]; [left|right; exact P].
  unfold bound_le in H1. rewrite lower_cmp in H1 by assumption.
  intros v Hv. apply andb_true_iff in Hv as [Hv1 Hv2]. apply andb_true_iff. split.
  - apply (lower_mono ls lo); auto.
  - apply (upper_mono uo us); auto.
Qed.

(** [Range::allows_all] answers [true] when one set of [self] contains one
    set of [other] (not every set of [other]); the set of [self] then holds
    every version of that set of [other], except when that set has the
    upper bound [Upper(Including(x))] and the set of [self] the upper bound
    [Upper(Excluding(y))] with [x == y]: [Bound::cmp] orders these the wrong
    way round, and [[1.0.0,2.0.0)] allows all of [[1.0.0,2.0.0]] though
    only the second holds [2.0.0]. *)
Theorem range_allows_all_sound :
  (forall A B,
     Forall (fun c => cs_wk c = true) A.(comparators) ->
     Forall (fun c => cs_wk c = true) B.(comparators) ->
     range_allows_all A B = true ->
     exists this that, In this A.(comparators) /\ In that B.(comparators) /\
       ((forall v, cs_satisfies that v = Returns true -> cs_satisfies this v = Returns true) \/
        exists x y, that.(upper) = Upper (Including x) /\
          this.(upper) = Upper (Excluding y) /\ version_eq x y = true)) /\
  (exists A B,
     range_parse (lit "[1.0.0,2.0.0)") = Returns (Ok A) /\
     range_parse (lit "[1.0.0,2.0.0]") = Returns (Ok B) /\
     range_allows_all A B = true /\
     range_satisfies A (mkVersion 2 0 0 0 [] []) = Returns false /\
     range_satisfies B (mkVersion 2 0 0 0 [] []) = Returns true).
Proof.
  split.
  - intros A B HA HB H. unfold range_allows_all in H.
    apply existsb_exists in H as (c & Hc & H). apply existsb_exists in H as (d & Hd & H).
    rewrite Forall_forall in HA, HB.
    exists c, d. split; [exact Hc|]. split; [exact Hd|].
    destruct (cs_allows_all_sound c d (HA c Hc) (HB d Hd) H) as [P|P]; [left|right; exact P].
    intros v. rewrite !cs_satisfies_wk by auto. intros E. injection E as E.
    rewrite (P v E). reflexivity.
  - eexists; eexists. split; [vm_compute; reflexivity|].
    split; [vm_compute; reflexivity|]. vm_compute. auto.
Qed.

(** *** [Range::any] *)

(** [Range::any()] does not panic, holds every version, has no pre-release
    bound and allows all of every range with at least one set; but its [Display]
    form ["*"] parses back to [>=0.0.0 <1.0.0-0], a different range that
    misses [1.0.0]. *)
Theorem range_any_spec :
  exists R, range_any = Returns R /\
    (forall v, range_satisfies R v = Returns true) /\
    range_has_pre_release R = Returns false /\
    (forall B, B.(comparators) <> [] -> range_allows_all R B = true) /\
    range_to_string R = Returns (lit "*") /\
    exists R', range_parse (lit "*") = Returns (Ok R') /\
      range_eq R R' = false /\
      range_satisfies R' (mkVersion 1 0 0 0 [] []) = Returns false.
Proof.
  eexists. split; [vm_compute; reflexivity|].
  split; [intros v; reflexivity|].
  split; [reflexivity|].
  split.
  - intros [[|c cs]] Hn; [exfalso; apply Hn; reflexivity|]. cbn [comparators].
    unfold range_allows_all. cbn [comparators existsb].
    destruct c as [u l]. unfold cs_allows_all, bound_le. cbn [lower upper].
    destruct l as [[]|[]], u as [[]|[]]; reflexivity.
  - split; [vm_compute; reflexivity|]. eexists. split; [vm_compute; reflexivity|].
    vm_compute. auto.
Qed.

(** *** [Range::parse]: no panic, well-formed ranges *)

Lemma Tame_map_opt : forall {A B} (p : Parser A) (f : A -> outcome (option B)),
  Tame p -> Produces p (fun a => f a <> Panics) -> Tame (map_opt p f).
Proof.
  intros A B p f Hp Hf i. unfold map_opt. pose proof (Hp i) as T.
  destruct (p i) as [r a|[e|e|]|] eqn:E; auto.
  pose proof (Hf _ _ _ E) as F.
  destruct (f a) as [[b|]|] eqn:G; [exact T | split; [apply suffix_refl | exact I] | congruence].
Qed.

Lemma Produces_map_opt : forall {A B} (p : Parser A) (f : A -> outcome (option B)) Q R,
  Produces p Q -> (forall a b, Q a -> f a = Returns (Some b) -> R b) ->
  Produces (map_opt p f) R.
Proof.
  intros A B p f Q R Hp Hf i r b. unfold map_opt.
  destruct (p i) as [r1 a|[e|e|]|] eqn:E; try discriminate.
  destruct (f a) as [[c|]|] eqn:F; try discriminate.
  intros H. injection H as <- <-. exact (Hf _ _ (Hp _ _ _ E) F).
Qed.

Lemma Produces_tag : forall t, Produces (tag t) (fun s => s = t).
Proof.
  intros t i r a. unfold tag. destruct (strip_prefix t i); [|discriminate].
  intros H. injection H as _ <-. reflexivity.
Qed.

Lemma Produces_weaken : forall {A} (p : Parser A) (Q R : A -> Prop),
  Produces p Q -> (forall a, Q a -> R a) -> Produces p R.
Proof. intros A p Q R Hp H i r a E. exact (H a (Hp _ _ _ E)). Qed.

Lemma Produces_any : forall {A} (p : Parser A), Produces p (fun _ => True).
Proof. intros A p i r a _. exact I. Qed.

Lemma opt_none_rest : forall {A} (p : Parser A) i r, opt p i = IOk r None -> r = i.
Proof.
  intros A p i r. unfold opt.
  destruct (p i) as [r1 a|[e|e|]|]; try discriminate; intros H; injection H; auto.
Qed.

(** The components a [PartialVersion] can be missing: a missing minor
    implies a missing patch, a missing patch a missing revision. *)
Definition pv_shape (p : PartialVersion) : Prop :=
  let '(_, minor, patch, revision, _, _) := p in
  (minor = None -> patch = None) /\ (patch = None -> revision = None).

Lemma partial_version_shape : Produces partial_version pv_shape.
Proof.
  intros i r a H. unfold partial_version, pmap, pbind, ret in H.
  destruct (opt number_or_star i) as [r1 M| |]; try discriminate.
  destruct (maybe_dot_number r1) as [r2 m| |] eqn:E2; try discriminate.
  destruct (maybe_dot_number r2) as [r3 p| |] eqn:E3; try discriminate.
  destruct (maybe_dot_number r3) as [r4 rv| |] eqn:E4; try discriminate.
  destruct (extras r4) as [r5 [pre b]| |]; try discriminate.
  injection H as _ <-. simpl. split; intros ->.
  - pose proof (opt_none_rest _ _ _ E2) as ->. congruence.
  - pose proof (opt_none_rest _ _ _ E3) as ->. congruence.
Qed.

Lemma Tame_partial_version : Tame partial_version.
Proof.
  unfold partial_version, maybe_dot_number, number_or_star.
  apply Tame_pmap.
  repeat (first [apply Tame_extras | apply Tame_pbind; [|intros ?]]);
    auto using Tame_opt, Tame_alt, Tame_number, Tame_pmap, Tame_tag, Tame_preceded,
      Tame_ret.
Qed.

Lemma Tame_space0 : Tame space0.
Proof. apply Tame_take_while. Qed.

Lemma cs_new_valid : forall lo up c, is_lower lo = true -> is_upper up = true ->
  cs_new lo up = Some c -> cs_valid c.
Proof.
  intros lo up c Hl Hu H. pose proof (cs_new_shape _ _ _ H) as ->.
  unfold cs_valid; cbn [lower upper]. auto.
Qed.

Lemma Returns_inj : forall {A} (a b : A), Returns a = Returns b -> a = b.
Proof. intros A a b H. injection H. auto. Qed.

Ltac cs_new_out :=
  match goal with
  | H : Returns _ = Returns (Some _) |- _ =>
      apply Returns_inj in H; try unfold at_least in H; try unfold at_most in H;
      try unfold exact in H;
      eapply cs_new_valid; [| |exact H]; reflexivity
  end.

Lemma Produces_plain_version_range : Produces plain_version_range cs_valid.
Proof.
  apply Produces_context. eapply Produces_map_opt; [apply Produces_any|].
  intros [[[[[M m] p] rv] pre] bu] b _ H. cs_new_out.
Qed.

Lemma Tame_plain_version_range : Tame plain_version_range.
Proof.
  apply Tame_context, Tame_map_opt; [apply Tame_partial_version|].
  intros i r [[[[[M m] p] rv] pre] bu] _. discriminate.
Qed.

Lemma Produces_operation_version :
  Produces (tuple2 operation (preceded space0 partial_version)) (fun a => pv_shape (snd a)).
Proof.
  unfold tuple2. eapply Produces_pbind; [apply Produces_any|]. intros op _.
  eapply Produces_pbind; [|intros pv Hpv; apply Produces_ret; exact Hpv].
  unfold preceded. eapply Produces_pbind; [apply Produces_any|]. intros _ _.
  apply partial_version_shape.
Qed.

Lemma Tame_operation : Tame operation.
Proof. unfold operation. apply Tame_context. repeat apply Tame_alt; apply Tame_pmap, Tame_tag. Qed.

Lemma Tame_any_operation : Tame any_operation_followed_by_version.
Proof.
  apply Tame_context, Tame_map_opt.
  - apply Tame_tuple2; [apply Tame_operation|]. apply Tame_preceded; [apply Tame_space0|].
    apply Tame_partial_version.
  - eapply Produces_weaken; [apply Produces_operation_version|].
    intros [op [[[[[M m] p] rv] pre] bu]] [H1 H2]; cbn [snd] in *.
    destruct op, m, p, rv; try discriminate;
      try (specialize (H1 eq_refl); discriminate);
      try (specialize (H2 eq_refl); discriminate).
Qed.

Lemma Produces_any_operation : Produces any_operation_followed_by_version cs_valid.
Proof.
  apply Produces_context. eapply Produces_map_opt; [apply Produces_any|].
  intros [op [[[[[M m] p] rv] pre] bu]] b _ H.
  destruct op, m, p, rv; try discriminate; cs_new_out.
Qed.

(** What [brackets_range] has read when its closure runs. *)
Definition brackets_shape (a : str * option PartialVersion * option str *
                               option PartialVersion * str) : Prop :=
  let '(open, _, _, _, close) := a in
  (open = lit "[" \/ open = lit "(") /\ (close = lit "]" \/ close = lit ")").

Lemma Produces_open_brace : Produces open_brace (fun s => s = lit "[" \/ s = lit "(").
Proof.
  apply Produces_context, Produces_alt;
    (eapply Produces_weaken; [apply Produces_tag|]); intros a ->; auto.
Qed.

Lemma Produces_close_brace : Produces close_brace (fun s => s = lit "]" \/ s = lit ")").
Proof.
  apply Produces_context, Produces_alt;
    (eapply Produces_weaken; [apply Produces_tag|]); intros a ->; auto.
Qed.

Lemma Produces_brackets_body :
  Produces (open <- open_brace ;; _ <- space0 ;; lower <- opt partial_version ;;
            _ <- space0 ;; comma <- opt (tag (lit ",")) ;; _ <- space0 ;;
            upper <- opt partial_version ;; _ <- space0 ;; close <- close_brace ;;
            ret (open, lower, comma, upper, close)) brackets_shape.
Proof.
  eapply Produces_pbind; [apply Produces_open_brace|]. intros o Ho.
  do 7 (eapply Produces_pbind; [apply Produces_any|]; intros ? _).
  eapply Produces_pbind; [apply Produces_close_brace|]. intros c Hc.
  apply Produces_ret. simpl. auto.
Qed.

Lemma Tame_brackets_body :
  Tame (open <- open_brace ;; _ <- space0 ;; lower <- opt partial_version ;;
        _ <- space0 ;; comma <- opt (tag (lit ",")) ;; _ <- space0 ;;
        upper <- opt partial_version ;; _ <- space0 ;; close <- close_brace ;;
        ret (open, lower, comma, upper, close)).
Proof.
  unfold open_brace, close_brace.
  repeat (apply Tame_pbind; [|intros ?]);
    auto using Tame_context, Tame_alt, Tame_tag, Tame_space0, Tame_opt,
      Tame_partial_version, Tame_ret.
Qed.

Lemma Tame_brackets_range : Tame brackets_range.
Proof.
  apply Tame_context, Tame_map_opt; [apply Tame_brackets_body|].
  eapply Produces_weaken; [apply Produces_brackets_body|].
  intros [[[[o l] c] u] cl] [Ho Hc].
  destruct Ho as [-> | ->], Hc as [-> | ->], l, u, c; discriminate.
Qed.

Lemma Produces_brackets_range : Produces brackets_range cs_valid.
Proof.
  apply Produces_context. eapply Produces_map_opt; [apply Produces_brackets_body|].
  intros [[[[o l] c] u] cl] b [Ho Hc] H.
  destruct Ho as [-> | ->], Hc as [-> | ->], l, u, c; unfold bracket_pred in H;
    cbn -[cs_new pv_version] in H; try discriminate; cs_new_out.
Qed.

Lemma Tame_comparators_parser : Tame comparators_parser.
Proof.
  unfold comparators_parser.
  auto using Tame_alt, Tame_brackets_range, Tame_any_operation, Tame_plain_version_range.
Qed.

Lemma Produces_comparators_parser : Produces comparators_parser cs_valid.
Proof.
  unfold comparators_parser.
  auto using Produces_alt, Produces_brackets_range, Produces_any_operation,
    Produces_plain_version_range.
Qed.

Lemma Tame_range : Tame range.
Proof.
  apply Tame_context, Tame_separated_list1; [|apply Tame_comparators_parser].
  repeat (apply Tame_pbind; [|intros ?]); auto using Tame_space0, Tame_tag.
Qed.

Lemma sep_loop_extends : forall {A Sep} (sep : Parser Sep) (f : Parser A) fuel i res r out,
  sep_loop sep f fuel i res = IOk r out -> exists t, out = res ++ t.
Proof.
  intros A Sep sep f. induction fuel as [|fuel IH]; intros i res r out H; cbn [sep_loop] in H.
  - injection H as _ <-. exists []. rewrite app_nil_r. reflexivity.
  - destruct (sep i) as [i1 s|[e|e|]|]; try discriminate.
    + destruct (Nat.eqb _ _); [discriminate|].
      destruct (f i1) as [i2 o|[e|e|]|]; try discriminate.
      * destruct (IH _ _ _ _ H) as [t ->]. exists (o :: t). rewrite <- app_assoc. reflexivity.
      * injection H as _ <-. exists []. rewrite app_nil_r. reflexivity.
    + injection H as _ <-. exists []. rewrite app_nil_r. reflexivity.
Qed.

Lemma Produces_range : Produces range (fun l => l <> [] /\ Forall cs_valid l).
Proof.
  apply Produces_context. intros i r l H. split.
  - unfold separated_list1 in H. destruct (comparators_parser i) as [i1 o| |]; try discriminate.
    destruct (sep_loop_extends _ _ _ _ _ _ _ H) as [t ->]. discriminate.
  - exact (Produces_separated_list1 _ _ _ Produces_comparators_parser _ _ _ H).
Qed.

(** [Range::parse] never panics (none of the [unreachable!()] arms of its
    closures can be reached); every range it returns has at least one set,
    and each set has a lower and an upper bound and is what
    [ComparatorSet::new] returns for them; every error it returns carries
    the input and the byte length of a prefix of it as offset, and it never
    reports [MaxLengthError] (there is no length limit) nor
    [IncompleteInput]. *)
Theorem range_parse_spec :
  (forall s, exists r, range_parse s = Returns r) /\
  (forall s R, range_parse s = Returns (Ok R) -> range_valid R) /\
  (forall s e, range_parse s = Returns (Err e) ->
     e.(err_input) = s /\
     (exists k, e.(err_offset) = byte_len (firstn k s)) /\
     e.(err_kind) <> MaxLengthError /\ e.(err_kind) <> IncompleteInput).
Proof.
  split; [|split].
  - intros s. unfold range_parse. pose proof (Tame_all_consuming _ Tame_range s) as T.
    destruct (all_consuming range s) as [r v|[e|e|]|]; cbn [to_semver_error]; eauto;
      contradiction.
  - intros s R. unfold range_parse.
    destruct (all_consuming range s) as [r v|[e|e|]|] eqn:E; cbn [to_semver_error];
      try discriminate; [|destruct (byte_len s =? 0); discriminate].
    intros H. injection H as <-. unfold range_valid; cbn [comparators].
    exact (Produces_all_consuming _ _ Produces_range _ _ _ E).
  - intros s e. unfold range_parse. pose proof (Tame_all_consuming _ Tame_range s) as T.
    destruct (all_consuming range s) as [r v|[pe|pe|]|]; cbn [to_semver_error];
      try discriminate; try contradiction;
    intros H; injection H as <-; destruct T as [[k Hk] Hok]; cbn;
    (split; [reflexivity | split; [exists k; rewrite <- Hk; apply byte_len_firstn_skipn|]]);
    unfold kind_ok in Hok;
    destruct (pe_kind pe) as [[]|]; try contradiction;
    try (destruct (pe_context pe)); split; discriminate.
Qed.

(** *** [SemverError::location] *)

(** The characters of [p] after its last line feed. *)
Definition last_line (p : str) : str :=
  rev (fst (span (fun c => negb (c =? 10)) (rev p))).

Lemma as_bytes_app : forall a b, as_bytes (a ++ b) = as_bytes a ++ as_bytes b.
Proof. intros a b. unfold as_bytes. apply flat_map_app. Qed.

Lemma utf8_encode_length : forall c, N.of_nat (List.length (utf8_encode c)) = utf8_len c.
Proof.
  intros c. unfold utf8_encode, utf8_len.
  destruct (c <? 128); [reflexivity|]. destruct (c <? 2048); [reflexivity|].
  destruct (c <? 65536); reflexivity.
Qed.

Lemma as_bytes_length : forall s, N.of_nat (List.length (as_bytes s)) = byte_len s.
Proof.
  induction s as [|c s IH]; [reflexivity|].
  change (as_bytes (c :: s)) with (utf8_encode c ++ as_bytes s).
  rewrite length_app, Nat2N.inj_add, IH, utf8_encode_length, byte_len_cons. reflexivity.
Qed.

Lemma utf8_encode_high : forall c, 128 <= c -> Forall (fun b => 128 <= b) (utf8_encode c).
Proof.
  intros c H. unfold utf8_encode.
  destruct (c <? 128) eqn:E1; [apply N.ltb_lt in E1; lia|].
  destruct (c <? 2048); [|destruct (c <? 65536)];
    repeat (apply Forall_cons; [cbv beta; match goal with |- _ <= _ + ?b => pose proof (N.le_0_l b); lia end|]);
    apply Forall_nil.
Qed.

Lemma count_occ_high : forall l, Forall (fun b => 128 <= b) l -> count_occ N.eq_dec l 10 = O.
Proof.
  intros l H. induction H as [|b l Hb _ IH]; [reflexivity|]. simpl.
  destruct (N.eq_dec b 10); [lia|exact IH].
Qed.

Lemma utf8_count_nl : forall c,
  count_occ N.eq_dec (utf8_encode c) 10 = count_occ N.eq_dec [c] 10.
Proof.
  intros c. destruct (c <? 128) eqn:E.
  - unfold utf8_encode. rewrite E. reflexivity.
  - apply N.ltb_ge in E. rewrite count_occ_high by (apply utf8_encode_high; lia).
    simpl. destruct (N.eq_dec c 10); [lia|reflexivity].
Qed.

Lemma as_bytes_count : forall s, count_occ N.eq_dec (as_bytes s) 10 = count_occ N.eq_dec s 10.
Proof.
  induction s as [|c s IH]; [reflexivity|].
  change (as_bytes (c :: s)) with (utf8_encode c ++ as_bytes s).
  change (c :: s) with ([c] ++ s). rewrite !count_occ_app, IH, utf8_count_nl. reflexivity.
Qed.

Lemma as_bytes_no_nl : forall t, forallb (fun c => negb (c =? 10)) t = true ->
  forallb (fun b => negb (b =? 10)) (as_bytes t) = true.
Proof.
  induction t as [|c t IH]; intros H; [reflexivity|].
  simpl in H. apply andb_true_iff in H as [H1 H2].
  change (as_bytes (c :: t)) with (utf8_encode c ++ as_bytes t).
  rewrite forallb_app, IH by exact H2. rewrite andb_true_r.
  destruct (c <? 128) eqn:E.
  - unfold utf8_encode. rewrite E. simpl. rewrite H1. reflexivity.
  - apply N.ltb_ge in E. apply forallb_forall. intros b Hb.
    pose proof (utf8_encode_high c E) as F. rewrite Forall_forall in F.
    specialize (F b Hb). destruct (b =? 10) eqn:G; [apply N.eqb_eq in G; lia|reflexivity].
Qed.

Lemma forallb_rev : forall {A} (f : A -> bool) l, forallb f (rev l) = forallb f l.
Proof.
  intros A f l. induction l as [|x l IH]; [reflexivity|]. simpl.
  rewrite forallb_app, IH. simpl. rewrite andb_true_r, andb_comm. reflexivity.
Qed.

Lemma position_of_app : forall p l1 l2, forallb (fun b => negb (p b)) l1 = true ->
  position_of p (l1 ++ l2) =
  option_map (fun n => N.of_nat (List.length l1) + n) (position_of p l2).
Proof.
  intros p. induction l1 as [|x l1 IH]; intros l2 H.
  - simpl. destruct (position_of p l2); reflexivity.
  - cbn [forallb] in H. apply andb_true_iff in H as [H1 H2]. cbn [app position_of].
    destruct (p x); [discriminate|]. rewrite (IH l2 H2).
    destruct (position_of p l2); cbn [option_map]; [|reflexivity].
    f_equal. cbn [List.length]. rewrite Nat2N.inj_succ. lia.
Qed.

Lemma utf8_first : forall c, exists b l, utf8_encode c = b :: l /\
  ((b <? 128) || (192 <=? b)) = true.
Proof.
  intros c. unfold utf8_encode. destruct (c <? 128) eqn:E.
  - eexists; eexists; split; [reflexivity|]. rewrite E. reflexivity.
  - destruct (c <? 2048); [|destruct (c <? 65536)];
      (eexists; eexists; split; [reflexivity|]); apply orb_true_iff; right;
      apply N.leb_le; match goal with |- _ <= _ + ?b => pose proof (N.le_0_l b); lia end.
Qed.

Lemma firstn_length_app : forall {A} (l l' : list A), firstn (List.length l) (l ++ l') = l.
Proof. intros A l l'. induction l as [|x l IH]; simpl; [reflexivity|]. rewrite IH. reflexivity. Qed.

Lemma boundary_prefix : forall a r, is_char_boundary (a ++ r) (byte_len a) = true.
Proof.
  intros a r. unfold is_char_boundary. destruct (byte_len a =? 0); [reflexivity|].
  rewrite as_bytes_app, <- (as_bytes_length a), Nat2N.id.
  rewrite nth_error_app2, PeanoNat.Nat.sub_diag by lia.
  destruct r as [|c r].
  - simpl. rewrite app_nil_r, N.eqb_refl. reflexivity.
  - change (as_bytes (c :: r)) with (utf8_encode c ++ as_bytes r).
    destruct (utf8_first c) as (b & l & -> & Hb). exact Hb.
Qed.

Lemma location_split : forall a t q kind,
  forallb (fun c => negb (c =? 10)) t = true ->
  (a = [] \/ exists a', a = a' ++ [10]) ->
  location (mkSemverError (a ++ t ++ q) (byte_len (a ++ t)) kind) =
  Returns (N.of_nat (count_occ N.eq_dec (a ++ t) 10), byte_len t).
Proof.
  intros a t q kind Ht Ha. unfold location. cbn [err_input err_offset].
  assert (L : N.of_nat (List.length (as_bytes (a ++ t ++ q))) = byte_len (a ++ t) + byte_len q)
    by (rewrite as_bytes_length, !byte_len_app; lia).
  assert (E1 : (N.of_nat (List.length (as_bytes (a ++ t ++ q))) <? byte_len (a ++ t)) = false)
    by (rewrite L; apply N.ltb_ge; lia).
  rewrite E1. cbv zeta.
  assert (F : firstn (N.to_nat (byte_len (a ++ t))) (as_bytes (a ++ t ++ q)) = as_bytes (a ++ t)).
  { rewrite app_assoc, as_bytes_app, <- (as_bytes_length (a ++ t)), Nat2N.id.
    apply firstn_length_app. }
  rewrite F. unfold bytecount. rewrite as_bytes_count.
  assert (B2 : is_char_boundary (a ++ t ++ q) (byte_len (a ++ t)) = true)
    by (rewrite app_assoc; apply boundary_prefix).
  pose proof (as_bytes_no_nl t Ht) as Hbt.
  destruct Ha as [-> | [a' ->]].
  - cbn [app] in *. rewrite <- (app_nil_r (rev (as_bytes t))).
    rewrite position_of_app by (rewrite forallb_rev; exact Hbt).
    cbn [position_of option_map]. rewrite B2. cbn. rewrite N.sub_0_r. reflexivity.
  - rewrite as_bytes_app, as_bytes_app, rev_app_distr, rev_app_distr.
    change (as_bytes [10]) with [10]. cbn [rev app].
    rewrite position_of_app by (rewrite forallb_rev; exact Hbt).
    cbn [position_of option_map]. change ((10 =? 10)) with true. cbv iota.
    rewrite length_rev, as_bytes_length. cbn [option_map].
    replace (byte_len ((a' ++ [10]) ++ t) - (byte_len t + 0)) with (byte_len (a' ++ [10]))
      by (rewrite !byte_len_app; lia).
    rewrite boundary_prefix, B2. cbn [negb].
    f_equal. f_equal. rewrite !byte_len_app. lia.
Qed.

Lemma span_stop : forall f i x y, span f i = (x, y) ->
  y = [] \/ exists c y', y = c :: y' /\ f c = false.
Proof.
  intros f. induction i as [|c i IH]; intros x y H; simpl in H.
  - injection H as _ <-. auto.
  - destruct (f c) eqn:E.
    + destruct (span f i) as [x' y'] eqn:S. injection H as _ <-. eauto.
    + injection H as _ <-. right. eauto.
Qed.

Lemma location_firstn : forall s k kind,
  location (mkSemverError s (byte_len (firstn k s)) kind) =
  Returns (N.of_nat (count_occ N.eq_dec (firstn k s) 10), byte_len (last_line (firstn k s))).
Proof.
  intros s k kind. unfold last_line.
  destruct (span (fun c => negb (c =? 10)) (rev (firstn k s))) as [x y] eqn:S. cbn [fst].
  pose proof (span_app _ _ _ _ S) as A.
  assert (P : firstn k s = rev y ++ rev x)
    by (rewrite <- rev_app_distr, A, rev_involutive; reflexivity).
  rewrite <- (firstn_skipn k s) at 1. rewrite P, <- app_assoc.
  apply location_split.
  - rewrite forallb_rev. eapply span_forallb. exact S.
  - destruct (span_stop _ _ _ _ S) as [-> | (c & y' & -> & Hc)]; [left; reflexivity|].
    right. exists (rev y'). simpl. destruct (c =? 10) eqn:E; [|discriminate].
    apply N.eqb_eq in E. subst. reflexivity.
Qed.

Lemma to_semver_error_offset : forall {A} (p : Parser A) s e, Tame p ->
  to_semver_error s (all_consuming p s) = Returns (Err e) ->
  exists k kind, e = mkSemverError s (byte_len (firstn k s)) kind.
Proof.
  intros A p s e Hp. pose proof (Tame_all_consuming _ Hp s) as T.
  destruct (all_consuming p s) as [r v|[pe|pe|]|]; cbn [to_semver_error];
    try discriminate; try contradiction;
  intros H; injection H as <-; destruct T as [[k Hk] _];
  exists k; eexists; f_equal; rewrite <- Hk; apply byte_len_firstn_skipn.
Qed.

(** [SemverError::location] on the errors of [Version::parse] and
    [Range::parse]: it does not panic, and for an error at the byte offset
    of the [k]-th character it returns the number of line feeds before that
    character and the byte length of the text between the last of them and
    the offset: the column counts bytes from 0, not from 1. *)
Theorem semver_error_location :
  (forall s k kind,
     location (mkSemverError s (byte_len (firstn k s)) kind) =
     Returns (N.of_nat (count_occ N.eq_dec (firstn k s) 10),
              byte_len (last_line (firstn k s)))) /\
  (forall s e, version_parse s = Returns (Err e) \/ range_parse s = Returns (Err e) ->
     exists k, e.(err_offset) = byte_len (firstn k s) /\
       location e = Returns (N.of_nat (count_occ N.eq_dec (firstn k s) 10),
                             byte_len (last_line (firstn k s)))).
Proof.
  split; [exact location_firstn|].
  intros s e H.
  assert (exists k kind, e = mkSemverError s (byte_len (firstn k s)) kind) as (k & kind & ->).
  { destruct H as [H|H].
    - unfold version_parse in H. destruct (MAX_LENGTH <? byte_len s).
      + injection H as <-. exists 0%nat, MaxLengthError. reflexivity.
      + exact (to_semver_error_offset _ _ _ Tame_version H).
    - unfold range_parse in H.
      destruct (to_semver_error s (all_consuming range s)) as [[R|e']|] eqn:E;
        try discriminate.
      injection H as <-. exact (to_semver_error_offset _ _ _ Tame_range E). }
  exists k. split; [reflexivity|]. apply location_firstn.
Qed.

(** *** [Display for Range] and [Range::parse] on unbounded sets *)

Lemma strip_prefix_app : forall t i r, strip_prefix t i = Some r -> i = t ++ r.
Proof.
  induction t as [|c t IH]; intros [|d i] r H; cbn [strip_prefix] in H; try discriminate.
  - injection H as <-. reflexivity.
  - injection H as <-. reflexivity.
  - destruct (N.eqb_spec c d) as [<-|]; [|discriminate].
    rewrite (IH _ _ H). reflexivity.
Qed.

Lemma pmap_tag_ok : forall {B} t (f : str -> B) i r a, pmap (tag t) f i = IOk r a -> i = t ++ r.
Proof.
  intros B t f i r a. unfold pmap, pbind, tag, ret.
  destruct (strip_prefix t i) eqn:E; [|discriminate].
  intros H. injection H as <- _. exact (strip_prefix_app _ _ _ E).
Qed.

Lemma operation_head : forall i r o, operation i = IOk r o ->
  exists c i', i = c :: i' /\ op_char c = true.
Proof.
  intros i r o H. unfold operation, context, alt in H.
  repeat match type of H with
  | context [pmap (tag ?t) ?f i] =>
      let E := fresh "E" in
      destruct (pmap (tag t) f i) as [? ?|[?|?|]|] eqn:E; cbv beta iota in H;
      [apply pmap_tag_ok in E; subst i; eexists _, _; split; reflexivity|..]
  end; discriminate.
Qed.

Lemma any_operation_head : forall i r c, any_operation_followed_by_version i = IOk r c ->
  exists x i', i = x :: i' /\ op_char x = true.
Proof.
  intros i r c H. unfold any_operation_followed_by_version, context, map_opt, tuple2, pbind in H.
  destruct (operation i) as [r1 o| |] eqn:E; [|destruct e as [e|e|]; discriminate|discriminate].
  exact (operation_head _ _ _ E).
Qed.

Lemma no_op_app : forall a b, no_op (a ++ b) = no_op a && no_op b.
Proof. intros a b. unfold no_op. apply forallb_app. Qed.

Lemma no_op_suffix : forall r i, is_suffix r i -> no_op i = true -> no_op r = true.
Proof.
  intros r i [k <-] H. rewrite <- (firstn_skipn k i), no_op_app in H.
  apply andb_true_iff in H as [_ H]. exact H.
Qed.

Lemma no_op_head : forall c i, no_op (c :: i) = true -> op_char c = false.
Proof.
  intros c i H. unfold no_op in H. cbn [forallb] in H.
  apply andb_true_iff in H as [H _]. destruct (op_char c); [discriminate|reflexivity].
Qed.

Lemma NoError_ret : forall {A} (a : A), NoError (ret a).
Proof. intros A a i e. discriminate. Qed.

Lemma NoError_pbind : forall {A B} (p : Parser A) (k : A -> Parser B),
  NoError p -> (forall a, NoError (k a)) -> NoError (pbind p k).
Proof.
  intros A B p k Hp Hk i e. unfold pbind. specialize (Hp i e).
  destruct (p i) as [r a|[e'|e'|]|]; try discriminate; [apply Hk|].
  intros F. injection F as ->. exact (Hp eq_refl).
Qed.

Lemma NoError_pmap : forall {A B} (p : Parser A) (f : A -> B), NoError p -> NoError (pmap p f).
Proof. intros A B p f Hp. apply NoError_pbind; [exact Hp|]. intros a. apply NoError_ret. Qed.

Lemma NoError_opt : forall {A} (p : Parser A), NoError (opt p).
Proof.
  intros A p i e. unfold opt. destruct (p i) as [r a|[e'|e'|]|]; discriminate.
Qed.

(** Every component of a [PartialVersion] is optional: [partial_version]
    never reports a recoverable error. *)
Lemma NoError_partial_version : NoError partial_version.
Proof.
  unfold partial_version, maybe_dot_number, extras.
  apply NoError_pmap. repeat (apply NoError_pbind; [|intros ?]);
    auto using NoError_opt, NoError_pmap, NoError_ret.
Qed.

Lemma Produces_opt_some : forall {A} (p : Parser A), NoError p ->
  Produces (opt p) (fun o => o <> None).
Proof.
  intros A p Hp i r a. unfold opt. specialize (Hp i).
  destruct (p i) as [r1 b|[e|e|]|]; try discriminate.
  - intros H. injection H as _ <-. discriminate.
  - exfalso. exact (Hp e eq_refl).
Qed.

Lemma Produces_partial_version_ids : Produces partial_version pv_ids_ok.
Proof.
  unfold partial_version. eapply Produces_pmap.
  - do 4 (eapply Produces_pbind; [apply Produces_any|]; intros ? _).
    eapply Produces_pbind; [apply extras_wf|]. intros [pre bu] Hx.
    apply Produces_ret with
      (Q := fun '(_, _, _, _, (pre, bu)) => Forall wf_ident pre /\ Forall wf_ident bu).
    exact Hx.
  - intros [[[[M m] p] rv] [pre bu]] H. exact H.
Qed.

Ltac cs_new_subst :=
  match goal with
  | H : Returns _ = Returns (Some _) |- _ =>
      apply Returns_inj in H; try unfold at_least in H; try unfold at_most in H;
      try unfold exact in H; apply cs_new_shape in H; subst
  end.

Lemma wf_ident_zero : Forall wf_ident [Numeric 0].
Proof. constructor; [cbn [wf_ident]; unfold u64_max; lia | constructor]. Qed.

Ltac ids_ok_tac :=
  cbn [cs_ids_ok pred_ids_ok predicate lower upper pre_release build pv_ids_ok] in *;
  repeat match goal with H : _ /\ _ |- _ => destruct H end;
  repeat split; auto using wf_ident_zero.

Lemma Produces_plain_ids : Produces plain_version_range cs_ids_ok.
Proof.
  apply Produces_context. eapply Produces_map_opt; [apply Produces_partial_version_ids|].
  intros [[[[[M m] p] rv] pre] bu] b Hi H. cs_new_subst. ids_ok_tac.
Qed.

Lemma Produces_plain_bounded : Produces plain_version_range cs_bounded.
Proof.
  apply Produces_context. eapply Produces_map_opt; [apply Produces_any|].
  intros [[[[[M m] p] rv] pre] bu] b _ H. cs_new_subst. split; discriminate.
Qed.

Lemma Produces_any_operation_ids : Produces any_operation_followed_by_version cs_ids_ok.
Proof.
  apply Produces_context. eapply Produces_map_opt with (Q := fun a => pv_ids_ok (snd a)).
  - unfold tuple2. eapply Produces_pbind; [apply Produces_any|]. intros op _.
    eapply Produces_pbind; [|intros pv Hpv; apply Produces_ret; exact Hpv].
    unfold preceded. eapply Produces_pbind; [apply Produces_any|]. intros _ _.
    apply Produces_partial_version_ids.
  - intros [op [[[[[M m] p] rv] pre] bu]] b Hi H. cbn [snd] in Hi.
    destruct op, m, p, rv; try discriminate; cs_new_subst; ids_ok_tac.
Qed.

Lemma Produces_brackets_full :
  Produces (open <- open_brace ;; _ <- space0 ;; lower <- opt partial_version ;;
            _ <- space0 ;; comma <- opt (tag (lit ",")) ;; _ <- space0 ;;
            upper <- opt partial_version ;; _ <- space0 ;; close <- close_brace ;;
            ret (open, lower, comma, upper, close))
    (fun '(open, lower, comma, upper, close) =>
       (open = lit "[" \/ open = lit "(") /\ (close = lit "]" \/ close = lit ")") /\
       match lower with Some l => pv_ids_ok l | None => False end /\
       match upper with Some u => pv_ids_ok u | None => False end).
Proof.
  eapply Produces_pbind; [apply Produces_open_brace|]. intros o Ho.
  eapply Produces_pbind; [apply Produces_any|]; intros ? _.
  eapply Produces_pbind.
  { clear; intros j rj x E. exact (conj (Produces_opt_some _ NoError_partial_version _ _ _ E)
                              (Produces_opt _ _ Produces_partial_version_ids _ _ _ E)). }
  intros l [Hl1 Hl2].
  do 3 (eapply Produces_pbind; [apply Produces_any|]; intros ? _).
  eapply Produces_pbind.
  { clear; intros j rj x E. exact (conj (Produces_opt_some _ NoError_partial_version _ _ _ E)
                              (Produces_opt _ _ Produces_partial_version_ids _ _ _ E)). }
  intros u [Hu1 Hu2].
  eapply Produces_pbind; [apply Produces_any|]; intros ? _.
  eapply Produces_pbind; [apply Produces_close_brace|]. intros c Hc.
  apply Produces_ret. destruct l; [|congruence]. destruct u; [|congruence]. auto.
Qed.

Lemma Produces_brackets_bounded_ids : Produces brackets_range (fun c => cs_bounded c /\ cs_ids_ok c).
Proof.
  apply Produces_context. eapply Produces_map_opt; [apply Produces_brackets_full|].
  intros [[[[o l] c] u] cl] b [Ho [Hc [Hl Hu]]] H.
  destruct l as [l|]; [|contradiction]. destruct u as [u|]; [|contradiction].
  destruct l as [[[[[M m] p] rv] pre] bu], u as [[[[[M' m'] p'] rv'] pre'] bu'].
  destruct Ho as [-> | ->], Hc as [-> | ->]; unfold bracket_pred in H;
    cbn -[cs_new] in H; cs_new_subst; (split; [split; discriminate|]); ids_ok_tac.
Qed.

Lemma Produces_comparators_ids : Produces comparators_parser cs_ids_ok.
Proof.
  unfold comparators_parser. repeat apply Produces_alt.
  - eapply Produces_weaken; [apply Produces_brackets_bounded_ids|].
    intros a [_ H]. exact H.
  - apply Produces_any_operation_ids.
  - apply Produces_plain_ids.
Qed.

(** On an input without ['<'], ['='] or ['>'] only the bracket and plain
    forms apply, and both yield sets with two bounded sides. *)
Lemma comparators_no_op : forall i r c, no_op i = true ->
  comparators_parser i = IOk r c -> cs_bounded c.
Proof.
  intros i r c Hi H. unfold comparators_parser, alt in H.
  destruct (brackets_range i) as [r1 b|[e|e|]|] eqn:E1; try discriminate.
  - injection H as _ <-. exact (proj1 (Produces_brackets_bounded_ids _ _ _ E1)).
  - destruct (any_operation_followed_by_version i) as [r2 b|[e'|e'|]|] eqn:E2;
      try discriminate.
    + destruct (any_operation_head _ _ _ E2) as [x [i' [-> Hx]]].
      rewrite (no_op_head _ _ Hi) in Hx. discriminate.
    + exact (Produces_plain_bounded _ _ _ H).
Qed.

Lemma sep_loop_on : forall {A Sep} (sep : Parser Sep) (f : Parser A) (P : str -> Prop) Q,
  (forall i r a, P i -> sep i = IOk r a -> P r) ->
  (forall i r a, P i -> f i = IOk r a -> P r /\ Q a) ->
  forall fuel i res r out, P i -> Forall Q res ->
  sep_loop sep f fuel i res = IOk r out -> Forall Q out.
Proof.
  intros A Sep sep f P Q Hs Hf. induction fuel as [|fuel IH]; intros i res r out Hi Hres H;
    cbn [sep_loop] in H.
  - injection H as _ <-. exact Hres.
  - destruct (sep i) as [i1 s|[e|e|]|] eqn:S; try discriminate.
    + destruct (Nat.eqb _ _); [discriminate|].
      destruct (f i1) as [i2 o|[e|e|]|] eqn:E; try discriminate.
      * destruct (Hf _ _ _ (Hs _ _ _ Hi S) E) as [Hi2 Ho].
        eapply IH; [exact Hi2| |exact H]. apply Forall_app. split; [exact Hres|].
        constructor; [exact Ho|constructor].
      * injection H as _ <-. exact Hres.
    + injection H as _ <-. exact Hres.
Qed.

Lemma Tame_range_sep : Tame (_ <- space0 ;; _ <- tag (lit "||") ;; space0).
Proof. repeat (apply Tame_pbind; [|intros ?]); auto using Tame_space0, Tame_tag. Qed.

Lemma range_no_op : forall i r l, no_op i = true -> range i = IOk r l -> Forall cs_bounded l.
Proof.
  intros i r l Hi H. unfold range, context in H.
  destruct (separated_list1 _ comparators_parser i) as [r1 l1|[e|e|]|] eqn:E; try discriminate.
  injection H as _ <-. unfold separated_list1 in E.
  destruct (comparators_parser i) as [i1 o| |] eqn:C; try discriminate.
  pose proof (Tame_comparators_parser i) as T. rewrite C in T.
  apply sep_loop_on with (P := fun i => no_op i = true) (5 := E).
  - intros j r0 a Hj S. pose proof (Tame_range_sep j) as T'. rewrite S in T'.
    exact (no_op_suffix _ _ T' Hj).
  - intros j r0 a Hj F. pose proof (Tame_comparators_parser j) as T'. rewrite F in T'.
    split; [exact (no_op_suffix _ _ T' Hj) | exact (comparators_no_op _ _ _ Hj F)].
  - exact (no_op_suffix _ _ T Hi).
  - constructor; [exact (comparators_no_op _ _ _ Hi C)|constructor].
Qed.

Lemma Produces_range_ids : Produces range (Forall cs_ids_ok).
Proof.
  apply Produces_context, Produces_separated_list1, Produces_comparators_ids.
Qed.

Lemma ident_char_no_op : forall c, ident_char c = true -> op_char c = false.
Proof.
  intros c H. unfold op_char.
  destruct (N.eqb_spec c 60) as [->|]; [vm_compute in H; discriminate|].
  destruct (N.eqb_spec c 61) as [->|]; [vm_compute in H; discriminate|].
  destruct (N.eqb_spec c 62) as [->|]; [vm_compute in H; discriminate|].
  reflexivity.
Qed.

Lemma no_op_ident_chars : forall s, forallb ident_char s = true -> no_op s = true.
Proof.
  intros s H. unfold no_op. rewrite forallb_forall in *. intros x Hx.
  rewrite (ident_char_no_op _ (H x Hx)). reflexivity.
Qed.

Lemma no_op_cons : forall c s, no_op (c :: s) = negb (op_char c) && no_op s.
Proof. reflexivity. Qed.

Lemma no_op_ident : forall i, wf_ident i -> no_op (ident_to_string i) = true.
Proof.
  intros [n|s] H; cbn [ident_to_string].
  - apply no_op_ident_chars, show_N_ident_chars.
  - destruct H as [H _]. exact (no_op_ident_chars _ H).
Qed.

Lemma no_op_ids_tail : forall ids, Forall wf_ident ids -> no_op (ids_tail ids) = true.
Proof.
  induction ids as [|i ids IH]; intros H; [reflexivity|].
  inversion H as [|? ? Hi Hids]; subst. cbn [ids_tail].
  rewrite no_op_cons, no_op_app, (no_op_ident _ Hi), (IH Hids). reflexivity.
Qed.

Lemma no_op_ids_to_string : forall first ids, op_char first = false ->
  Forall wf_ident ids -> no_op (ids_to_string first ids) = true.
Proof.
  intros first [|i ids] Hf H; [reflexivity|].
  inversion H as [|? ? Hi Hids]; subst. cbn [ids_to_string].
  rewrite no_op_cons, no_op_app, Hf, (no_op_ident _ Hi), (no_op_ids_tail _ Hids).
  reflexivity.
Qed.

Lemma no_op_show_N : forall n, no_op (show_N n) = true.
Proof. intros n. apply no_op_ident_chars, show_N_ident_chars. Qed.

Lemma no_op_version : forall v,
  Forall wf_ident v.(pre_release) /\ Forall wf_ident v.(build) ->
  no_op (version_to_string v) = true.
Proof.
  intros v [Hp Hb]. unfold version_to_string.
  repeat rewrite no_op_app.
  rewrite !no_op_show_N.
  rewrite (no_op_ids_to_string 45 _ eq_refl Hp), (no_op_ids_to_string 43 _ eq_refl Hb).
  destruct (0 <? revision v); [rewrite (no_op_cons _ (show_N _)), no_op_show_N|];
    reflexivity.
Qed.

Lemma cs_to_string_no_op : forall c s, cs_ids_ok c -> cs_to_string c = Returns s ->
  no_op s = true.
Proof.
  intros [up lo] s [Hl Hu] E. unfold cs_to_string in E; cbn [lower upper] in *.
  destruct lo as [p|p], up as [q|q]; destruct p as [v|v|], q as [w|w|];
    cbn [predicate pred_ids_ok] in Hl, Hu; try discriminate;
    try destruct (version_eq v w); apply Returns_inj in E; subst s;
    repeat rewrite no_op_app;
    repeat match goal with
    | H : Forall wf_ident (pre_release ?v) /\ Forall wf_ident (build ?v) |- _ =>
        rewrite (no_op_version v H); clear H
    end; reflexivity.
Qed.

Lemma cs_join_no_op : forall cs first s, Forall cs_ids_ok cs -> cs_join first cs = Returns s ->
  no_op s = true.
Proof.
  induction cs as [|c cs IH]; intros first s H E; cbn [cs_join] in E.
  - apply Returns_inj in E. subst s. reflexivity.
  - inversion H as [|? ? Hc Hcs]; subst.
    destruct (cs_to_string c) as [s1|] eqn:E1; [|discriminate]. cbn [obind] in E.
    destruct (cs_join false cs) as [s2|] eqn:E2; [|discriminate]. cbn [obind] in E.
    apply Returns_inj in E. subst s.
    rewrite !no_op_app, (cs_to_string_no_op _ _ Hc E1), (IH _ _ Hcs E2).
    destruct first; reflexivity.
Qed.

Lemma cs_to_string_wk : forall c, cs_wk c = true -> exists s, cs_to_string c = Returns s.
Proof.
  intros [up lo] H. unfold cs_wk in H; cbn [lower upper] in H. unfold cs_to_string; cbn [lower upper].
  destruct lo as [p|p], up as [q|q]; try discriminate; destruct p, q;
    try destruct (version_eq _ _); eauto.
Qed.

Lemma cs_join_wk : forall cs first, Forall (fun c => cs_wk c = true) cs ->
  exists s, cs_join first cs = Returns s.
Proof.
  induction cs as [|c cs IH]; intros first H; cbn [cs_join]; [eauto|].
  inversion H as [|? ? Hc Hcs]; subst.
  destruct (cs_to_string_wk _ Hc) as [s1 ->]. destruct (IH false Hcs) as [s2 ->].
  cbn [obind]. eauto.
Qed.

Lemma bound_eq_unbounded : forall x y, bound_eq x y = true ->
  predicate x = Unbounded -> predicate y = Unbounded.
Proof.
  intros [p|p] [q|q] H Hx; cbn [predicate] in *; subst p; cbn in H; try discriminate;
    destruct q; try discriminate; reflexivity.
Qed.

Lemma lex_eq_unbounded : forall A B,
  Exists (fun c => predicate c.(lower) = Unbounded \/ predicate c.(upper) = Unbounded) A ->
  Forall cs_bounded B -> lex_eq cs_eq A B = false.
Proof.
  induction A as [|a A IH]; intros B HA HB; [inversion HA|].
  destruct B as [|b B]; [reflexivity|]. cbn [lex_eq].
  inversion HB as [|? ? [Hbl Hbu] HB']; subst.
  inversion HA as [? ? Ha|? ? HA']; subst.
  - destruct (cs_eq a b) eqn:E; [|reflexivity]. exfalso.
    unfold cs_eq in E. apply andb_true_iff in E as [Eu El].
    destruct Ha as [Ha|Ha]; [exact (Hbl (bound_eq_unbounded _ _ El Ha)) |
                             exact (Hbu (bound_eq_unbounded _ _ Eu Ha))].
  - rewrite (IH _ HA' HB'). apply andb_false_r.
Qed.

Lemma range_parse_ok : forall s R, range_parse s = Returns (Ok R) ->
  exists r, range s = IOk r R.(comparators).
Proof.
  intros s R. unfold range_parse.
  destruct (all_consuming range s) as [r v|[e|e|]|] eqn:E; cbn [to_semver_error];
    try discriminate; [|destruct (byte_len s =? 0); discriminate].
  intros H. injection H as <-. cbn [comparators]. unfold all_consuming in E.
  destruct (range s) as [[|c r'] l| |]; try discriminate. injection E as <- <-. eauto.
Qed.

(** [Display for Range] never panics on a range returned by [Range::parse],
    but a set with an unbounded side is printed as ["[v,)"], ["(v,)"],
    ["(,v]"], ["(,v)"] or ["*"], and the bracket form of [Range::parse]
    reads two bounded sides out of any such text (a missing version is read
    as an empty [PartialVersion], never as [None]): whatever [Range::parse]
    returns for the printed text differs from the range printed. For
    example [">=1.0.0"] is printed ["[1.0.0,)"], which is rejected; and
    ["=1.2.3"] is printed ["[1.2.3]"], which is rejected too. *)
Theorem range_display_reparse :
  (forall input R, range_parse input = Returns (Ok R) ->
     exists s, range_to_string R = Returns s /\
       (Exists (fun c => predicate c.(lower) = Unbounded \/ predicate c.(upper) = Unbounded)
          R.(comparators) ->
        forall R', range_parse s = Returns (Ok R') -> range_eq R R' = false)) /\
  (exists R e, range_parse (lit ">=1.0.0") = Returns (Ok R) /\
     range_to_string R = Returns (lit "[1.0.0,)") /\
     range_parse (lit "[1.0.0,)") = Returns (Err e)) /\
  (exists R e, range_parse (lit "=1.2.3") = Returns (Ok R) /\
     range_to_string R = Returns (lit "[1.2.3]") /\
     range_parse (lit "[1.2.3]") = Returns (Err e)).
Proof.
  split; [|split].
  - intros input R H. destruct (range_parse_ok _ _ H) as [r E].
    pose proof (Produces_range _ _ _ E) as [_ Hv].
    pose proof (Produces_range_ids _ _ _ E) as Hi.
    destruct (cs_join_wk (comparators R) true) as [s Hs].
    { eapply Forall_impl; [|exact Hv]. apply cs_valid_wk. }
    exists s. split; [exact Hs|]. intros Hu R' H'.
    destruct (range_parse_ok _ _ H') as [r' E'].
    unfold range_eq. apply lex_eq_unbounded; [exact Hu|].
    eapply range_no_op; [|exact E']. exact (cs_join_no_op _ _ _ Hi Hs).
  - do 2 eexists. split; [vm_compute; reflexivity|]. split; vm_compute; reflexivity.
  - do 2 eexists. split; [vm_compute; reflexivity|]. split; vm_compute; reflexivity.
Qed.

(** Two versions that differ in build metadata and in the case of their
    pre-release hash the same. *)
Lemma version_hash_consistent_witness :
  version_eq (mkVersion 1 2 3 0 [AlphaNumeric (lit "b1")] [AlphaNumeric (lit "rc")])
             (mkVersion 1 2 3 0 [] [AlphaNumeric (lit "RC")]) = true /\
  version_hash (mkVersion 1 2 3 0 [AlphaNumeric (lit "b1")] [AlphaNumeric (lit "rc")]) =
  version_hash (mkVersion 1 2 3 0 [] [AlphaNumeric (lit "RC")]).
Proof.
  split; [vm_compute; reflexivity|]. apply version_hash_consistent. vm_compute. reflexivity.
Defined.

(** With [force_floating], [[1.0.0, 3.0.0)] over [2.0.0], [1.0.0], [3.0.0]
    picks [2.0.0]. *)
Lemma pick_version_extremal_witness :
  let r := mkRange [mkCS (Upper (Excluding (mkVersion 3 0 0 0 [] [])))
                         (Lower (Including (mkVersion 1 0 0 0 [] [])))] in
  let vs := [mkVersion 2 0 0 0 [] []; mkVersion 1 0 0 0 [] []; mkVersion 3 0 0 0 [] []] in
  let v := mkVersion 2 0 0 0 [] [] in
  pick_version true false r vs = Returns (Some v) /\
  (In v vs /\ range_satisfies r v = Returns true /\
   forall w, In w vs -> range_satisfies r w = Returns true ->
     range_has_pre_release r = Returns true \/ w.(pre_release) = [] ->
     if false || true then version_le w v = true else version_le v w = true).
Proof.
  intros r vs v. split; [vm_compute; reflexivity|].
  apply (pick_version_extremal true false r vs v). vm_compute. reflexivity.
Defined.
